(** * Prescription data analyzer: the three aggregate reports

    A shallow embedding of [src/utils/useful_utilities.py]:
    [calculate_metrics], [recommendations] and [most_prescribed], each with
    the reversal set it builds from the reverts; then [process_data] and
    the readers [read_claims], [read_reverts] and [read_pharmacies], which
    are given the listing of a directory and, for each file, what the
    parser of the file yields.

    Modelling choices, all read off the source:
    - a claim or a revert is a Python dict built field by field by the
      readers, so every field is optional; [claim['k']] on a missing key
      raises [KeyError], [claim.get('k', d)] does not;
    - a Python [dict] iterates in insertion order, and two of the reports
      break ties by that order: dicts that are iterated are association
      lists with unique keys, new keys appended at the end.  The pharmacy
      directory is only looked up, it is a [gmap]; the reversal set is a
      [gset];
    - Python floats are kept behind the interface [Number], so that the
      aggregation is stated once; [float64] instantiates it with the
      kernel's binary64 numbers and [exactQ] with exact rationals.  Where
      a property needs the numbers to be ordered or to be told apart, it
      says so of the numbers at hand, by a check that computes on binary64;
    - Python ints (the counters and [len]) are [Z]. *)

From Stdlib Require Import ZArith QArith Floats.
From stdpp Require Import base option list strings gmap sets sorting.

Local Open Scope string_scope.
Local Open Scope list_scope.

(** ** Exceptions *)

Inductive exn : Type :=
  | KeyError (key : string)
  | ZeroDivisionError.

Inductive result (A : Type) : Type :=
  | Ok (a : A)
  | Raise (e : exn).
Arguments Ok {A} a.
Arguments Raise {A} e.

#[global] Instance result_ret : MRet result := fun _ a => Ok a.
#[global] Instance result_bind : MBind result := fun _ _ f m =>
  match m with
  | Ok a => f a
  | Raise e => Raise e
  end.

(** [d['k']] on a dict whose field [k] may be absent. *)
Definition subscript {A} (key : string) (field : option A) : result A :=
  match field with
  | Some a => Ok a
  | None => Raise (KeyError key)
  end.

(** [for x in l: s = body(s, x)], stopping at the first exception. *)
Fixpoint for_each {S A} (body : S -> A -> result S) (s : S) (l : list A)
  : result S :=
  match l with
  | [] => Ok s
  | x :: l' => s' ← body s x; for_each body s' l'
  end.

(** [[f(x) for x in l]], stopping at the first exception. *)
Fixpoint comprehension {A B} (f : A -> result B) (l : list A)
  : result (list B) :=
  match l with
  | [] => Ok []
  | x :: l' => y ← f x; ys ← comprehension f l'; Ok (y :: ys)
  end.

Definition is_KeyError {A} (r : result A) : Prop :=
  ∃ k, r = Raise (KeyError k).

(** ** Numbers *)

(** The operations the aggregators apply to prices and quantities. *)
Class Number (num : Type) : Type := {
  of_int : Z -> num;            (* int converted for a mixed operation *)
  nadd : num -> num -> num;     (* a + b *)
  nneg : num -> num;            (* -a *)
  ndiv : num -> num -> num;     (* a / b, for b that is not zero *)
  nltb : num -> num -> bool;    (* a < b *)
  nleb : num -> num -> bool;    (* a <= b *)
  neqb : num -> num -> bool;    (* a == b *)
}.

(** [<] and [<=] form a total preorder: what [list.sort] relies on.
    Binary64 numbers satisfy it as long as no NaN is compared. *)
Class NumberOrder (num : Type) `{Number num} : Prop := {
  nltb_nleb : ∀ a b, nltb a b = true -> nleb a b = true;
  nleb_total : ∀ a b, nltb a b = false -> nleb b a = true;
  nleb_trans : ∀ a b c, nleb a b = true -> nleb b c = true -> nleb a c = true;
}.

(** [==] is an equivalence: what a dict keyed by numbers relies on. *)
Class NumberEq (num : Type) `{Number num} : Prop := {
  neqb_refl : ∀ a, neqb a a = true;
  neqb_sym : ∀ a b, neqb a b = true -> neqb b a = true;
  neqb_trans : ∀ a b c, neqb a b = true -> neqb b c = true -> neqb a c = true;
}.

(** [float(z)], rounded to nearest as Python does, for ints below 2^63 in
    absolute value. *)
Definition float_of_int (z : Z) : float :=
  if (z <? 0)%Z then PrimFloat.opp (PrimFloat.of_uint63 (Uint63.of_Z (- z)))
  else PrimFloat.of_uint63 (Uint63.of_Z z).

#[global] Instance float64 : Number float := {|
  of_int := float_of_int;
  nadd := PrimFloat.add;
  nneg := PrimFloat.opp;
  ndiv := PrimFloat.div;
  nltb := PrimFloat.ltb;
  nleb := PrimFloat.leb;
  neqb := PrimFloat.eqb;
|}.

(** Exact rational arithmetic. *)
#[global] Instance exactQ : Number Q := {|
  of_int := inject_Z;
  nadd := Qplus;
  nneg := Qopp;
  ndiv := Qdiv;
  nltb := fun a b => negb (Qle_bool b a);
  nleb := Qle_bool;
  neqb := Qeq_bool;
|}.

(** ** Data model *)

Section Aggregators.
Context {num : Type} `{Number num}.

(** [sum(l)]: the int [0] plus the items, from left to right.  (From
    CPython 3.12 on the rounding errors of floats are compensated; no
    property below depends on how the items are added up.) *)
Definition sum (l : list num) : num := foldl nadd (of_int 0) l.

(** What [read_claims] builds: any of the fields may be missing. *)
Record claim : Type := {
  c_id : option string;
  c_npi : option string;
  c_ndc : option string;
  c_price : option num;
  c_quantity : option num;
  c_timestamp : option string;
}.

(** What [read_reverts] builds. *)
Record revert : Type := {
  r_id : option string;
  r_claim_id : option string;
  r_timestamp : option string;
}.

(** ** Dicts in insertion order *)

Section Dict.
Context {K V : Type} `{EqDecision K}.

(** [d.get(k)] *)
Fixpoint dict_get (d : list (K * V)) (k : K) : option V :=
  match d with
  | [] => None
  | (k', v) :: d' => if decide (k' = k) then Some v else dict_get d' k
  end.

(** [d[k] = f(d[k])] on a [defaultdict] whose factory returns [dflt]: an
    existing entry is changed in place, a missing one is created at the
    end. *)
Fixpoint dict_update (d : list (K * V)) (k : K) (dflt : V) (f : V -> V)
  : list (K * V) :=
  match d with
  | [] => [(k, f dflt)]
  | (k', v) :: d' =>
      if decide (k' = k) then (k', f v) :: d'
      else (k', v) :: dict_update d' k dflt f
  end.

End Dict.

(** ** Reversal set *)

(** [set(revert['claim_id'] for revert in reverts)] *)
Definition reverted_claims (reverts : list revert) : result (gset string) :=
  ids ← comprehension (fun revert => subscript "claim_id" (r_claim_id revert))
        reverts;
  Ok (list_to_set ids).

(** ** calculate_metrics *)

(** The value of the [metrics] dict:
    [{'fills': 0, 'reverted': 0, 'total_price': 0.0}]. *)
Record metric : Type := {
  fills : Z;
  reverted : Z;
  total_price : num;
}.

Definition metric_default : metric :=
  {| fills := 0; reverted := 0; total_price := of_int 0 |}.

Definition incr_fills (m : metric) : metric :=
  {| fills := fills m + 1; reverted := reverted m;
     total_price := total_price m |}.
Definition add_price (price : num) (m : metric) : metric :=
  {| fills := fills m; reverted := reverted m;
     total_price := nadd (total_price m) price |}.
Definition incr_reverted (m : metric) : metric :=
  {| fills := fills m; reverted := reverted m + 1;
     total_price := total_price m |}.

Record metric_record : Type := {
  mr_npi : string;
  mr_ndc : string;
  mr_fills : Z;
  mr_reverted : Z;
  mr_avg_price : num;
  mr_total_price : num;
}.

(** The body of [for claim in claims] in [calculate_metrics]. *)
Definition metrics_body (rc : gset string)
    (metrics : list (string * string * metric)) (claim : claim)
  : result (list (string * string * metric)) :=
  npi ← subscript "npi" (c_npi claim);
  ndc ← subscript "ndc" (c_ndc claim);
  let key := (npi, ndc) in
  let metrics := dict_update metrics key metric_default incr_fills in
  price ← subscript "price" (c_price claim);
  let metrics := dict_update metrics key metric_default (add_price price) in
  id ← subscript "id" (c_id claim);
  if decide (id ∈ rc)
  then Ok (dict_update metrics key metric_default incr_reverted)
  else Ok metrics.

(** One element of the returned list. *)
Definition metric_output (entry : string * string * metric) : metric_record :=
  let '(npi, ndc, metric) := entry in
  {| mr_npi := npi;
     mr_ndc := ndc;
     mr_fills := fills metric;
     mr_reverted := reverted metric;
     mr_avg_price :=
       if decide (fills metric = 0%Z) then of_int 0
       else ndiv (total_price metric) (of_int (fills metric));
     mr_total_price := total_price metric |}.

Definition calculate_metrics (claims : list claim) (reverts : list revert)
  : result (list metric_record) :=
  rc ← reverted_claims reverts;
  metrics ← for_each (metrics_body rc) [] claims;
  Ok (map metric_output metrics).

(** ** Sorting *)

(** [list.sort(key=...)] and [sorted(..., key=...)] are stable and compare
    keys with [<] only.  On keys that [<] orders totally the stable sorted
    arrangement is unique, and it is the one computed here: every element,
    in order, is placed in the sorted prefix after the elements whose key is
    not greater.  With [reverse=True] the order is [>], equal keys still in
    their original order.  On keys that [<] does not order totally, a NaN
    among floats, the arrangement that CPython leaves depends on the runs
    its sort finds and need not be the one computed here: what is proved
    of an order below is proved of keys that are ordered totally, and what
    is proved without that condition does not depend on the order.  The
    runs on a NaN that are evaluated have one key, or two of which the
    second is not less than the first: a single ascending run for CPython,
    which leaves it as it is, as [sort_by] does. *)
Section Sort.
Context {A K : Type} (lt : K -> K -> bool) (key : A -> K).

Fixpoint insert_by (x : A) (sorted : list A) : list A :=
  match sorted with
  | [] => [x]
  | y :: sorted' =>
      if lt (key x) (key y) then x :: y :: sorted'
      else y :: insert_by x sorted'
  end.

Definition sort_by (l : list A) : list A :=
  foldl (fun sorted x => insert_by x sorted) [] l.

End Sort.

(** ** recommendations *)

Record chain_recommendation : Type := {
  cr_name : string;
  cr_avg_price : num;
}.

Record ndc_recommendation : Type := {
  rec_ndc : string;
  rec_chain : list chain_recommendation;
}.

(** [prices.append(price)] *)
Definition append (price : num) (prices : list num) : list num :=
  prices ++ [price].

(** [ndc_metrics[ndc][chain].append(price)] on
    [defaultdict(lambda: defaultdict(list))]. *)
Definition append_price (ndc chain : string) (price : num)
    (ndc_metrics : list (string * list (string * list num)))
  : list (string * list (string * list num)) :=
  dict_update ndc_metrics ndc []
    (fun chain_metrics => dict_update chain_metrics chain [] (append price)).

(** The body of the first loop of [recommendations]. *)
Definition recommendations_body (rc : gset string)
    (pharmacy_chains : gmap string string)
    (ndc_metrics : list (string * list (string * list num))) (claim : claim)
  : result (list (string * list (string * list num))) :=
  npi ← subscript "npi" (c_npi claim);
  ndc ← subscript "ndc" (c_ndc claim);
  let chain := default "Unknown" (pharmacy_chains !! npi) in
  price ← subscript "price" (c_price claim);
  let ndc_metrics := append_price ndc chain price ndc_metrics in
  id ← subscript "id" (c_id claim);
  if decide (id ∈ rc)
  then Ok (append_price ndc chain (nneg price) ndc_metrics)
  else Ok ndc_metrics.

(** [sum(prices) / len(prices)] *)
Definition average (prices : list num) : result num :=
  let n := Z.of_nat (length prices) in
  if decide (n = 0%Z) then Raise ZeroDivisionError
  else Ok (ndiv (sum prices) (of_int n)).

(** The inner loop: one [{'name': chain, 'avg_price': avg_price}] per
    chain, in the order of the chains. *)
Definition chain_averages (chain_metrics : list (string * list num))
  : result (list chain_recommendation) :=
  comprehension
    (fun '(chain, prices) =>
       avg_price ← average prices;
       Ok {| cr_name := chain; cr_avg_price := avg_price |})
    chain_metrics.

(** The outer loop: sort the chains of an ndc by average, keep two. *)
Definition ndc_output (entry : string * list (string * list num))
  : result ndc_recommendation :=
  let '(ndc, chain_metrics) := entry in
  chain_recommendations ← chain_averages chain_metrics;
  let chain_recommendations := sort_by nltb cr_avg_price chain_recommendations in
  Ok {| rec_ndc := ndc; rec_chain := take 2 chain_recommendations |}.

(** The first loop alone: the final [ndc_metrics]. *)
Definition ndc_metrics (claims : list claim) (rc : gset string)
    (pharmacy_chains : gmap string string)
  : result (list (string * list (string * list num))) :=
  for_each (recommendations_body rc pharmacy_chains) [] claims.

Definition recommendations (claims : list claim) (reverts : list revert)
    (pharmacy_chains : gmap string string)
  : result (list ndc_recommendation) :=
  rc ← reverted_claims reverts;
  ndc_metrics ← ndc_metrics claims rc pharmacy_chains;
  comprehension ndc_output ndc_metrics.

(** ** most_prescribed *)

Record ndc_most_prescribed : Type := {
  mp_ndc : string;
  mp_most_prescribed_quantity : list num;
}.

(** The body of the first loop of [most_prescribed]; the quantity is read
    with [claim.get('quantity', 0.0)]. *)
Definition most_prescribed_body (rc : gset string)
    (ndc_quantities : list (string * list num)) (claim : claim)
  : result (list (string * list num)) :=
  npi ← subscript "npi" (c_npi claim);
  ndc ← subscript "ndc" (c_ndc claim);
  let quantity := default (of_int 0) (c_quantity claim) in
  id ← subscript "id" (c_id claim);
  if decide (id ∉ rc)
  then Ok (dict_update ndc_quantities ndc [] (append quantity))
  else Ok ndc_quantities.

(** [Counter.update] counts one element: [self[elem] = self.get(elem, 0) + 1],
    keys compared with [==], a new key placed last. *)
Fixpoint count_elem (elem : num) (counts : list (num * Z)) : list (num * Z) :=
  match counts with
  | [] => [(elem, 1%Z)]
  | (k, n) :: counts' =>
      if neqb k elem then (k, (n + 1)%Z) :: counts'
      else (k, n) :: count_elem elem counts'
  end.

(** [Counter(quantities)] *)
Definition Counter (quantities : list num) : list (num * Z) :=
  foldl (fun counts elem => count_elem elem counts) [] quantities.

(** [most_common()]: [sorted(self.items(), key=itemgetter(1), reverse=True)] *)
Definition most_common (counts : list (num * Z)) : list (num * Z) :=
  sort_by (fun a b => (b <? a)%Z) snd counts.

Definition most_prescribed_output (entry : string * list num)
  : ndc_most_prescribed :=
  let '(ndc, quantities) := entry in
  {| mp_ndc := ndc;
     mp_most_prescribed_quantity := map fst (most_common (Counter quantities)) |}.

(** The first loop alone: the final [ndc_quantities]. *)
Definition ndc_quantities (claims : list claim) (rc : gset string)
  : result (list (string * list num)) :=
  for_each (most_prescribed_body rc) [] claims.

Definition most_prescribed (claims : list claim) (reverts : list revert)
  : result (list ndc_most_prescribed) :=
  rc ← reverted_claims reverts;
  ndc_quantities ← ndc_quantities claims rc;
  Ok (map most_prescribed_output ndc_quantities).

End Aggregators.

Arguments claim : clear implicits.
Arguments metric : clear implicits.
Arguments metric_record : clear implicits.
Arguments chain_recommendation : clear implicits.
Arguments ndc_recommendation : clear implicits.
Arguments ndc_most_prescribed : clear implicits.

(** ** Vocabulary of the properties *)

Section Vocabulary.
Context {num : Type} `{Number num}.

(** The claim's id is in the reversal set. *)
Definition claim_reverted (rc : gset string) (c : claim num) : bool :=
  match c_id c with
  | Some id => bool_decide (id ∈ rc)
  | None => false
  end.

(** The fields an aggregator subscripts are all there. *)
Definition has_metrics_fields (c : claim num) : Prop :=
  is_Some (c_npi c) ∧ is_Some (c_ndc c) ∧ is_Some (c_price c) ∧
  is_Some (c_id c).
Definition has_ranking_fields (c : claim num) : Prop :=
  is_Some (c_npi c) ∧ is_Some (c_ndc c) ∧ is_Some (c_id c).

Definition sumZ (l : list Z) : Z := foldr Z.add 0%Z l.

(** What a record of [calculate_metrics] says besides [reverted]. *)
Definition without_reverted (r : metric_record num)
  : string * string * Z * num * num :=
  (mr_npi r, mr_ndc r, mr_fills r, mr_total_price r, mr_avg_price r).

(** The quantity a claim is read with; an absent one reads as [0.0]. *)
Definition claim_quantity (c : claim num) : num :=
  default (of_int 0) (c_quantity c).

(** The quantities of the claims of [ndc] that are not reverted, in the
    order of the claims. *)
Definition quantities_of (rc : gset string) (ndc : string)
    (claims : list (claim num)) : list num :=
  claim_quantity <$>
  filter (fun c => c_ndc c = Some ndc ∧ claim_reverted rc c = false) claims.

(** [==] is an equivalence among the numbers of [S]: what a dict keyed by
    them relies on.  On binary64 this says that none of them is a NaN. *)
Definition equivalence_on (S : list num) : bool :=
  forallb (fun a =>
    neqb a a &&
    forallb (fun b =>
      implb (neqb a b) (neqb b a) &&
      forallb (fun c => implb (neqb a b && neqb b c) (neqb a c)) S) S) S.

(** [<] and [<=] are a total preorder and its strict part among the numbers
    of [S]: what [list.sort] relies on.  On binary64 this says that none of
    them is a NaN. *)
Definition total_preorder_on (S : list num) : bool :=
  forallb (fun a =>
    forallb (fun b =>
      implb (nltb a b) (nleb a b) && implb (negb (nltb a b)) (nleb b a) &&
      forallb (fun c => implb (nleb a b && nleb b c) (nleb a c)) S) S) S.

(** How often [q] occurs in a list, up to [==]. *)
Definition frequency (q : num) (quantities : list num) : Z :=
  Z.of_nat (length (filter (fun x => neqb x q = true) quantities)).

(** The position at which [q] is first encountered. *)
Fixpoint first_seen (q : num) (quantities : list num) : option nat :=
  match quantities with
  | [] => None
  | x :: quantities' =>
      if neqb x q then Some 0 else S <$> first_seen q quantities'
  end.

(** [q] is one of the elements of [l], up to [==]. *)
Definition encountered (q : num) (l : list num) : bool :=
  existsb (fun k => neqb k q) l.

(** The distinct elements of a list, each by its first occurrence, in the
    order in which they are first encountered. *)
Definition first_encounters (l : list num) : list num :=
  foldl (fun seen x => if encountered x seen then seen else seen ++ [x]) [] l.

(** [ranking] lists the distinct elements of [quantities], by descending
    frequency, those of equal frequency in the order of their first
    encounter. *)
Definition ranked (quantities ranking : list num) : Prop :=
  (∀ q, q ∈ ranking -> q ∈ quantities) ∧
  (∀ q, q ∈ quantities -> ∃ k, k ∈ ranking ∧ neqb k q = true) ∧
  (∀ i j a b,
      i < j -> ranking !! i = Some a -> ranking !! j = Some b ->
      neqb a b = false ∧
      (frequency b quantities ≤ frequency a quantities)%Z ∧
      (frequency a quantities = frequency b quantities ->
       ∃ m n, first_seen a quantities = Some m ∧
              first_seen b quantities = Some n ∧ m < n)).

(** The chain a claim is resolved to. *)
Definition resolved_chain (pharmacy_chains : gmap string string)
    (c : claim num) : option string :=
  (fun npi => default "Unknown" (pharmacy_chains !! npi)) <$> c_npi c.

(** The samples one claim adds to its price list. *)
Definition price_samples (rc : gset string) (c : claim num) : list num :=
  match c_price c with
  | Some price =>
      if claim_reverted rc c then [price; nneg price] else [price]
  | None => []
  end.

(** The price list of (ndc, chain): the samples of the claims resolved to
    it, in the order of the claims. *)
Definition prices_of (rc : gset string) (pharmacy_chains : gmap string string)
    (ndc chain : string) (claims : list (claim num)) : list num :=
  concat (price_samples rc <$>
          filter (fun c => c_ndc c = Some ndc ∧
                           resolved_chain pharmacy_chains c = Some chain)
                 claims).

(** [ndc_metrics[ndc][chain]], when both keys are there. *)
Definition price_list (ndc_metrics : list (string * list (string * list num)))
    (ndc chain : string) : option (list num) :=
  chain_metrics ← dict_get ndc_metrics ndc; dict_get chain_metrics chain.

(** The averages that the second loop of [recommendations] computes and
    sorts, over all ndcs. *)
Definition averages (ndc_metrics : list (string * list (string * list num)))
  : list num :=
  entry ← ndc_metrics;
  (fun chain_prices : string * list num =>
     ndiv (sum chain_prices.2)
          (of_int (Z.of_nat (length chain_prices.2)))) <$> entry.2.

Definition all_averages (claims : list (claim num)) (reverts : list revert)
    (pharmacy_chains : gmap string string) : list num :=
  match rc ← reverted_claims reverts; ndc_metrics claims rc pharmacy_chains with
  | Ok ndc_metrics => averages ndc_metrics
  | Raise _ => []
  end.

(** A list entry of a [defaultdict(list)] after [l] was appended to it,
    element by element: no entry is created when nothing is appended. *)
Definition extended {A} (entry : option (list A)) (l : list A)
  : option (list A) :=
  match l with
  | [] => entry
  | _ => Some (default [] entry ++ l)
  end.

(** [a] comes before [b] in [l]. *)
Definition before {A} (a b : A) (l : list A) : Prop := [a; b] `sublist_of` l.

(** An output depends on the reverts only through the set of their claim
    ids: a second copy of a revert, another order, and a revert of a claim
    id that no claim has, change nothing. *)
Definition reverts_as_set {A} (claims : list (claim num))
    (F : list revert -> result A) : Prop :=
  (∀ r reverts, r ∈ reverts -> F (r :: reverts) = F reverts) ∧
  (∀ reverts reverts', reverts ≡ₚ reverts' -> F reverts = F reverts') ∧
  (∀ r id reverts,
      r_claim_id r = Some id -> Some id ∉ c_id <$> claims ->
      F (r :: reverts) = F reverts).

(** The numbers of a list are in ascending order. *)
Definition ascending (l : list num) : Prop :=
  ∀ i j a b, i < j -> l !! i = Some a -> l !! j = Some b -> nleb a b = true.

End Vocabulary.

(** ** Vocabulary of the proofs *)

(** The order of a sort by [key], and the elements of one key. *)
Definition key_le {A K} (le : K -> K -> bool) (key : A -> K) (x y : A)
  : Prop :=
  le (key x) (key y) = true.
Definition same_key {A K} (le : K -> K -> bool) (key : A -> K) (k : K) (x : A)
  : Prop :=
  le (key x) k = true ∧ le k (key x) = true.
Definition comparable_keys {A K} (key : A -> K) (comparable : K -> Prop)
    (l : list A) : Prop :=
  Forall (fun x => comparable (key x)) l.

#[global] Instance same_key_dec {A K} (le : K -> K -> bool) (key : A -> K)
    (k : K) (x : A) : Decision (same_key le key k x).
Proof. unfold same_key. apply _. Defined.

(** [most_common] orders by descending count. *)
Definition count_ge (m n : Z) : bool := (n <=? m)%Z.

Section ProofVocabulary.
Context {num : Type} `{Number num}.

(** What the loop body of [calculate_metrics] does to the entry of one
    claim. *)
Definition count_claim (price : num) (is_reverted : bool) (v : metric num)
  : metric num :=
  {| fills := fills v + 1;
     reverted := if is_reverted then reverted v + 1 else reverted v;
     total_price := nadd (total_price v) price |}.

(** Every entry was filled at least once, and reverted at most as often as
    it was filled. *)
Definition metric_counted (v : metric num) : Prop :=
  (1 ≤ fills v)%Z ∧ (0 ≤ reverted v ≤ fills v)%Z.

(** The fills and the total price of an entry, which no revert touches. *)
Definition fills_and_total (v : metric num) : Z * num :=
  (fills v, total_price v).

(** A record but for its reverted field, from the fills and the total. *)
Definition output_without_reverted (e : string * string * (Z * num))
  : string * string * Z * num * num :=
  (e.1.1, e.1.2, e.2.1, e.2.2,
   if decide (e.2.1 = 0%Z) then of_int 0 else ndiv e.2.2 (of_int e.2.1)).

(** Two reversal sets that agree on the ids of the claims. *)
Definition agree_on_claims (claims : list (claim num)) (rc rc' : gset string)
  : Prop :=
  ∀ id, Some id ∈ c_id <$> claims -> id ∈ rc ↔ id ∈ rc'.

(** Both levels of [ndc_metrics] have unique keys. *)
Definition unique_keys (g : list (string * list (string * list num))) : Prop :=
  NoDup g.*1 ∧ Forall (fun e => NoDup e.2.*1) g.

(** The price list a claim goes to, and what it adds there. *)
Definition claim_samples (rc : gset string) (dir : gmap string string)
    (ndc chain : string) (c : claim num) : list num :=
  if decide (c_ndc c = Some ndc ∧ resolved_chain dir c = Some chain)
  then price_samples rc c else [].

(** What the inner loop of [recommendations] makes of one chain. *)
Definition chain_average (e : string * list num)
    (cr : chain_recommendation num) : Prop :=
  e.2 ≠ [] ∧ cr_name cr = e.1 ∧
  cr_avg_price cr = ndiv (sum e.2) (of_int (Z.of_nat (length e.2))).

(** The items of a counter whose counts are given by [F]. *)
Definition counted (F : num -> Z) (D : list num) : list (num * Z) :=
  (fun q => (q, F q)) <$> D.

End ProofVocabulary.

(** ** Scenarios on binary64 *)

Definition claim_of {num} (id npi ndc : string) (price quantity : num)
  : claim num :=
  {| c_id := Some id; c_npi := Some npi; c_ndc := Some ndc;
     c_price := Some price; c_quantity := Some quantity;
     c_timestamp := Some "t" |}.

Definition revert_of (id claim_id : string) : revert :=
  {| r_id := Some id; r_claim_id := Some claim_id; r_timestamp := Some "t" |}.

(** The claim, the revert and the directory of the spec's scenarios. *)
Definition claim_c1 : claim float := claim_of "c1" "p1" "d1" 10%float 30%float.
Definition revert_r1 : revert := revert_of "r1" "c1".
Definition directory_p1 : gmap string string := {[ "p1" := "ChainA" ]}.

Definition record_c1 (reverted : Z) : metric_record float :=
  {| mr_npi := "p1"; mr_ndc := "d1"; mr_fills := 1; mr_reverted := reverted;
     mr_avg_price := 10%float; mr_total_price := 10%float |}.

(** Three known chains and an unknown pharmacy selling one drug, one of the
    fills reverted. *)
Definition three_chains : gmap string string :=
  {[ "p1" := "ChainA"; "p2" := "ChainB"; "p3" := "ChainC" ]}.

Definition claims_three_chains : list (claim float) :=
  [ claim_of "c1" "p1" "d1" 3 30; claim_of "c2" "p2" "d1" 1 30;
    claim_of "c3" "p3" "d1" 2 30; claim_of "c4" "p9" "d1" 5 30;
    claim_of "c5" "p2" "d1" 4 30 ]%float.

Definition reverts_three_chains : list revert := [ revert_of "r1" "c5" ].

(** Quantities 3 and 5 tie on one drug once the reverted fills are left
    out; the only fill of the other drug is reverted. *)
Definition claims_quantities : list (claim float) :=
  [ claim_of "a" "p1" "d1" 1 3; claim_of "b" "p1" "d1" 1 5;
    claim_of "c" "p2" "d1" 1 5; claim_of "d" "p1" "d1" 1 3;
    claim_of "e" "p1" "d1" 1 7; claim_of "f" "p1" "d1" 1 7;
    claim_of "g" "p1" "d1" 1 7; claim_of "h" "p1" "d2" 1 9 ]%float.

Definition reverts_quantities : list revert :=
  [ revert_of "r1" "e"; revert_of "r2" "f"; revert_of "r3" "h" ].

(** A reverted fill whose price overflowed binary64 (1e999 in the file). *)
Definition two_chains : gmap string string :=
  {[ "p1" := "ChainA"; "p2" := "ChainB" ]}.

Definition claims_infinite_price : list (claim float) :=
  [ claim_of "c1" "p1" "d1" infinity 30; claim_of "c2" "p2" "d1" 1 30 ]%float.

Definition reverts_infinite_price : list revert := [ revert_of "r1" "c1" ].

Definition claim_without_quantity : claim float :=
  {| c_id := Some "c1"; c_npi := Some "p1"; c_ndc := Some "d1";
     c_price := Some 10%float; c_quantity := None;
     c_timestamp := Some "t" |}.

Definition claim_without_price : claim float :=
  {| c_id := Some "c1"; c_npi := Some "p1"; c_ndc := Some "d1";
     c_price := None; c_quantity := Some 30%float;
     c_timestamp := Some "t" |}.

(** ** process_data *)

Section ProcessData.
Context {num : Type} `{Number num}.

(** [pharmacy_revenues[chain] += price] on [defaultdict(float)]. *)
Definition add_revenue (chain : string) (price : num)
    (pharmacy_revenues : list (string * num)) : list (string * num) :=
  dict_update pharmacy_revenues chain (of_int 0)
    (fun revenue => nadd revenue price).

(** The body of [for claim in claims] in [process_data]: a claim of an
    unknown npi is passed over before its id is read, a reverted one before
    its price is. *)
Definition process_data_body (rc : gset string)
    (pharmacy_chains : gmap string string)
    (pharmacy_revenues : list (string * num)) (claim : claim num)
  : result (list (string * num)) :=
  npi ← subscript "npi" (c_npi claim);
  match pharmacy_chains !! npi with
  | Some chain =>
      id ← subscript "id" (c_id claim);
      if decide (id ∉ rc)
      then price ← subscript "price" (c_price claim);
           Ok (add_revenue chain price pharmacy_revenues)
      else Ok pharmacy_revenues
  | None => Ok pharmacy_revenues
  end.

(** [sorted(pharmacy_revenues.items(), key=lambda x: x[1], reverse=True)] *)
Definition process_data (pharmacy_chains : gmap string string)
    (claims : list (claim num)) (reverts : list revert)
  : result (list (string * num)) :=
  rc ← reverted_claims reverts;
  pharmacy_revenues ← for_each (process_data_body rc pharmacy_chains) [] claims;
  Ok (sort_by (fun a b => nltb b a) snd pharmacy_revenues).

(** The chain whose revenue a claim adds to: its npi is in the directory
    and its id is not reverted. *)
Definition revenue_chain (rc : gset string) (dir : gmap string string)
    (c : claim num) : option string :=
  npi ← c_npi c; chain ← dir !! npi; id ← c_id c;
  if decide (id ∈ rc) then None else Some chain.

(** The prices that add up to the revenue of a chain, in the order of the
    claims. *)
Definition revenue_prices (rc : gset string) (dir : gmap string string)
    (chain : string) (claims : list (claim num)) : list num :=
  omap c_price (filter (fun c => revenue_chain rc dir c = Some chain) claims).

(** What a claim adds to the revenue of its chain. *)
Definition add_claim_price (c : claim num) (revenue : num) : num :=
  nadd revenue (default (of_int 0) (c_price c)).

(** The claims [process_data] passes over: of an npi that the directory
    does not have, or reverted. *)
Definition passed_over (rc : gset string) (dir : gmap string string)
    (c : claim num) : bool :=
  match c_npi c with
  | Some npi =>
      match dir !! npi with
      | Some _ => claim_reverted rc c
      | None => true
      end
  | None => false
  end.

(** What [process_data] reads of a claim is there. *)
Definition has_revenue_fields (rc : gset string) (dir : gmap string string)
    (c : claim num) : Prop :=
  ∃ npi, c_npi c = Some npi ∧
         (is_Some (dir !! npi) ->
          ∃ id, c_id c = Some id ∧ (id ∉ rc -> is_Some (c_price c))).

(** [<] is the strict part of [<=] among the numbers of [S]: what keeps a
    stable sort from moving equal keys.  On binary64 it holds unless one of
    the numbers is a NaN. *)
Definition strict_on (S : list num) : bool :=
  forallb (fun a =>
    forallb (fun b => implb (nltb a b) (negb (nleb b a))) S) S.

(** The numbers of a list are in descending order. *)
Definition descending (l : list num) : Prop :=
  ∀ i j a b, i < j -> l !! i = Some a -> l !! j = Some b -> nleb b a = true.

End ProcessData.

(** ** Vocabulary of grouping loops *)

(** The entry of key [k] after a loop over [l] that updates, for every [x]
    with a key, the entry of that key by [step x]. *)
Definition tally {A K V} `{EqDecision K} (key : A -> option K)
    (step : A -> V -> V) (dflt : V) (k : K) (entry : option V) (l : list A)
  : option V :=
  match filter (fun x => key x = Some k) l with
  | [] => entry
  | xs => Some (foldl (fun v x => step x v) (default dflt entry) xs)
  end.

(** The distinct elements of a list, each at its first occurrence. *)
Fixpoint first_occurrences {K} `{EqDecision K} (l : list K) : list K :=
  match l with
  | [] => []
  | k :: l => k :: filter (fun k' => k' ≠ k) (first_occurrences l)
  end.

(** ** Vocabulary of the groups *)

Section Groups.
Context {num : Type} `{Number num}.

(** The key [calculate_metrics] counts a claim under, and the key of a
    record. *)
Definition metrics_key (c : claim num) : option (string * string) :=
  npi ← c_npi c; ndc ← c_ndc c; Some (npi, ndc).
Definition record_key (r : metric_record num) : string * string :=
  (mr_npi r, mr_ndc r).

(** The claims of one key, in their order. *)
Definition claims_of_key (key : string * string) (claims : list (claim num))
  : list (claim num) :=
  filter (fun c => metrics_key c = Some key) claims.

(** What one claim does to the entry of its key. *)
Definition count_of_claim (rc : gset string) (c : claim num) (v : metric num)
  : metric num :=
  count_claim (default (of_int 0) (c_price c)) (claim_reverted rc c) v.

(** What one claim does to the chains of its ndc in [recommendations]. *)
Definition chain_step (rc : gset string) (dir : gmap string string)
    (c : claim num) (chain_metrics : list (string * list num))
  : list (string * list num) :=
  match resolved_chain dir c, c_price c with
  | Some chain, Some price =>
      let chain_metrics := dict_update chain_metrics chain [] (append price) in
      if claim_reverted rc c
      then dict_update chain_metrics chain [] (append (nneg price))
      else chain_metrics
  | _, _ => chain_metrics
  end.

(** The chains that sell an ndc, as they are first met, and the average of
    the price list of one of them. *)
Definition chains_of (dir : gmap string string) (ndc : string)
    (claims : list (claim num)) : list string :=
  first_occurrences
    (omap (resolved_chain dir) (filter (fun c => c_ndc c = Some ndc) claims)).
Definition average_of (rc : gset string) (dir : gmap string string)
    (ndc chain : string) (claims : list (claim num)) : num :=
  let prices := prices_of rc dir ndc chain claims in
  ndiv (sum prices) (of_int (Z.of_nat (length prices))).

(** The averages that the second loop of [recommendations] sorts for one
    ndc. *)
Definition ndc_averages (rc : gset string) (dir : gmap string string)
    (ndc : string) (claims : list (claim num)) : list num :=
  (fun chain => average_of rc dir ndc chain claims) <$> chains_of dir ndc claims.

(** A candidate of an ndc: a chain that sells it, with the average of its
    price list. *)
Definition chain_of_group (rc : gset string) (dir : gmap string string)
    (ndc : string) (claims : list (claim num)) (chain : string)
  : chain_recommendation num :=
  {| cr_name := chain; cr_avg_price := average_of rc dir ndc chain claims |}.

(** [ranking] arranges [candidates] by ascending average, those of equal
    average in the order they have among the candidates. *)
Definition stable_ranking (candidates ranking : list (chain_recommendation num))
  : Prop :=
  ranking ≡ₚ candidates ∧
  ∀ i j a b,
    i < j -> ranking !! i = Some a -> ranking !! j = Some b ->
    nleb (cr_avg_price a) (cr_avg_price b) = true ∧
    (nleb (cr_avg_price b) (cr_avg_price a) = true -> before a b candidates).

(** The chain whose price list a claim is appended to, and what is
    appended. *)
Definition priced_chain (dir : gmap string string) (c : claim num)
  : option string :=
  match resolved_chain dir c, c_price c with
  | Some chain, Some _ => Some chain
  | _, _ => None
  end.
Definition price_step (rc : gset string) (c : claim num) (prices : list num)
  : list num :=
  match c_price c with
  | Some price =>
      if claim_reverted rc c then append (nneg price) (append price prices)
      else append price prices
  | None => prices
  end.

(** The ndc [most_prescribed] files a claim under: none when the claim is
    reverted. *)
Definition ranking_key (rc : gset string) (c : claim num) : option string :=
  if claim_reverted rc c then None else c_ndc c.

End Groups.

(** ** Vocabulary of the faults *)

Section FaultVocabulary.
Context {num : Type} `{Number num}.

Definition present {A} (field : option A) : bool :=
  match field with Some _ => true | None => false end.

(** The first field, in the order in which they are read, that is not
    there. *)
Definition missing_field (reads : list (string * bool)) : option string :=
  fst <$> head (filter (fun r => r.2 = false) reads).

(** The fields [calculate_metrics] and [recommendations] read of a claim,
    in their order, and those [most_prescribed] reads. *)
Definition metrics_reads (c : claim num) : list (string * bool) :=
  [ ("npi", present (c_npi c)); ("ndc", present (c_ndc c));
    ("price", present (c_price c)); ("id", present (c_id c)) ].
Definition ranking_reads (c : claim num) : list (string * bool) :=
  [ ("npi", present (c_npi c)); ("ndc", present (c_ndc c));
    ("id", present (c_id c)) ].

(** The exception of a run: of the reversal set, which is built first, or
    of the first claim that lacks a field. *)
Definition first_fault (reads : claim num -> list (string * bool))
    (claims : list (claim num)) (reverts : list revert) : option exn :=
  if decide (Forall (fun r => is_Some (r_claim_id r)) reverts)
  then head (omap (fun c => KeyError <$> missing_field (reads c)) claims)
  else Some (KeyError "claim_id").

(** A run raises the exception, or returns when there is none. *)
Definition outcome {A} (run : result A) (fault : option exn) : Prop :=
  match fault with
  | Some e => run = Raise e
  | None => ∃ out, run = Ok out
  end.

End FaultVocabulary.

(** The keys of the claims of the three chains, as they are first met. *)
Definition keys_three_chains : list (string * string) :=
  [ ("p1", "d1"); ("p2", "d1"); ("p3", "d1"); ("p9", "d1") ].

(** Two drugs: the averages of the first are 3 and 1, the only fill of the
    second is a reverted one of infinite price, whose average is a NaN. *)
Definition claims_two_drugs : list (claim float) :=
  [ claim_of "c1" "p1" "d1" 3 30; claim_of "c2" "p2" "d1" 1 30;
    claim_of "c3" "p1" "d2" infinity 30 ]%float.

Definition reverts_two_drugs : list revert := [ revert_of "r1" "c3" ].

(** Two chains of equal revenue, the second of the directory met first. *)
Definition claims_tie : list (claim float) :=
  [ claim_of "c1" "p2" "d1" 5 30; claim_of "c2" "p1" "d1" 5 30;
    claim_of "c3" "p3" "d1" 7 30 ]%float.

Definition revenues_tie : list (string * float) :=
  [ ("ChainC", 7); ("ChainB", 5); ("ChainA", 5) ]%float.

(** The revenues of the three chains, the reverted fill left out. *)
Definition revenues_three_chains : list (string * float) :=
  [ ("ChainA", 3); ("ChainC", 2); ("ChainB", 1) ]%float.

(** ** The readers

    [read_claims] and [read_reverts] walk the events that [ijson.parse]
    yields for the files of a directory.  A file is given here by its name
    and by what its parser yields: the events, and whether the parser then
    raises, as it does at the end of a file that is empty or cut short and
    where the text is not JSON.  A directory is given by its listing in the
    order of [os.listdir].  An event carries the value of its kind: a
    string event a [str], a number event an [int] or a [Decimal], of which
    nothing but [float(value)] is used. *)

Inductive event {number : Type} : Type :=
  | ev_start_map
  | ev_end_map
  | ev_start_array
  | ev_end_array
  | ev_map_key (key : string)
  | ev_null
  | ev_boolean (b : bool)
  | ev_integer (value : number)
  | ev_double (value : number)
  | ev_number (value : number)
  | ev_string (value : string).
Arguments event : clear implicits.

Record json_file {number : Type} : Type := {
  file_name : string;
  file_events : list (string * event number);   (* (prefix, event and value) *)
  file_incomplete : bool;            (* the parser raises after the events *)
}.
Arguments json_file : clear implicits.

(** What a reader raises: the loop variable read before any [start_map]
    bound it, [float(value)] out of range, or the exception of the parser,
    [ijson.JSONError] or its subclass [IncompleteJSONError], which no
    reader catches. *)
Inductive read_exn : Type :=
  | UnboundLocalError (name : string)
  | OverflowError
  | JSONError.

Inductive reading (A : Type) : Type :=
  | Done (a : A)
  | Fail (e : read_exn).
Arguments Done {A} a.
Arguments Fail {A} e.

#[global] Instance reading_ret : MRet reading := fun _ a => Done a.
#[global] Instance reading_bind : MBind reading := fun _ _ f m =>
  match m with
  | Done a => f a
  | Fail e => Fail e
  end.

(** [for x in l: s = body(s, x)] in a reader. *)
Fixpoint read_each {S A} (body : S -> A -> reading S) (s : S) (l : list A)
  : reading S :=
  match l with
  | [] => Done s
  | x :: l' => s' ← body s x; read_each body s' l'
  end.

(** [s.endswith(suffix)] *)
Definition endswith (s suffix : string) : bool :=
  let n := String.length s in
  let m := String.length suffix in
  (m <=? n)%nat && String.eqb (String.substring (n - m) m s) suffix.

(** The dicts a reader has made, the one its loop variable is bound to, and
    the list it returns, which holds the dicts by reference: a dict that is
    assigned to after it was appended changes in the list as well. *)
Record reader {obj : Type} : Type := {
  objects : list obj;
  current : option nat;
  appended : list nat;
}.
Arguments reader : clear implicits.

Section Reader.
Context {obj : Type}.

Definition reader_init : reader obj :=
  {| objects := []; current := None; appended := [] |}.

(** [claim = {}] *)
Definition new_object (empty : obj) (st : reader obj) : reader obj :=
  {| objects := objects st ++ [empty];
     current := Some (length (objects st));
     appended := appended st |}.

(** [claim[k] = v], as the function [set] of the dict. *)
Definition assign (name : string) (set : obj -> obj) (st : reader obj)
  : reading (reader obj) :=
  match current st with
  | Some i =>
      Done {| objects := alter set i (objects st);
              current := Some i;
              appended := appended st |}
  | None => Fail (UnboundLocalError name)
  end.

(** [claims.append(claim)] *)
Definition append_current (name : string) (st : reader obj)
  : reading (reader obj) :=
  match current st with
  | Some i =>
      Done {| objects := objects st;
              current := Some i;
              appended := appended st ++ [i] |}
  | None => Fail (UnboundLocalError name)
  end.

(** The returned list. *)
Definition returned (st : reader obj) : list obj :=
  omap (fun i => objects st !! i) (appended st).

(** The loop over the events of one file, which ends with the exception
    of the parser when there is one. *)
Definition read_file {number : Type}
    (read_event : reader obj -> string * event number -> reading (reader obj))
    (st : reader obj) (file : json_file number) : reading (reader obj) :=
  st ← read_each read_event st (file_events file);
  if file_incomplete file then Fail JSONError else Done st.

(** The loop over the files of the listing whose name ends in [.json]. *)
Definition read_files {number : Type}
    (read_event : reader obj -> string * event number -> reading (reader obj))
    (listing : list (json_file number)) : reading (list obj) :=
  st ← read_each
         (fun st file =>
            if endswith (file_name file) ".json"
            then read_file read_event st file
            else Done st)
         reader_init listing;
  Done (returned st).

End Reader.

Section Readers.
Context {num : Type} `{Number num}.

(** [float(value)], which raises [OverflowError] on an [int] beyond the
    range of binary64. *)
Context {number : Type} (to_float : number -> option num).

Definition float_value (value : number) : reading num :=
  match to_float value with
  | Some x => Done x
  | None => Fail OverflowError
  end.

Definition empty_claim : claim num :=
  {| c_id := None; c_npi := None; c_ndc := None; c_price := None;
     c_quantity := None; c_timestamp := None |}.

Definition set_id (value : string) (c : claim num) : claim num :=
  {| c_id := Some value; c_npi := c_npi c; c_ndc := c_ndc c;
     c_price := c_price c; c_quantity := c_quantity c;
     c_timestamp := c_timestamp c |}.
Definition set_npi (value : string) (c : claim num) : claim num :=
  {| c_id := c_id c; c_npi := Some value; c_ndc := c_ndc c;
     c_price := c_price c; c_quantity := c_quantity c;
     c_timestamp := c_timestamp c |}.
Definition set_ndc (value : string) (c : claim num) : claim num :=
  {| c_id := c_id c; c_npi := c_npi c; c_ndc := Some value;
     c_price := c_price c; c_quantity := c_quantity c;
     c_timestamp := c_timestamp c |}.
Definition set_price (value : num) (c : claim num) : claim num :=
  {| c_id := c_id c; c_npi := c_npi c; c_ndc := c_ndc c;
     c_price := Some value; c_quantity := c_quantity c;
     c_timestamp := c_timestamp c |}.
Definition set_quantity (value : num) (c : claim num) : claim num :=
  {| c_id := c_id c; c_npi := c_npi c; c_ndc := c_ndc c;
     c_price := c_price c; c_quantity := Some value;
     c_timestamp := c_timestamp c |}.
Definition set_timestamp (value : string) (c : claim num) : claim num :=
  {| c_id := c_id c; c_npi := c_npi c; c_ndc := c_ndc c;
     c_price := c_price c; c_quantity := c_quantity c;
     c_timestamp := Some value |}.

(** The body of [for prefix, event, value in parser] in [read_claims]: the
    chain of tests on prefix and event, by the kind of the event.  In
    [claim['price'] = float(value)] the conversion comes before the
    variable is read. *)
Definition read_claims_event (st : reader (claim num))
    (pev : string * event number) : reading (reader (claim num)) :=
  let '(prefix, ev) := pev in
  match ev with
  | ev_start_map =>
      if decide (prefix = "item") then Done (new_object empty_claim st)
      else Done st
  | ev_string value =>
      if decide (prefix = "item.id") then assign "claim" (set_id value) st
      else if decide (prefix = "item.npi")
      then assign "claim" (set_npi value) st
      else if decide (prefix = "item.ndc")
      then assign "claim" (set_ndc value) st
      else if decide (prefix = "item.timestamp")
      then assign "claim" (set_timestamp value) st
      else Done st
  | ev_number value =>
      if decide (prefix = "item.price")
      then x ← float_value value; assign "claim" (set_price x) st
      else if decide (prefix = "item.quantity")
      then x ← float_value value; assign "claim" (set_quantity x) st
      else Done st
  | ev_end_map =>
      if decide (prefix = "item") then append_current "claim" st
      else Done st
  | _ => Done st
  end.

Definition read_claims (listing : list (json_file number))
  : reading (list (claim num)) :=
  read_files read_claims_event listing.

End Readers.

Definition empty_revert : revert :=
  {| r_id := None; r_claim_id := None; r_timestamp := None |}.

Definition set_revert_id (value : string) (r : revert) : revert :=
  {| r_id := Some value; r_claim_id := r_claim_id r;
     r_timestamp := r_timestamp r |}.
Definition set_claim_id (value : string) (r : revert) : revert :=
  {| r_id := r_id r; r_claim_id := Some value;
     r_timestamp := r_timestamp r |}.
Definition set_revert_timestamp (value : string) (r : revert) : revert :=
  {| r_id := r_id r; r_claim_id := r_claim_id r;
     r_timestamp := Some value |}.

(** The body of [for prefix, event, value in parser] in [read_reverts]. *)
Definition read_reverts_event {number : Type} (st : reader revert)
    (pev : string * event number) : reading (reader revert) :=
  let '(prefix, ev) := pev in
  match ev with
  | ev_start_map =>
      if decide (prefix = "item") then Done (new_object empty_revert st)
      else Done st
  | ev_string value =>
      if decide (prefix = "item.id")
      then assign "revert" (set_revert_id value) st
      else if decide (prefix = "item.claim_id")
      then assign "revert" (set_claim_id value) st
      else if decide (prefix = "item.timestamp")
      then assign "revert" (set_revert_timestamp value) st
      else Done st
  | ev_end_map =>
      if decide (prefix = "item") then append_current "revert" st
      else Done st
  | _ => Done st
  end.

Definition read_reverts {number : Type} (listing : list (json_file number))
  : reading (list revert) :=
  read_files read_reverts_event listing.

(** ** Vocabulary of the readers *)

Section ReaderVocabulary.
Context {number : Type}.

(** The events of an object of the top-level array, the object given by
    its members in their order, each a key and the event of its value. *)
Definition object_events (members : list (string * event number))
  : list (string * event number) :=
  ("item", ev_start_map) ::
  (members ≫= fun member =>
     [("item", ev_map_key member.1);
      (String.append "item." member.1, member.2)]) ++
  [("item", ev_end_map)].

(** The events of a top-level array of such objects, and a file of one. *)
Definition array_events (objs : list (list (string * event number)))
  : list (string * event number) :=
  ("", ev_start_array) :: (objs ≫= object_events) ++ [("", ev_end_array)].

Definition array_file (file : string * list (list (string * event number)))
  : json_file number :=
  {| file_name := file.1; file_events := array_events file.2;
     file_incomplete := false |}.

(** The objects of the files of a listing that are read. *)
Definition objects_read (files : list (string * list (list (string * event number))))
  : list (list (string * event number)) :=
  filter (fun file => endswith file.1 ".json" = true) files ≫= snd.

(** The last string, or number, that an object has at a key. *)
Definition string_member (key : string) (members : list (string * event number))
  : option string :=
  last (omap (fun member =>
                match member.2 with
                | ev_string value =>
                    if decide (member.1 = key) then Some value else None
                | _ => None
                end) members).
Definition number_member (key : string) (members : list (string * event number))
  : option number :=
  last (omap (fun member =>
                match member.2 with
                | ev_number value =>
                    if decide (member.1 = key) then Some value else None
                | _ => None
                end) members).

(** The revert of an object. *)
Definition revert_of_members (members : list (string * event number))
  : revert :=
  {| r_id := string_member "id" members;
     r_claim_id := string_member "claim_id" members;
     r_timestamp := string_member "timestamp" members |}.

(** The objects that have what the aggregators read, each of its kind. *)
Definition complete_claim (members : list (string * event number)) : Prop :=
  is_Some (string_member "id" members) ∧
  is_Some (string_member "npi" members) ∧
  is_Some (string_member "ndc" members) ∧
  is_Some (number_member "price" members).
Definition complete_revert (members : list (string * event number)) : Prop :=
  is_Some (string_member "claim_id" members).

Context {num : Type} (to_float : number -> option num).

(** The claim of an object, and the objects whose prices and quantities
    are numbers that [float] converts. *)
Definition claim_of_members (members : list (string * event number))
  : claim num :=
  {| c_id := string_member "id" members;
     c_npi := string_member "npi" members;
     c_ndc := string_member "ndc" members;
     c_price := number_member "price" members ≫= to_float;
     c_quantity := number_member "quantity" members ≫= to_float;
     c_timestamp := string_member "timestamp" members |}.

Definition convertible (members : list (string * event number)) : Prop :=
  Forall (fun member =>
            match member.2 with
            | ev_number value =>
                member.1 = "price" ∨ member.1 = "quantity" ->
                is_Some (to_float value)
            | _ => True
            end) members.

(** What the dispatch on a member of an object comes to: nothing, an
    assignment, or a conversion that fails. *)
Inductive member_effect (obj : Type) : Type :=
  | no_effect
  | assigns (set : obj -> obj)
  | overflows.

Definition object_of {obj} (effect : string * event number -> member_effect obj)
    (empty : obj) (members : list (string * event number)) : obj :=
  foldl (fun o member =>
           match effect member with
           | assigns _ set => set o
           | _ => o
           end) empty members.

Definition claim_effect (member : string * event number)
  : member_effect (claim num) :=
  match member.2 with
  | ev_string value =>
      if decide (member.1 = "id") then assigns _ (set_id value)
      else if decide (member.1 = "npi") then assigns _ (set_npi value)
      else if decide (member.1 = "ndc") then assigns _ (set_ndc value)
      else if decide (member.1 = "timestamp")
      then assigns _ (set_timestamp value)
      else no_effect _
  | ev_number value =>
      if decide (member.1 = "price")
      then match to_float value with
           | Some x => assigns _ (set_price x)
           | None => overflows _
           end
      else if decide (member.1 = "quantity")
      then match to_float value with
           | Some x => assigns _ (set_quantity x)
           | None => overflows _
           end
      else no_effect _
  | _ => no_effect _
  end.

Definition revert_effect (member : string * event number)
  : member_effect revert :=
  match member.2 with
  | ev_string value =>
      if decide (member.1 = "id") then assigns _ (set_revert_id value)
      else if decide (member.1 = "claim_id")
      then assigns _ (set_claim_id value)
      else if decide (member.1 = "timestamp")
      then assigns _ (set_revert_timestamp value)
      else no_effect _
  | _ => no_effect _
  end.

(** The dicts in the list are dicts that were made, and so is the one the
    variable is bound to. *)
Definition reader_valid {obj} (st : reader obj) : Prop :=
  Forall (fun i => i < length (objects st)) (appended st) ∧
  (∀ i, current st = Some i -> i < length (objects st)).

End ReaderVocabulary.

(** *** read_pharmacies

    A CSV file is given by its name and the rows that [csv.DictReader]
    yields for it: dicts from the names of the header to the fields of the
    row, [None] for a field that a short row does not have. *)

Record csv_file : Type := {
  csv_name : string;
  csv_rows : list (gmap string (option string));
}.

(** [pharmacy_chains[row['npi']] = row['chain']]: the right-hand side is
    evaluated first. *)
Definition read_pharmacies_row
    (pharmacy_chains : gmap (option string) (option string))
    (row : gmap string (option string))
  : result (gmap (option string) (option string)) :=
  chain ← subscript "chain" (row !! "chain");
  npi ← subscript "npi" (row !! "npi");
  Ok (<[npi := chain]> pharmacy_chains).

Definition read_pharmacies (listing : list csv_file)
  : result (gmap (option string) (option string)) :=
  for_each
    (fun pharmacy_chains file =>
       if endswith (csv_name file) ".csv"
       then for_each read_pharmacies_row pharmacy_chains (csv_rows file)
       else Ok pharmacy_chains)
    ∅ listing.

(** The rows of the files of a listing that are read, in their order. *)
Definition rows_read (listing : list csv_file)
  : list (gmap string (option string)) :=
  filter (fun file => endswith (csv_name file) ".csv" = true) listing
  ≫= csv_rows.

(** The chain a row gives to [npi]. *)
Definition row_chain (npi : option string) (row : gmap string (option string))
  : option (option string) :=
  if decide (row !! "npi" = Some npi) then row !! "chain" else None.


(** Two files of pharmacies and one that is not read. *)
Definition pharmacy_row (npi chain : string) : gmap string (option string) :=
  {[ "npi" := Some npi; "chain" := Some chain ]}.

Definition pharmacies_listing : list csv_file :=
  [ {| csv_name := "east.csv";
       csv_rows := [ pharmacy_row "p1" "ChainA"; pharmacy_row "p2" "ChainB" ] |};
    {| csv_name := "readme.md"; csv_rows := [ pharmacy_row "p2" "ChainX" ] |};
    {| csv_name := "west.csv";
       csv_rows := [ pharmacy_row "p1" "ChainC" ] |} ].

(** *** The readers without the heap *)

(** What the dispatch on an event comes to. *)
Inductive action (obj : Type) : Type :=
  | act_skip                       (* no test holds *)
  | act_new                        (* claim = {} *)
  | act_assign (set : obj -> obj)  (* claim[k] = v *)
  | act_append                     (* claims.append(claim) *)
  | act_overflow.                  (* float(value) raises *)
Arguments act_skip {obj}.
Arguments act_new {obj}.
Arguments act_assign {obj} set.
Arguments act_append {obj}.
Arguments act_overflow {obj}.

Definition run_action {obj} (empty : obj) (name : string) (a : action obj)
    (st : reader obj) : reading (reader obj) :=
  match a with
  | act_skip => Done st
  | act_new => Done (new_object empty st)
  | act_assign set => assign name set st
  | act_append => append_current name st
  | act_overflow => Fail OverflowError
  end.

Definition is_skip {obj} (a : action obj) : bool :=
  match a with act_skip => true | _ => false end.

(** The dict the variable is bound to, as often as it was appended. *)
Definition held {obj} (cur : option (obj * nat)) : list obj :=
  match cur with
  | Some (o, n) => replicate n o
  | None => []
  end.

(** The list a reader returns, dict by dict: a dict gets every assignment
    that is made before the next one is bound, those after it was appended
    as well, and is listed as often as it was appended. *)
Fixpoint by_value {obj} (empty : obj) (name : string)
    (cur : option (obj * nat)) (acts : list (action obj))
  : reading (list obj) :=
  match acts with
  | [] => Done (held cur)
  | a :: acts' =>
      match a, cur with
      | act_skip, _ => by_value empty name cur acts'
      | act_new, _ =>
          rest ← by_value empty name (Some (empty, 0)) acts';
          Done (held cur ++ rest)
      | act_assign set, Some (o, n) =>
          by_value empty name (Some (set o, n)) acts'
      | act_append, Some (o, n) => by_value empty name (Some (o, S n)) acts'
      | act_overflow, _ => Fail OverflowError
      | _, None => Fail (UnboundLocalError name)
      end
  end.

(** The events of the files of a listing that are read, in their order:
    those of the files whose name ends in [.json], up to the first of them
    whose parser raises; and whether there is such a file. *)
Fixpoint events_read {number} (listing : list (json_file number))
  : list (string * event number) :=
  match listing with
  | [] => []
  | file :: listing' =>
      if endswith (file_name file) ".json"
      then file_events file ++
           (if file_incomplete file then [] else events_read listing')
      else events_read listing'
  end.

Definition parse_fails {number} (listing : list (json_file number)) : bool :=
  existsb (fun file => endswith (file_name file) ".json" && file_incomplete file)
    listing.

(** A reader that comes to the end of the events raises the exception of
    the parser, when there is one. *)
Definition at_end_of {number A} (listing : list (json_file number))
    (run : reading A) : reading A :=
  a ← run; if parse_fails listing then Fail JSONError else Done a.

Definition reverts_action {number} (pev : string * event number)
  : action revert :=
  let '(prefix, ev) := pev in
  match ev with
  | ev_start_map => if decide (prefix = "item") then act_new else act_skip
  | ev_string value =>
      if decide (prefix = "item.id") then act_assign (set_revert_id value)
      else if decide (prefix = "item.claim_id")
      then act_assign (set_claim_id value)
      else if decide (prefix = "item.timestamp")
      then act_assign (set_revert_timestamp value)
      else act_skip
  | ev_end_map => if decide (prefix = "item") then act_append else act_skip
  | _ => act_skip
  end.

Definition claims_action {number num} (to_float : number -> option num)
    (pev : string * event number) : action (claim num) :=
  let '(prefix, ev) := pev in
  match ev with
  | ev_start_map => if decide (prefix = "item") then act_new else act_skip
  | ev_string value =>
      if decide (prefix = "item.id") then act_assign (set_id value)
      else if decide (prefix = "item.npi") then act_assign (set_npi value)
      else if decide (prefix = "item.ndc") then act_assign (set_ndc value)
      else if decide (prefix = "item.timestamp")
      then act_assign (set_timestamp value)
      else act_skip
  | ev_number value =>
      if decide (prefix = "item.price")
      then match to_float value with
           | Some x => act_assign (set_price x)
           | None => act_overflow
           end
      else if decide (prefix = "item.quantity")
      then match to_float value with
           | Some x => act_assign (set_quantity x)
           | None => act_overflow
           end
      else act_skip
  | ev_end_map => if decide (prefix = "item") then act_append else act_skip
  | _ => act_skip
  end.

(** A reader in a state that holds the dicts [done] and the bound one. *)
Definition holds {obj} (st : reader obj) (done : list obj)
    (cur : option (obj * nat)) : Prop :=
  match cur with
  | None => objects st = [] ∧ current st = None ∧ appended st = [] ∧ done = []
  | Some (o, n) =>
      ∃ os ap,
        objects st = os ++ [o] ∧ current st = Some (length os) ∧
        appended st = ap ++ replicate n (length os) ∧
        Forall (fun i => i < length os) ap ∧
        omap (fun i => os !! i) ap = done
  end.

(** [float(value)] of a Python int: the nearest binary64 number, ties to
    even, and [OverflowError] where that is beyond the finite ones. *)
Definition int_to_float (value : Z) : option float :=
  let x := SF2Prim (binary_normalize prec emax value 0 false) in
  if PrimFloat.is_infinity x then None else Some x.

(** A directory of two files, one of them not a JSON file, with the claim
    of the scenarios in the other; numbers are ints. *)

Definition files_c1 : list (string * list (list (string * event Z))) :=
  [ ("claims.json",
     [ [ ("id", ev_string "c1"); ("npi", ev_string "p1");
         ("ndc", ev_string "d1"); ("price", ev_number 10%Z);
         ("quantity", ev_number 30%Z); ("timestamp", ev_string "t") ] ]);
    ("notes.txt", [ [ ("id", ev_string "c2") ] ]) ].

Definition files_r1 : list (string * list (list (string * event Z))) :=
  [ ("reverts.json",
     [ [ ("id", ev_string "r1"); ("claim_id", ev_string "c1");
         ("timestamp", ev_string "t") ] ]) ].

(** The claim of the scenarios with its price written as a string. *)
Definition files_price_string
  : list (string * list (list (string * event Z))) :=
  [ ("claims.json",
     [ [ ("id", ev_string "c1"); ("npi", ev_string "p1");
         ("ndc", ev_string "d1"); ("price", ev_string "10.0");
         ("quantity", ev_number 30%Z) ] ]) ].

(** * Properties *)

(** ** Exceptions and loops *)

Lemma bind_Ok {A B} (m : result A) (f : A -> result B) b :
  m ≫= f = Ok b -> ∃ a, m = Ok a ∧ f a = Ok b.
Proof. destruct m as [a|e]; [eauto | discriminate]. Qed.

Lemma Ok_bind {A B} (a : A) (f : A -> result B) : Ok a ≫= f = f a.
Proof. done. Qed.

Lemma Some_bind {A B} (a : A) (f : A -> option B) : Some a ≫= f = f a.
Proof. done. Qed.

Lemma Raise_bind {A B} e (f : A -> result B) : Raise e ≫= f = Raise e.
Proof. done. Qed.

Lemma subscript_Ok {A} key (field : option A) a :
  subscript key field = Ok a -> field = Some a.
Proof. destruct field; [intros [= ->]; done | discriminate]. Qed.

(** Splits a successful run of binds and subscripts into its steps. *)
Ltac ok_steps :=
  repeat match goal with
  | H : _ ≫= _ = Ok _ |- _ =>
      let a := fresh "a" in
      let Ha := fresh "Ha" in
      apply bind_Ok in H as (a & Ha & H)
  | H : subscript _ _ = Ok _ |- _ => apply subscript_Ok in H
  | H : Ok _ = Ok _ |- _ => injection H as H
  end.

Lemma for_each_ext {S A} (body body' : S -> A -> result S) s l :
  (∀ s x, x ∈ l -> body s x = body' s x) ->
  for_each body s l = for_each body' s l.
Proof.
  revert s. induction l as [|x l IH]; intros s Hext; simpl; [done|].
  rewrite Hext by left. destruct (body' s x); simpl; [|done].
  apply IH. intros; apply Hext. by right.
Qed.

(** An invariant of the loop body holds after the loop. *)
Lemma for_each_invariant {S A} (P : S -> Prop) (body : S -> A -> result S) l :
  (∀ s x s', P s -> body s x = Ok s' -> P s') ->
  ∀ s s', P s -> for_each body s l = Ok s' -> P s'.
Proof.
  intros Hbody. induction l as [|x l IH]; intros s s' Hs Hrun; simpl in Hrun.
  - by injection Hrun as <-.
  - apply bind_Ok in Hrun as (s1 & Hx & Hrun). eauto.
Qed.

(** A loop whose body fails on one of the elements fails. *)
Lemma for_each_fails {S A} (Q : exn -> Prop) (body : S -> A -> result S) l x :
  x ∈ l ->
  (∀ s, ∃ e, body s x = Raise e ∧ Q e) ->
  (∀ s y e, body s y = Raise e -> Q e) ->
  ∀ s, ∃ e, for_each body s l = Raise e ∧ Q e.
Proof.
  intros Hx Hbad Hall. induction l as [|y l IH]; intros s; [by inv Hx|].
  simpl. destruct (body s y) as [s1|e] eqn:Hy; simpl.
  - inv Hx; [|by apply IH].
    destruct (Hbad s) as (e & He & _). congruence.
  - eauto.
Qed.

Lemma for_each_total {S A} (body : S -> A -> result S) l :
  Forall (fun x => ∀ s, ∃ s', body s x = Ok s') l ->
  ∀ s, ∃ s', for_each body s l = Ok s'.
Proof.
  induction 1 as [|x l Hx _ IH]; intros s; simpl; [eauto|].
  destruct (Hx s) as [s1 ->]. apply IH.
Qed.

Lemma comprehension_Ok {A B} (f : A -> result B) l ys :
  comprehension f l = Ok ys -> Forall2 (fun x y => f x = Ok y) l ys.
Proof.
  revert ys. induction l as [|x l IH]; intros ys Hrun; simpl in Hrun.
  - injection Hrun as <-. constructor.
  - ok_steps. subst ys. constructor; auto.
Qed.

Lemma comprehension_total {A B} (f : A -> result B) l :
  Forall (fun x => ∃ y, f x = Ok y) l -> ∃ ys, comprehension f l = Ok ys.
Proof.
  induction 1 as [|x l [y Hy] _ [ys Hys]]; simpl; [eauto|].
  rewrite Hy; simpl. rewrite Hys; simpl. eauto.
Qed.

(** ** Dicts *)

Section DictFacts.
Context {K V : Type} `{EqDecision K}.
Implicit Types (d : list (K * V)) (k : K) (v dflt : V) (f : V -> V).

Lemma dict_get_update d k dflt f :
  dict_get (dict_update d k dflt f) k = Some (f (default dflt (dict_get d k))).
Proof.
  induction d as [|[k' v] d IH]; csimpl.
  - by rewrite decide_True.
  - destruct (decide (k' = k)) as [->|Hne]; csimpl.
    + by rewrite decide_True.
    + by rewrite decide_False.
Qed.

Lemma dict_get_update_ne d k k' dflt f :
  k ≠ k' -> dict_get (dict_update d k dflt f) k' = dict_get d k'.
Proof.
  intros Hne. induction d as [|[k0 v] d IH]; csimpl.
  - by rewrite decide_False.
  - destruct (decide (k0 = k)) as [->|Hne0]; csimpl.
    + by rewrite !decide_False.
    + by rewrite IH.
Qed.

Lemma dict_update_keys d k dflt f :
  (dict_update d k dflt f).*1 =
  if decide (k ∈ d.*1) then d.*1 else d.*1 ++ [k].
Proof.
  induction d as [|[k' v] d IH]; csimpl.
  - done.
  - destruct (decide (k' = k)) as [->|Hne]; csimpl.
    + rewrite decide_True; [done | left].
    + rewrite IH. destruct (decide (k ∈ d.*1)) as [Hin|Hout].
      * rewrite decide_True; [done | by right].
      * rewrite decide_False; [done|]. by intros [->|?]%elem_of_cons.
Qed.

Lemma dict_update_NoDup d k dflt f :
  NoDup d.*1 -> NoDup (dict_update d k dflt f).*1.
Proof.
  intros Hd. rewrite dict_update_keys. case_decide; [done|].
  apply NoDup_app. split_and!; [done| |apply NoDup_singleton].
  intros x Hx ->%list_elem_of_singleton. done.
Qed.

Lemma dict_get_elem_of d k v : dict_get d k = Some v -> (k, v) ∈ d.
Proof.
  induction d as [|[k' v'] d IH]; simpl; [done|].
  case_decide; [intros [= ->]; subst; left | right; auto].
Qed.

Lemma elem_of_dict_get d k v : NoDup d.*1 -> (k, v) ∈ d -> dict_get d k = Some v.
Proof.
  induction d as [|[k' v'] d IH]; csimpl; intros Hd Hin; [by inv Hin|].
  apply NoDup_cons in Hd as [Hk' Hd].
  apply elem_of_cons in Hin as [[= -> ->]|Hin].
  - by rewrite decide_True.
  - rewrite decide_False; [auto|]. intros ->. apply Hk'.
    apply list_elem_of_fmap. by exists (k, v).
Qed.

(** An update that maps to an update under a projection of the values. *)
Lemma dict_update_project {W} (π : V -> W) d k dflt f (g : W -> W) :
  (∀ v, π (f v) = g (π v)) ->
  prod_map id π <$> dict_update d k dflt f =
  dict_update (prod_map id π <$> d) k (π dflt) g.
Proof.
  intros Hfg. induction d as [|[k' v] d IH]; csimpl.
  - by rewrite Hfg.
  - case_decide; csimpl; [by rewrite Hfg | by rewrite IH].
Qed.

Lemma dict_update_Forall (P : V -> Prop) d k dflt f :
  Forall (fun e => P e.2) d -> (∀ v, P v -> P (f v)) -> P (f dflt) ->
  Forall (fun e => P e.2) (dict_update d k dflt f).
Proof.
  intros Hd Hf Hdflt. induction Hd as [|[k' v] d Hv Hd IH]; csimpl.
  - by constructor.
  - case_decide; constructor; csimpl in *; auto.
Qed.

(** An update that adds [δ] to a measure that is zero on the default. *)
Lemma dict_update_sumZ (μ : V -> Z) (δ : Z) d k dflt f :
  μ dflt = 0%Z -> (∀ v, μ (f v) = (μ v + δ)%Z) ->
  sumZ ((fun e => μ e.2) <$> dict_update d k dflt f) =
  (sumZ ((fun e => μ e.2) <$> d) + δ)%Z.
Proof.
  intros Hdflt Hf. induction d as [|[k' v] d IH]; csimpl.
  - rewrite Hf, Hdflt. lia.
  - case_decide; csimpl; [rewrite Hf | rewrite IH]; lia.
Qed.

End DictFacts.

(** ** Numbers *)

Section NumberFacts.
Context {num : Type} `{Number num}.
Implicit Types (S : list num) (a b c : num).

Lemma total_preorder_on_spec S :
  total_preorder_on S = true ->
  (∀ a b, a ∈ S -> b ∈ S -> nltb a b = true -> nleb a b = true) ∧
  (∀ a b, a ∈ S -> b ∈ S -> nltb a b = false -> nleb b a = true) ∧
  (∀ a b c, a ∈ S -> b ∈ S -> c ∈ S ->
            nleb a b = true -> nleb b c = true -> nleb a c = true).
Proof.
  intros HS.
  assert (∀ a b c, a ∈ S -> b ∈ S -> c ∈ S ->
            implb (nltb a b) (nleb a b) = true ∧
            implb (negb (nltb a b)) (nleb b a) = true ∧
            implb (nleb a b && nleb b c) (nleb a c) = true) as Hall.
  { intros a b c Ha%list_elem_of_In Hb%list_elem_of_In Hc%list_elem_of_In.
    unfold total_preorder_on in HS. rewrite forallb_forall in HS.
    specialize (HS a Ha). rewrite forallb_forall in HS.
    specialize (HS b Hb).
    apply andb_true_iff in HS as [[H1 H2]%andb_true_iff H3].
    rewrite forallb_forall in H3. by specialize (H3 c Hc). }
  split_and!.
  - intros a b Ha Hb Hlt. destruct (Hall a b a) as (H1 & _ & _); [done..|].
    by rewrite Hlt in H1.
  - intros a b Ha Hb Hlt. destruct (Hall a b a) as (_ & H2 & _); [done..|].
    by rewrite Hlt in H2.
  - intros a b c Ha Hb Hc Hab Hbc.
    destruct (Hall a b c) as (_ & _ & H3); [done..|].
    by rewrite Hab, Hbc in H3.
Qed.

Lemma equivalence_on_spec S :
  equivalence_on S = true ->
  (∀ a, a ∈ S -> neqb a a = true) ∧
  (∀ a b, a ∈ S -> b ∈ S -> neqb a b = true -> neqb b a = true) ∧
  (∀ a b c, a ∈ S -> b ∈ S -> c ∈ S ->
            neqb a b = true -> neqb b c = true -> neqb a c = true).
Proof.
  intros HS.
  assert (∀ a b c, a ∈ S -> b ∈ S -> c ∈ S ->
            neqb a a = true ∧ implb (neqb a b) (neqb b a) = true ∧
            implb (neqb a b && neqb b c) (neqb a c) = true) as Hall.
  { intros a b c Ha%list_elem_of_In Hb%list_elem_of_In Hc%list_elem_of_In.
    unfold equivalence_on in HS. rewrite forallb_forall in HS.
    specialize (HS a Ha). apply andb_true_iff in HS as [H1 HS].
    rewrite forallb_forall in HS. specialize (HS b Hb).
    apply andb_true_iff in HS as [H2 H3].
    rewrite forallb_forall in H3. by specialize (H3 c Hc). }
  split_and!.
  - intros a Ha. by destruct (Hall a a a) as (H1 & _ & _).
  - intros a b Ha Hb Hab. destruct (Hall a b a) as (_ & H2 & _); [done..|].
    by rewrite Hab in H2.
  - intros a b c Ha Hb Hc Hab Hbc.
    destruct (Hall a b c) as (_ & _ & H3); [done..|].
    by rewrite Hab, Hbc in H3.
Qed.

(** Numbers that keep the laws everywhere keep them on every list. *)
Lemma NumberOrder_total_preorder_on `{!NumberOrder num} S :
  total_preorder_on S = true.
Proof.
  unfold total_preorder_on. apply forallb_forall. intros a _.
  apply forallb_forall. intros b _. apply andb_true_iff. split.
  - apply andb_true_iff. split.
    + destruct (nltb a b) eqn:Hlt; [|done]. by apply nltb_nleb.
    + destruct (nltb a b) eqn:Hlt; [done|]. by apply nleb_total.
  - apply forallb_forall. intros c _.
    destruct (nleb a b) eqn:Hab, (nleb b c) eqn:Hbc; try done.
    simpl. by apply (nleb_trans a b c).
Qed.

Lemma NumberEq_equivalence_on `{!NumberEq num} S : equivalence_on S = true.
Proof.
  unfold equivalence_on. apply forallb_forall. intros a _.
  apply andb_true_iff. split; [apply neqb_refl|].
  apply forallb_forall. intros b _. apply andb_true_iff. split.
  - destruct (neqb a b) eqn:Hab; [|done]. by apply neqb_sym.
  - apply forallb_forall. intros c _.
    destruct (neqb a b) eqn:Hab, (neqb b c) eqn:Hbc; try done.
    simpl. by apply (neqb_trans a b c).
Qed.

End NumberFacts.

#[global] Instance exactQ_order : NumberOrder Q.
Proof.
  split; simpl.
  - intros a b Hlt. apply Qle_bool_iff, Qlt_le_weak, Qnot_le_lt.
    intros Hle%Qle_bool_iff. by rewrite Hle in Hlt.
  - intros a b Hlt. by apply negb_false_iff in Hlt.
  - intros a b c Hab%Qle_bool_iff Hbc%Qle_bool_iff.
    apply Qle_bool_iff. by apply Qle_trans with b.
Qed.

#[global] Instance exactQ_eq : NumberEq Q.
Proof.
  split; simpl.
  - intros a. by apply Qeq_bool_iff.
  - intros a b Hab%Qeq_bool_iff. by apply Qeq_bool_iff, Qeq_sym.
  - intros a b c Hab%Qeq_bool_iff Hbc%Qeq_bool_iff.
    apply Qeq_bool_iff. by apply Qeq_trans with b.
Qed.

(** ** Order within a list *)

Section Before.
Context {A : Type}.
Implicit Types (l : list A) (a b : A).

Lemma lookup_before l i j a b :
  i < j -> l !! i = Some a -> l !! j = Some b -> before a b l.
Proof.
  unfold before. revert i j.
  induction l as [|x l IH]; intros i j Hij Hi Hj; [done|].
  destruct j as [|j]; [lia|]. destruct i as [|i]; simpl in *.
  - injection Hi as ->. apply sublist_skip, singleton_sublist_l.
    by eapply list_elem_of_lookup_2.
  - apply sublist_cons. apply (IH i j); [lia|done..].
Qed.

Lemma before_snoc l x a b :
  before a b (l ++ [x]) -> before a b l ∨ (b = x ∧ a ∈ l).
Proof.
  unfold before. intros (k1 & k2 & Hk & H1 & H2)%sublist_app_r.
  destruct k2 as [|y k2].
  - rewrite app_nil_r in Hk. subst k1. by left.
  - assert (k2 = [] ∧ y = x) as [-> ->].
    { inv H2; [|by match goal with H : _ `sublist_of` [] |- _ =>
                     apply sublist_nil_r in H end].
      match goal with H : _ `sublist_of` [] |- _ =>
        apply sublist_nil_r in H end. done. }
    destruct k1 as [|a' [|b' [|c' k1]]]; simplify_eq/=.
    right. split; [done|]. by apply singleton_sublist_l.
Qed.

Lemma filter_sublist_mono (P : A -> Prop) `{!∀ x, Decision (P x)} l1 l2 :
  l1 `sublist_of` l2 -> filter P l1 `sublist_of` filter P l2.
Proof.
  induction 1 as [|x l1 l2 _ IH|x l1 l2 _ IH]; [done|..];
    rewrite ?filter_cons; repeat case_decide;
    auto using sublist_skip, sublist_cons; done.
Qed.

Lemma filter_none (P : A -> Prop) `{!∀ x, Decision (P x)} l :
  Forall (fun x => ¬ P x) l -> filter P l = [].
Proof.
  induction 1 as [|x l Hx _ IH]; [done|]. by rewrite filter_cons_False.
Qed.

Lemma StronglySorted_before (R : relation A) l a b :
  StronglySorted R l -> before a b l -> R a b.
Proof.
  unfold before. induction 1 as [|x l _ IH Hx]; intros Hab.
  - by apply sublist_nil_r in Hab.
  - inv Hab; [|auto].
    eapply Forall_forall; [done|]. by apply singleton_sublist_l.
Qed.

End Before.

(** ** Sorting *)

Section SortFacts.
Context {A K : Type} (lt le : K -> K -> bool) (key : A -> K).

(** The keys that are compared; among them [lt] and [le] are a total
    preorder and its strict part. *)
Context (comparable : K -> Prop).
Hypothesis lt_le :
  ∀ a b, comparable a -> comparable b -> lt a b = true -> le a b = true.
Hypothesis le_total :
  ∀ a b, comparable a -> comparable b -> lt a b = false -> le b a = true.
Hypothesis le_trans :
  ∀ a b c, comparable a -> comparable b -> comparable c ->
           le a b = true -> le b c = true -> le a c = true.
Hypothesis lt_strict :
  ∀ a b, comparable a -> comparable b -> lt a b = true -> le b a = false.

#[local] Abbreviation key_le := (key_le le key).
#[local] Abbreviation same_key := (same_key le key).
#[local] Abbreviation comparable_keys := (comparable_keys key comparable).

Lemma insert_by_Permutation x l : insert_by lt key x l ≡ₚ x :: l.
Proof.
  induction l as [|y l IH]; simpl; [done|].
  destruct (lt (key x) (key y)); [done|]. by rewrite IH, Permutation_swap.
Qed.

Lemma sort_by_from_Permutation sorted l :
  foldl (fun sorted x => insert_by lt key x sorted) sorted l ≡ₚ sorted ++ l.
Proof.
  revert sorted. induction l as [|x l IH]; intros sorted; simpl.
  - by rewrite app_nil_r.
  - rewrite IH, insert_by_Permutation. apply Permutation_middle.
Qed.

Lemma sort_by_Permutation l : sort_by lt key l ≡ₚ l.
Proof. apply sort_by_from_Permutation. Qed.

Lemma insert_by_comparable x l :
  comparable (key x) -> comparable_keys l ->
  comparable_keys (insert_by lt key x l).
Proof.
  intros Hx Hl. unfold comparable_keys.
  rewrite insert_by_Permutation. by constructor.
Qed.

Lemma le_refl a : comparable a -> le a a = true.
Proof. intros Ha. destruct (lt a a) eqn:Hlt; auto. Qed.

Lemma insert_by_sorted x l :
  comparable (key x) -> comparable_keys l ->
  StronglySorted key_le l -> StronglySorted key_le (insert_by lt key x l).
Proof.
  intros Hx Hc Hl. induction Hl as [|y l Hl IH Hy]; simpl.
  - repeat constructor.
  - apply Forall_cons in Hc as [Hcy Hc].
    destruct (lt (key x) (key y)) eqn:Hlt.
    + constructor; [by constructor|].
      apply lt_le in Hlt; [|done..]. constructor; [done|].
      apply Forall_forall. intros z Hz. unfold key_le.
      apply (le_trans _ (key y)); [done..| |done|].
      * by eapply Forall_forall in Hc.
      * by eapply Forall_forall in Hy.
    + constructor; [auto|].
      rewrite insert_by_Permutation. constructor; [|done].
      by apply le_total.
Qed.

Lemma sort_by_from_sorted sorted l :
  comparable_keys sorted -> comparable_keys l ->
  StronglySorted key_le sorted ->
  StronglySorted key_le
    (foldl (fun sorted x => insert_by lt key x sorted) sorted l).
Proof.
  revert sorted.
  induction l as [|x l IH]; intros sorted Hcs Hcl Hs; simpl; [done|].
  apply Forall_cons in Hcl as [Hx Hcl].
  apply IH; [by apply insert_by_comparable | done | by apply insert_by_sorted].
Qed.

Lemma sort_by_sorted l :
  comparable_keys l -> StronglySorted key_le (sort_by lt key l).
Proof. intros Hl. apply sort_by_from_sorted; [constructor | done | constructor]. Qed.

(** Stability: the elements of one key keep their order. *)
Lemma insert_by_stable k x l :
  comparable k -> comparable (key x) -> comparable_keys l ->
  StronglySorted key_le l ->
  filter (same_key k) (insert_by lt key x l) =
  filter (same_key k) l ++ filter (same_key k) [x].
Proof.
  intros Hk Hcx Hc Hl. induction Hl as [|y l Hl IH Hy]; simpl; [done|].
  apply Forall_cons in Hc as [Hcy Hc].
  destruct (lt (key x) (key y)) eqn:Hlt.
  - rewrite (filter_cons _ x). rewrite (filter_cons _ x []).
    destruct (decide (same_key k x)) as [[Hx1 Hx2]|Hx]; [|by rewrite app_nil_r].
    assert (filter (same_key k) (y :: l) = []) as ->; [|done].
    apply lt_strict in Hlt; [|done..].
    assert (∀ z, comparable (key z) -> key_le y z -> ¬ same_key k z) as Hnot.
    { intros z Hcz Hyz [Hz1 Hz2].
      assert (le (key y) (key x) = true); [|congruence].
      apply (le_trans _ (key z)); [done..|].
      by apply (le_trans _ k). }
    rewrite filter_cons, decide_False by (apply Hnot; [done|by apply le_refl]).
    apply filter_none, Forall_forall. intros z Hz. apply Hnot.
    + by eapply Forall_forall in Hc.
    + by eapply Forall_forall in Hy.
  - rewrite !(filter_cons _ y). rewrite IH by done. by case_decide.
Qed.

Lemma sort_by_from_stable k sorted l :
  comparable k -> comparable_keys sorted -> comparable_keys l ->
  StronglySorted key_le sorted ->
  filter (same_key k)
    (foldl (fun sorted x => insert_by lt key x sorted) sorted l) =
  filter (same_key k) sorted ++ filter (same_key k) l.
Proof.
  intros Hk. revert sorted.
  induction l as [|x l IH]; intros sorted Hcs Hcl Hs; simpl.
  - by rewrite app_nil_r.
  - apply Forall_cons in Hcl as [Hx Hcl].
    rewrite IH by auto using insert_by_comparable, insert_by_sorted.
    rewrite insert_by_stable by done.
    change (x :: l) with ([x] ++ l). by rewrite filter_app, app_assoc.
Qed.

Lemma sort_by_stable k l :
  comparable k -> comparable_keys l ->
  filter (same_key k) (sort_by lt key l) = filter (same_key k) l.
Proof.
  intros Hk Hl. apply (sort_by_from_stable k []); [done| |done|]; constructor.
Qed.

Lemma sort_by_before a b l :
  comparable_keys l -> a ∈ l ->
  before a b (sort_by lt key l) -> same_key (key a) b -> before a b l.
Proof.
  unfold before. intros Hl Ha Hab Hkey.
  assert (comparable (key a)) as Hca by by eapply Forall_forall in Hl.
  apply (filter_sublist_mono (same_key (key a))) in Hab.
  rewrite sort_by_stable in Hab by done.
  rewrite filter_cons_True in Hab by (split; by apply le_refl).
  rewrite filter_cons_True in Hab by done.
  etrans; [done|]. apply sublist_filter.
Qed.

End SortFacts.

(** ** calculate_metrics *)

Lemma size_intersection_fresh (X Y : gset string) (x : string) :
  x ∉ Y ->
  size (X ∩ ({[x]} ∪ Y)) =
  if bool_decide (x ∈ X) then S (size (X ∩ Y)) else size (X ∩ Y).
Proof.
  intros Hx. case_bool_decide as HX.
  - assert (X ∩ ({[x]} ∪ Y) = {[x]} ∪ X ∩ Y) as ->.
    { apply set_eq. intros y.
      rewrite elem_of_intersection, !elem_of_union, elem_of_intersection,
        elem_of_singleton.
      intuition (subst; auto). }
    rewrite size_union, size_singleton; [done|].
    intros y ->%elem_of_singleton [_ ?]%elem_of_intersection. done.
  - f_equal. apply set_eq. intros y.
    rewrite !elem_of_intersection, elem_of_union, elem_of_singleton.
    intuition (subst; auto); done.
Qed.

Section MetricsFacts.
Context {num : Type} `{Number num}.
Implicit Types (c : claim num) (m : list (string * string * metric num)).

Lemma dict_update_fuse {K V} `{EqDecision K} (d : list (K * V)) k dflt f g :
  dict_update (dict_update d k dflt f) k dflt g =
  dict_update d k dflt (fun v => g (f v)).
Proof.
  induction d as [|[k' v] d IH]; simpl.
  - by rewrite decide_True.
  - case_decide; simpl; [by rewrite decide_True | by rewrite decide_False, IH].
Qed.

Lemma metrics_body_Ok rc m c m' :
  metrics_body rc m c = Ok m' ->
  ∃ npi ndc price id,
    c_npi c = Some npi ∧ c_ndc c = Some ndc ∧ c_price c = Some price ∧
    c_id c = Some id ∧
    m' = dict_update m (npi, ndc) metric_default
           (count_claim price (bool_decide (id ∈ rc))).
Proof.
  unfold metrics_body. intros Hrun. ok_steps.
  eexists _, _, _, _. split_and!; [done..|].
  case_decide; rewrite ?bool_decide_eq_true_2, ?bool_decide_eq_false_2 by done;
    ok_steps; subst m'; by rewrite !dict_update_fuse.
Qed.

Lemma metrics_body_total rc m c :
  has_metrics_fields c -> ∃ m', metrics_body rc m c = Ok m'.
Proof.
  intros ([npi Hnpi] & [ndc Hndc] & [price Hprice] & [id Hid]).
  unfold metrics_body. rewrite Hnpi, Hndc, Hprice, Hid; simpl.
  case_decide; eauto.
Qed.

Lemma calculate_metrics_Ok (claims : list (claim num)) reverts recs :
  calculate_metrics claims reverts = Ok recs ->
  ∃ rc m, reverted_claims reverts = Ok rc ∧
          for_each (metrics_body rc) [] claims = Ok m ∧
          recs = metric_output <$> m.
Proof. unfold calculate_metrics. intros Hrun. ok_steps. eauto. Qed.

Lemma metrics_loop_counted rc claims m m' :
  Forall (fun e => metric_counted e.2) m ->
  for_each (metrics_body rc) m claims = Ok m' ->
  Forall (fun e => metric_counted e.2) m'.
Proof.
  apply (for_each_invariant (Forall (fun e => metric_counted e.2))).
  clear. intros m c m' Hm (npi & ndc & price & id & _ & _ & _ & _ & ->)%metrics_body_Ok.
  apply dict_update_Forall; [done|..]; unfold metric_counted, count_claim;
    simpl; [intros v|]; case_bool_decide; lia.
Qed.

Lemma metrics_loop_sums rc claims m m' :
  for_each (metrics_body rc) m claims = Ok m' ->
  sumZ ((fun e => fills e.2) <$> m') =
    (sumZ ((fun e => fills e.2) <$> m) + Z.of_nat (length claims))%Z ∧
  sumZ ((fun e => reverted e.2) <$> m') =
    (sumZ ((fun e => reverted e.2) <$> m) +
     Z.of_nat (length (filter (fun c => claim_reverted rc c = true) claims)))%Z.
Proof.
  revert m. induction claims as [|c claims IH]; intros m Hrun; simpl in Hrun.
  - injection Hrun as <-. simpl. lia.
  - apply bind_Ok in Hrun as (m1 & Hc & Hrun).
    apply IH in Hrun as [-> ->].
    apply metrics_body_Ok in Hc
      as (npi & ndc & price & id & _ & _ & _ & Hid & ->).
    rewrite (dict_update_sumZ fills 1) by done.
    rewrite (dict_update_sumZ reverted
               (if bool_decide (id ∈ rc) then 1 else 0))
      by (try intros v; simpl; try case_bool_decide; lia).
    assert (claim_reverted rc c = bool_decide (id ∈ rc)) as Hrev
      by (unfold claim_reverted; by rewrite Hid).
    rewrite filter_cons, Hrev.
    destruct (bool_decide (id ∈ rc)); simpl; lia.
Qed.

(** With unique claim ids, the claims that are reverted are as many as the
    reverted ids that some claim has. *)
Lemma reverted_count rc (claims : list (claim num)) :
  NoDup (c_id <$> claims) ->
  length (filter (fun c => claim_reverted rc c = true) claims) =
  size (rc ∩ list_to_set (omap c_id claims)).
Proof.
  induction claims as [|c claims IH]; csimpl; intros Hids.
  - by rewrite intersection_empty_r_L, size_empty.
  - apply NoDup_cons in Hids as [Hc Hids]. specialize (IH Hids).
    rewrite filter_cons.
    destruct (c_id c) as [id|] eqn:Hid.
    + assert (claim_reverted rc c = bool_decide (id ∈ rc)) as ->
        by (unfold claim_reverted; by rewrite Hid).
      assert (id ∉ omap c_id claims) as Hfresh.
      { intros (c' & Hin & Hc')%list_elem_of_omap. apply Hc.
        apply list_elem_of_fmap. eauto. }
      rewrite list_to_set_cons, size_intersection_fresh
        by by rewrite elem_of_list_to_set.
      destruct (bool_decide (id ∈ rc)); simpl; by rewrite IH.
    + assert (claim_reverted rc c = false) as ->
        by (unfold claim_reverted; by rewrite Hid).
      by rewrite decide_False.
Qed.

Lemma metrics_loop_any_reverts rc rc0 claims m m0 m' :
  prod_map id fills_and_total <$> m = prod_map id fills_and_total <$> m0 ->
  for_each (metrics_body rc) m claims = Ok m' ->
  ∃ m0', for_each (metrics_body rc0) m0 claims = Ok m0' ∧
         prod_map id fills_and_total <$> m' =
         prod_map id fills_and_total <$> m0'.
Proof.
  revert m m0. induction claims as [|c claims IH]; intros m m0 Hm Hrun;
    simpl in *.
  - injection Hrun as <-. eauto.
  - apply bind_Ok in Hrun as (m1 & Hc & Hrun).
    destruct (metrics_body_total rc0 m0 c) as [m1' Hc'].
    { apply metrics_body_Ok in Hc as (?&?&?&?&?&?&?&?&_).
      unfold has_metrics_fields; eauto 10. }
    rewrite Hc'; simpl. apply (IH m1); [|done].
    apply metrics_body_Ok in Hc as (npi & ndc & price & cid & ? & ? & ? & ? & ->).
    apply metrics_body_Ok in Hc'
      as (npi' & ndc' & price' & cid' & ? & ? & ? & ? & ->).
    simplify_eq.
    pose (g := fun w : Z * num => ((w.1 + 1)%Z, nadd w.2 price)).
    rewrite !(dict_update_project fills_and_total _ _ _ _ g) by done.
    by rewrite Hm.
Qed.

Lemma without_reverted_outputs m :
  without_reverted <$> (metric_output <$> m) =
  output_without_reverted <$> (prod_map id fills_and_total <$> m).
Proof.
  rewrite <-!list_fmap_compose. apply list_fmap_ext.
  by intros _ [[npi ndc] v] _.
Qed.

End MetricsFacts.

(** ** The reversal set *)

Lemma reverted_claims_Ok reverts rc :
  reverted_claims reverts = Ok rc ->
  rc = list_to_set (omap r_claim_id reverts).
Proof.
  unfold reverted_claims. intros Hrun. ok_steps. subst rc. f_equal.
  apply comprehension_Ok in Ha. clear -Ha.
  induction Ha as [|r id reverts ids Hr _ IH]; [done|].
  apply subscript_Ok in Hr. csimpl. by rewrite Hr, IH.
Qed.

Lemma reverted_claims_total reverts :
  Forall (fun r => is_Some (r_claim_id r)) reverts ->
  ∃ rc, reverted_claims reverts = Ok rc.
Proof.
  intros Hall. unfold reverted_claims.
  destruct (comprehension_total
              (fun r => subscript "claim_id" (r_claim_id r)) reverts)
    as [ids ->]; [|simpl; eauto].
  eapply Forall_impl; [done|]. intros r [id ->]. simpl. eauto.
Qed.

(** The only fault of the reversal set is a revert without a claim id. *)
Lemma reverted_claims_cases reverts :
  (Forall (fun r => is_Some (r_claim_id r)) reverts ∧
   reverted_claims reverts = Ok (list_to_set (omap r_claim_id reverts))) ∨
  (¬ Forall (fun r => is_Some (r_claim_id r)) reverts ∧
   reverted_claims reverts = Raise (KeyError "claim_id")).
Proof.
  unfold reverted_claims. induction reverts as [|r reverts IH]; csimpl.
  - left. split; [constructor | done].
  - destruct (r_claim_id r) as [id|] eqn:Hid; simpl.
    + destruct IH as [[Hall IH]|[Hnot IH]].
      * left. split; [constructor; eauto|].
        destruct (comprehension _ reverts) as [ids|e]; simpl in *;
          [injection IH as IH | discriminate].
        by rewrite IH.
      * right. split; [by intros [_ ?]%Forall_cons|].
        by destruct (comprehension _ reverts) as [ids|e]; simpl in *.
    + right. split; [|done]. intros [[? Hr] _]%Forall_cons. congruence.
Qed.

Section RevertsAsSet.
Context {num : Type} `{Number num}.

Lemma reverts_as_set_intro {A} (claims : list (claim num))
    (G : gset string -> result A) :
  (∀ rc rc', agree_on_claims claims rc rc' -> G rc = G rc') ->
  reverts_as_set claims (fun reverts => rc ← reverted_claims reverts; G rc).
Proof.
  intros HG. split_and!.
  - intros r reverts Hr.
    destruct (reverted_claims_cases (r :: reverts)) as [[Hall ->]|[Hnot ->]],
      (reverted_claims_cases reverts) as [[Hall' ->]|[Hnot' ->]];
      rewrite ?Ok_bind, ?Raise_bind.
    + apply HG. intros id _. rewrite !elem_of_list_to_set.
      rewrite !list_elem_of_omap. split.
      * intros (r' & [->|Hin]%elem_of_cons & Hid); eauto.
      * intros (r' & ? & ?). exists r'. split; [by right | done].
    + by inv Hall.
    + destruct Hnot. constructor; [|done].
      eapply Forall_forall in Hall'; eauto.
    + done.
  - intros reverts reverts' Hperm.
    destruct (reverted_claims_cases reverts) as [[Hall ->]|[Hnot ->]],
      (reverted_claims_cases reverts') as [[Hall' ->]|[Hnot' ->]];
      rewrite ?Ok_bind, ?Raise_bind.
    + by rewrite Hperm.
    + by rewrite Hperm in Hall.
    + by rewrite <-Hperm in Hall'.
    + done.
  - intros r id reverts Hid Hfresh.
    destruct (reverted_claims_cases (r :: reverts)) as [[Hall ->]|[Hnot ->]],
      (reverted_claims_cases reverts) as [[Hall' ->]|[Hnot' ->]];
      rewrite ?Ok_bind, ?Raise_bind.
    + apply HG. intros id' Hin. csimpl. rewrite Hid, list_to_set_cons.
      rewrite elem_of_union, elem_of_singleton.
      split; [intros [->|?]; done | auto].
    + by inv Hall.
    + destruct Hnot. constructor; [by rewrite Hid | done].
    + done.
Qed.

Lemma claim_id_agree (claims : list (claim num)) rc rc' (c : claim num) id :
  agree_on_claims claims rc rc' -> c ∈ claims -> c_id c = Some id ->
  id ∈ rc ↔ id ∈ rc'.
Proof.
  intros Hagree Hc Hid. apply Hagree. rewrite <-Hid.
  by apply list_elem_of_fmap_2.
Qed.

Lemma metrics_body_agree claims rc rc' m (c : claim num) :
  agree_on_claims claims rc rc' -> c ∈ claims ->
  metrics_body rc m c = metrics_body rc' m c.
Proof.
  intros Hagree Hc. unfold metrics_body.
  destruct (c_npi c), (c_ndc c), (c_price c), (c_id c) as [id|] eqn:Hid;
    simpl; try done.
  pose proof (claim_id_agree _ _ _ _ _ Hagree Hc Hid).
  repeat case_decide; tauto.
Qed.

Lemma recommendations_body_agree claims rc rc' dir g (c : claim num) :
  agree_on_claims claims rc rc' -> c ∈ claims ->
  recommendations_body rc dir g c = recommendations_body rc' dir g c.
Proof.
  intros Hagree Hc. unfold recommendations_body.
  destruct (c_npi c), (c_ndc c), (c_price c), (c_id c) as [id|] eqn:Hid;
    simpl; try done.
  pose proof (claim_id_agree _ _ _ _ _ Hagree Hc Hid).
  repeat case_decide; tauto.
Qed.

Lemma most_prescribed_body_agree claims rc rc' d (c : claim num) :
  agree_on_claims claims rc rc' -> c ∈ claims ->
  most_prescribed_body rc d c = most_prescribed_body rc' d c.
Proof.
  intros Hagree Hc. unfold most_prescribed_body.
  destruct (c_npi c), (c_ndc c), (c_id c) as [id|] eqn:Hid; simpl; try done.
  pose proof (claim_id_agree _ _ _ _ _ Hagree Hc Hid).
  repeat case_decide; tauto.
Qed.

End RevertsAsSet.

(** ** recommendations *)

Lemma extended_app {A} (entry : option (list A)) l1 l2 :
  extended (extended entry l1) l2 = extended entry (l1 ++ l2).
Proof.
  destruct l1 as [|x l1]; [done|]. destruct l2 as [|y l2]; simpl.
  - by rewrite app_nil_r.
  - by rewrite <-app_assoc.
Qed.

Lemma extended_None_Some {A} (l prices : list A) :
  extended None l = Some prices -> prices = l ∧ l ≠ [].
Proof. destruct l; [done|]. by intros [= <-]. Qed.

Section RecommendationsFacts.
Context {num : Type} `{Number num}.
Implicit Types (c : claim num) (rc : gset string)
  (dir : gmap string string)
  (g : list (string * list (string * list num))).

Lemma price_list_append_price g ndc chain price ndc' chain' :
  price_list (append_price ndc chain price g) ndc' chain' =
  if decide (ndc' = ndc ∧ chain' = chain)
  then extended (price_list g ndc chain) [price]
  else price_list g ndc' chain'.
Proof.
  unfold price_list, append_price.
  destruct (decide (ndc' = ndc)) as [->|Hndc].
  - rewrite dict_get_update, Some_bind.
    destruct (decide (chain' = chain)) as [->|Hchain].
    + rewrite decide_True by done. rewrite dict_get_update. simpl.
      by destruct (dict_get g ndc).
    + rewrite decide_False by (by intros [_ ?]).
      rewrite dict_get_update_ne by done. by destruct (dict_get g ndc).
  - rewrite decide_False by (by intros [? _]).
    by rewrite dict_get_update_ne.
Qed.

Lemma append_price_unique_keys g ndc chain price :
  unique_keys g -> unique_keys (append_price ndc chain price g).
Proof.
  intros [Houter Hinner]. split.
  - by apply dict_update_NoDup.
  - apply (dict_update_Forall (fun cm => NoDup cm.*1)); [done|..].
    + intros cm Hcm. by apply dict_update_NoDup.
    + apply dict_update_NoDup. constructor.
Qed.

Lemma price_list_elem_of g ndc cm chain prices :
  unique_keys g -> (ndc, cm) ∈ g -> (chain, prices) ∈ cm ->
  price_list g ndc chain = Some prices.
Proof.
  intros [Houter Hinner] Hcm Hprices. unfold price_list.
  rewrite (elem_of_dict_get g ndc cm) by done. simpl.
  apply elem_of_dict_get; [|done].
  by eapply Forall_forall in Hinner; [|done].
Qed.

Lemma prices_of_cons rc dir ndc chain c claims :
  prices_of rc dir ndc chain (c :: claims) =
  claim_samples rc dir ndc chain c ++ prices_of rc dir ndc chain claims.
Proof.
  unfold prices_of, claim_samples. rewrite filter_cons.
  by case_decide.
Qed.

Lemma recommendations_body_Ok rc dir g c g' :
  recommendations_body rc dir g c = Ok g' ->
  ∃ npi ndc price cid,
    c_npi c = Some npi ∧ c_ndc c = Some ndc ∧ c_price c = Some price ∧
    c_id c = Some cid ∧
    let chain := default "Unknown" (dir !! npi) in
    g' = if bool_decide (cid ∈ rc)
         then append_price ndc chain (nneg price)
                (append_price ndc chain price g)
         else append_price ndc chain price g.
Proof.
  unfold recommendations_body. intros Hrun. ok_steps.
  eexists _, _, _, _. split_and!; [done..|].
  simpl. case_decide; rewrite ?bool_decide_eq_true_2, ?bool_decide_eq_false_2
    by done; by ok_steps.
Qed.

Lemma recommendations_body_total rc dir g c :
  has_metrics_fields c -> ∃ g', recommendations_body rc dir g c = Ok g'.
Proof.
  intros ([npi Hnpi] & [ndc Hndc] & [price Hprice] & [cid Hid]).
  unfold recommendations_body. rewrite Hnpi, Hndc, Hprice, Hid; simpl.
  case_decide; eauto.
Qed.

Lemma recommendations_body_Raise rc dir g c e :
  recommendations_body rc dir g c = Raise e -> ∃ k, e = KeyError k.
Proof.
  unfold recommendations_body.
  destruct (c_npi c), (c_ndc c), (c_price c), (c_id c); simpl;
    try case_decide; intros [=]; eauto.
Qed.

Lemma recommendations_body_price_list rc dir g c g' ndc chain :
  recommendations_body rc dir g c = Ok g' ->
  price_list g' ndc chain =
  extended (price_list g ndc chain) (claim_samples rc dir ndc chain c).
Proof.
  intros (npi & ndc' & price & cid & Hnpi & Hndc & Hprice & Hid & Hg')
    %recommendations_body_Ok.
  cbv zeta in Hg'. unfold claim_samples, resolved_chain, price_samples,
    claim_reverted. rewrite Hnpi, Hndc, Hprice, Hid. simpl.
  set (chain' := default "Unknown" (dir !! npi)) in *.
  destruct (decide (ndc = ndc' ∧ chain = chain')) as [[-> ->]|Hne].
  - rewrite decide_True by done. subst g'. case_bool_decide.
    + rewrite !price_list_append_price, !decide_True by done.
      by rewrite extended_app.
    + by rewrite price_list_append_price, decide_True.
  - rewrite decide_False by (intros [[= ->] [= ->]]; by destruct Hne).
    subst g'. case_bool_decide;
      by rewrite !price_list_append_price, !decide_False.
Qed.

Lemma recommendations_body_unique_keys rc dir g c g' :
  unique_keys g -> recommendations_body rc dir g c = Ok g' -> unique_keys g'.
Proof.
  intros Hg (npi & ndc & price & cid & _ & _ & _ & _ & ->)
    %recommendations_body_Ok.
  cbv zeta. case_bool_decide; auto using append_price_unique_keys.
Qed.

(** The first loop: every price list is the one the claims determine. *)
Lemma ndc_metrics_loop_price_list rc dir claims g g' ndc chain :
  for_each (recommendations_body rc dir) g claims = Ok g' ->
  price_list g' ndc chain =
  extended (price_list g ndc chain) (prices_of rc dir ndc chain claims).
Proof.
  revert g. induction claims as [|c claims IH]; intros g Hrun; simpl in Hrun.
  - by injection Hrun as <-.
  - apply bind_Ok in Hrun as (g1 & Hc & Hrun).
    rewrite (IH g1 Hrun), prices_of_cons, <-extended_app.
    by rewrite (recommendations_body_price_list _ _ _ _ _ _ _ Hc).
Qed.

Lemma ndc_metrics_price_list rc dir claims g ndc cm chain prices :
  ndc_metrics claims rc dir = Ok g ->
  (ndc, cm) ∈ g -> (chain, prices) ∈ cm ->
  prices = prices_of rc dir ndc chain claims ∧ prices ≠ [].
Proof.
  unfold ndc_metrics. intros Hrun Hcm Hprices.
  assert (unique_keys g) as Hkeys.
  { revert Hrun. apply (for_each_invariant unique_keys).
    - intros ???. apply recommendations_body_unique_keys.
    - split; constructor. }
  pose proof (price_list_elem_of g ndc cm chain prices Hkeys Hcm Hprices)
    as Hlist.
  rewrite (ndc_metrics_loop_price_list rc dir claims [] g ndc chain Hrun)
    in Hlist.
  by apply extended_None_Some in Hlist as [-> ?].
Qed.

Lemma ndc_metrics_total rc dir claims :
  Forall has_metrics_fields claims -> ∃ g, ndc_metrics claims rc dir = Ok g.
Proof.
  intros Hall. apply for_each_total. eapply Forall_impl; [done|].
  intros c Hc g. by apply recommendations_body_total.
Qed.

Lemma for_each_Raise {S A} (body : S -> A -> result S) s l e :
  for_each body s l = Raise e -> ∃ s' x, x ∈ l ∧ body s' x = Raise e.
Proof.
  revert s. induction l as [|x l IH]; intros s; simpl; [done|].
  destruct (body s x) as [s1|e'] eqn:Hx; simpl.
  - intros (s' & y & ? & ?)%IH. exists s', y. split; [by right | done].
  - intros [= ->]. exists s, x. split; [left | done].
Qed.

Lemma Forall2_elem_of_r {A B} (R : A -> B -> Prop) l k y :
  Forall2 R l k -> y ∈ k -> ∃ x, x ∈ l ∧ R x y.
Proof.
  induction 1 as [|x y' l k Hxy _ IH]; intros Hy; [by inv Hy|].
  apply elem_of_cons in Hy as [->|Hy].
  - exists x. split; [left | done].
  - destruct (IH Hy) as (x' & ? & ?). exists x'. split; [by right | done].
Qed.

Lemma average_Ok prices avg :
  average prices = Ok avg ->
  prices ≠ [] ∧
  avg = ndiv (sum prices) (of_int (Z.of_nat (length prices))).
Proof.
  unfold average. case_decide as Hlen; [done|]. intros [= <-].
  split; [|done]. by intros ->.
Qed.

Lemma average_total prices :
  prices ≠ [] ->
  average prices = Ok (ndiv (sum prices) (of_int (Z.of_nat (length prices)))).
Proof.
  intros Hne. unfold average. rewrite decide_False; [done|].
  destruct prices; [done | simpl; lia].
Qed.

Lemma chain_averages_Ok cm avgs :
  chain_averages cm = Ok avgs -> Forall2 chain_average cm avgs.
Proof.
  intros Hrun%comprehension_Ok. eapply Forall2_impl; [done|].
  intros [chain prices] cr Hcr. ok_steps. subst cr.
  by apply average_Ok in Ha as [? ->].
Qed.

Lemma chain_averages_total cm :
  Forall (fun e => e.2 ≠ []) cm -> ∃ avgs, chain_averages cm = Ok avgs.
Proof.
  intros Hcm. apply comprehension_total. eapply Forall_impl; [done|].
  intros [chain prices] Hne. rewrite average_total by done. simpl. eauto.
Qed.

Lemma ndc_output_Ok e o :
  ndc_output e = Ok o ->
  ∃ avgs, Forall2 chain_average e.2 avgs ∧ rec_ndc o = e.1 ∧
          rec_chain o = take 2 (sort_by nltb cr_avg_price avgs).
Proof.
  destruct e as [ndc cm]. unfold ndc_output. intros Hrun. ok_steps.
  subst o. eauto using chain_averages_Ok.
Qed.

Lemma recommendations_Ok claims reverts dir out :
  recommendations claims reverts dir = Ok out ->
  ∃ g, reverted_claims reverts = Ok (list_to_set (omap r_claim_id reverts)) ∧
       ndc_metrics claims (list_to_set (omap r_claim_id reverts)) dir = Ok g ∧
       Forall2 (fun e o => ndc_output e = Ok o) g out.
Proof.
  unfold recommendations. intros Hrun. ok_steps.
  apply reverted_claims_Ok in Ha as Hrc. subst a.
  eauto using comprehension_Ok.
Qed.

(** The second loop cannot fail after the first. *)
Lemma recommendations_output_total rc dir claims g :
  ndc_metrics claims rc dir = Ok g -> ∃ out, comprehension ndc_output g = Ok out.
Proof.
  intros Hg. apply comprehension_total, Forall_forall.
  intros [ndc cm] Hcm. unfold ndc_output.
  destruct (chain_averages_total cm) as [avgs ->]; [|simpl; eauto].
  apply Forall_forall. intros [chain prices] Hprices.
  by eapply ndc_metrics_price_list.
Qed.

(** Every chain of the output, with the price list it averages. *)
Lemma recommendations_chain claims reverts dir out o cr :
  recommendations claims reverts dir = Ok out ->
  o ∈ out -> cr ∈ rec_chain o ->
  let prices := prices_of (list_to_set (omap r_claim_id reverts)) dir
                  (rec_ndc o) (cr_name cr) claims in
  prices ≠ [] ∧
  cr_avg_price cr = ndiv (sum prices) (of_int (Z.of_nat (length prices))).
Proof.
  intros (g & _ & Hg & Hout)%recommendations_Ok Ho Hcr prices. subst prices.
  destruct (Forall2_elem_of_r _ _ _ _ Hout Ho) as ([ndc cm] & Hcm & Hocm).
  apply ndc_output_Ok in Hocm as (avgs & Havgs & -> & Hchain). simpl in *.
  rewrite Hchain in Hcr.
  assert (cr ∈ sort_by nltb cr_avg_price avgs) as Hcr'
    by (eapply elem_of_sublist; [done | apply sublist_take]).
  rewrite sort_by_Permutation in Hcr'.
  destruct (Forall2_elem_of_r _ _ _ _ Havgs Hcr')
    as ([chain prices] & Hprices & Hne & -> & ->). simpl in *.
  by destruct (ndc_metrics_price_list _ _ _ _ _ _ _ _ Hg Hcm Hprices) as [<- _].
Qed.

End RecommendationsFacts.

(** ** Counting and ranking quantities *)

Section CounterFacts.
Context {num : Type} `{Number num}.

(** The numbers that are counted; among them [==] is an equivalence. *)
Context (known : num -> Prop).
Hypothesis known_refl : ∀ a, known a -> neqb a a = true.
Hypothesis known_sym :
  ∀ a b, known a -> known b -> neqb a b = true -> neqb b a = true.
Hypothesis known_trans :
  ∀ a b c, known a -> known b -> known c ->
           neqb a b = true -> neqb b c = true -> neqb a c = true.

Implicit Types (q k x a b : num) (l D : list num).

Lemma neqb_comm a b : known a -> known b -> neqb a b = neqb b a.
Proof.
  intros Ha Hb. destruct (neqb a b) eqn:Hab, (neqb b a) eqn:Hba; try done.
  - apply known_sym in Hab; [congruence | done..].
  - apply known_sym in Hba; [congruence | done..].
Qed.

Lemma neqb_congr a b q :
  known a -> known b -> known q -> neqb a b = true -> neqb q a = neqb q b.
Proof.
  intros Ha Hb Hq Hab.
  destruct (neqb q a) eqn:Hqa, (neqb q b) eqn:Hqb; try done.
  - rewrite (known_trans q a b) in Hqb; done.
  - rewrite (known_trans q b a) in Hqa; [done..|]. by apply known_sym.
Qed.

Lemma encountered_true q l :
  encountered q l = true ↔ ∃ k, k ∈ l ∧ neqb k q = true.
Proof.
  unfold encountered. rewrite existsb_exists.
  split; intros (k & Hk & Hq); exists k; by rewrite list_elem_of_In in *.
Qed.

Lemma encountered_false q l k :
  encountered q l = false -> k ∈ l -> neqb k q = false.
Proof.
  intros Hq Hk. destruct (neqb k q) eqn:Hkq; [|done].
  rewrite <-Hq. symmetry. apply encountered_true. eauto.
Qed.

Lemma encountered_app q l l' :
  encountered q (l ++ l') = encountered q l || encountered q l'.
Proof. apply existsb_app. Qed.

Lemma encountered_congr a b l :
  known a -> known b -> Forall known l ->
  neqb a b = true -> encountered a l = encountered b l.
Proof.
  intros Ha Hb Hl Hab. induction Hl as [|x l Hx _ IH]; simpl; [done|].
  by rewrite IH, (neqb_congr a b x).
Qed.

Lemma frequency_cons q x l :
  frequency q (x :: l) = ((if neqb x q then 1 else 0) + frequency q l)%Z.
Proof.
  unfold frequency. rewrite filter_cons.
  destruct (neqb x q); simpl length; lia.
Qed.

Lemma frequency_snoc q l x :
  frequency q (l ++ [x]) = (frequency q l + if neqb x q then 1 else 0)%Z.
Proof.
  induction l as [|y l IH]; simpl.
  - rewrite !frequency_cons. unfold frequency. simpl. lia.
  - rewrite !frequency_cons, IH. lia.
Qed.

Lemma frequency_congr a b l :
  known a -> known b -> Forall known l ->
  neqb a b = true -> frequency a l = frequency b l.
Proof.
  intros Ha Hb Hl Hab. induction Hl as [|x l Hx _ IH]; [done|].
  by rewrite !frequency_cons, IH, (neqb_congr a b x).
Qed.

Lemma frequency_unencountered q l :
  encountered q l = false -> frequency q l = 0%Z.
Proof.
  induction l as [|x l IH]; [done|]. simpl.
  intros [Hx Hl]%orb_false_iff. by rewrite frequency_cons, Hx, IH.
Qed.

Lemma first_seen_congr a b l :
  known a -> known b -> Forall known l ->
  neqb a b = true -> first_seen a l = first_seen b l.
Proof.
  intros Ha Hb Hl Hab. induction Hl as [|x l Hx _ IH]; simpl; [done|].
  by rewrite IH, (neqb_congr a b x).
Qed.

Lemma first_seen_Some q l m :
  first_seen q l = Some m -> m < length l.
Proof.
  revert m. induction l as [|x l IH]; intros m; simpl; [done|].
  destruct (neqb x q); [intros [= <-]; lia|].
  destruct (first_seen q l) as [n|]; [|done].
  intros [= <-]. specialize (IH n eq_refl). lia.
Qed.

Lemma first_seen_encountered q l :
  encountered q l = true -> is_Some (first_seen q l).
Proof.
  induction l as [|x l IH]; simpl; [done|].
  destruct (neqb x q); simpl; [eauto|].
  intros [n ->]%IH. simpl. eauto.
Qed.

Lemma first_seen_unencountered q l :
  encountered q l = false -> first_seen q l = None.
Proof.
  induction l as [|x l IH]; simpl; [done|].
  destruct (neqb x q); simpl; [done|]. by intros ->%IH.
Qed.

Lemma first_seen_app_l q l l' m :
  first_seen q l = Some m -> first_seen q (l ++ l') = Some m.
Proof.
  revert m. induction l as [|x l IH]; intros m; simpl; [done|].
  destruct (neqb x q); [done|].
  destruct (first_seen q l) as [n|]; [|done].
  intros [= <-]. by rewrite (IH n).
Qed.

Lemma first_seen_app_r q l l' :
  first_seen q l = None ->
  first_seen q (l ++ l') = (fun n => length l + n) <$> first_seen q l'.
Proof.
  induction l as [|x l IH]; simpl.
  - intros _. by destruct (first_seen q l').
  - destruct (neqb x q); [done|].
    destruct (first_seen q l) as [n|]; [done|]. intros _.
    rewrite IH by done. by destruct (first_seen q l').
Qed.

Lemma first_encounters_snoc l x :
  first_encounters (l ++ [x]) =
  if encountered x (first_encounters l) then first_encounters l
  else first_encounters l ++ [x].
Proof. unfold first_encounters. by rewrite foldl_snoc. Qed.

Lemma first_encounters_subseteq l k : k ∈ first_encounters l -> k ∈ l.
Proof.
  induction l as [|x l IH] using rev_ind; [done|].
  rewrite first_encounters_snoc, elem_of_app.
  destruct (encountered x (first_encounters l)).
  - auto.
  - intros [?|?]%elem_of_app; auto.
Qed.

Lemma first_encounters_known l :
  Forall known l -> Forall known (first_encounters l).
Proof.
  rewrite !Forall_forall. intros Hl k Hk.
  by apply Hl, first_encounters_subseteq.
Qed.

Lemma first_encounters_encountered l q :
  Forall known l -> known q ->
  encountered q (first_encounters l) = encountered q l.
Proof.
  intros Hl Hq. induction l as [|x l IH] using rev_ind; [done|].
  apply Forall_app in Hl as [Hl [Hx _]%Forall_cons]. specialize (IH Hl).
  rewrite first_encounters_snoc, encountered_app. simpl. rewrite orb_false_r.
  destruct (encountered x (first_encounters l)) eqn:Hxl.
  - rewrite IH. destruct (neqb x q) eqn:Hxq; [|by rewrite orb_false_r].
    rewrite orb_true_r, <-IH, <-(encountered_congr x q);
      auto using first_encounters_known.
  - by rewrite encountered_app, IH; simpl; rewrite orb_false_r.
Qed.

(** The first encounters come in the order of their first positions. *)
Lemma first_encounters_order l a b :
  Forall known l ->
  before a b (first_encounters l) ->
  ∃ m n, first_seen a l = Some m ∧ first_seen b l = Some n ∧ m < n.
Proof.
  intros Hl. induction l as [|x l IH] using rev_ind.
  { intros Hab. by apply sublist_nil_r in Hab. }
  apply Forall_app in Hl as [Hl [Hx _]%Forall_cons]. specialize (IH Hl).
  rewrite first_encounters_snoc. intros Hab.
  assert (before a b (first_encounters l) ->
          ∃ m n, first_seen a (l ++ [x]) = Some m ∧
                 first_seen b (l ++ [x]) = Some n ∧ m < n) as Hold.
  { intros (m & n & Ha & Hb & Hmn)%IH. exists m, n.
    by rewrite (first_seen_app_l a l [x] m), (first_seen_app_l b l [x] n). }
  destruct (encountered x (first_encounters l)) eqn:Hxl; [auto|].
  apply before_snoc in Hab as [?|[-> Ha]]; [auto|].
  apply first_encounters_subseteq in Ha as Hal.
  assert (known a) as Hka by (by eapply Forall_forall in Hl).
  destruct (first_seen_encountered a l) as [m Hm].
  { apply encountered_true. exists a. split; [done | by apply known_refl]. }
  exists m, (length l + 0). split_and!.
  - by apply first_seen_app_l.
  - rewrite first_encounters_encountered in Hxl by done.
    rewrite first_seen_app_r by by apply first_seen_unencountered.
    simpl. by rewrite known_refl.
  - apply first_seen_Some in Hm. lia.
Qed.

Lemma first_encounters_distinct l a b :
  Forall known l -> before a b (first_encounters l) -> neqb a b = false.
Proof.
  intros Hl Hab.
  assert (known a ∧ known b) as [Ha Hb].
  { split; eapply Forall_forall; try exact Hl;
      apply first_encounters_subseteq; eapply elem_of_sublist; try exact Hab;
      [left | right; left]. }
  apply first_encounters_order in Hab as (m & n & Hm & Hn & Hmn); [|done].
  destruct (neqb a b) eqn:Hab; [|done].
  rewrite (first_seen_congr a b) in Hm by done. simplify_eq. lia.
Qed.

Lemma count_elem_counted F D x :
  Forall known D -> known x ->
  (∀ a b, before a b D -> neqb a b = false) ->
  count_elem x (counted F D) =
  if encountered x D
  then counted (fun q => (F q + if neqb x q then 1 else 0)%Z) D
  else counted F D ++ [(x, 1%Z)].
Proof.
  unfold counted. intros HD Hx.
  induction HD as [|k D Hk HD IH]; intros Hdistinct; csimpl; [done|].
  destruct (neqb k x) eqn:Hkx; simpl.
  - rewrite (neqb_comm x k), Hkx by done. f_equal. apply list_fmap_ext.
    intros _ q Hq%list_elem_of_lookup_2. f_equal.
    assert (known q) as Hkq by (by eapply Forall_forall in HD).
    assert (neqb x q = false) as ->; [|lia].
    rewrite (neqb_comm x q), <-(neqb_congr k x q), (neqb_comm q k) by done.
    apply Hdistinct. by apply sublist_skip, singleton_sublist_l.
  - rewrite (neqb_comm x k), Hkx, Z.add_0_r by done.
    rewrite IH by (intros a b Hab; by apply Hdistinct, sublist_cons).
    by destruct (encountered x D).
Qed.

Lemma Counter_snoc l x : Counter (l ++ [x]) = count_elem x (Counter l).
Proof. unfold Counter. by rewrite foldl_snoc. Qed.

(** The counter holds the first encounters with their frequencies. *)
Lemma Counter_counted l :
  Forall known l ->
  Counter l = counted (fun q => frequency q l) (first_encounters l).
Proof.
  intros Hl. induction l as [|x l IH] using rev_ind; [done|].
  apply Forall_app in Hl as [Hl [Hx _]%Forall_cons].
  rewrite Counter_snoc, IH, first_encounters_snoc by done.
  rewrite count_elem_counted;
    [|by apply first_encounters_known|done
     |intros a b; by apply first_encounters_distinct].
  unfold counted.
  destruct (encountered x (first_encounters l)) eqn:Hxl.
  - apply list_fmap_ext. intros _ q _. by rewrite frequency_snoc.
  - rewrite fmap_app. simpl. f_equal.
    + apply list_fmap_ext. intros _ q Hq%list_elem_of_lookup_2.
      assert (known q) as Hkq.
      { eapply Forall_forall; [by apply first_encounters_known | done]. }
      rewrite frequency_snoc, (neqb_comm x q) by done.
      by rewrite (encountered_false x _ q Hxl Hq), Z.add_0_r.
    + rewrite frequency_snoc, known_refl by done.
      rewrite first_encounters_encountered in Hxl by done.
      by rewrite (frequency_unencountered x l).
Qed.

Lemma Counter_keys l : Forall known l -> (Counter l).*1 = first_encounters l.
Proof.
  intros Hl. rewrite Counter_counted by done. unfold counted.
  rewrite <-list_fmap_compose. apply list_fmap_id.
Qed.

Lemma Counter_elem_of l q n :
  Forall known l -> (q, n) ∈ Counter l -> n = frequency q l.
Proof.
  intros Hl. rewrite Counter_counted by done. unfold counted.
  by intros (k & [= -> ->] & _)%list_elem_of_fmap.
Qed.

Lemma most_common_Permutation (counts : list (num * Z)) :
  most_common counts ≡ₚ counts.
Proof. apply sort_by_Permutation. Qed.

Lemma most_common_sorted (counts : list (num * Z)) :
  StronglySorted (key_le count_ge snd) (most_common counts).
Proof.
  apply (sort_by_sorted _ count_ge snd (fun _ => True));
    [unfold count_ge; intros *;
     rewrite ?Z.ltb_lt, ?Z.ltb_ge, ?Z.leb_le; lia..|].
  by apply Forall_true.
Qed.

Lemma most_common_before (counts : list (num * Z)) e e' :
  before e e' (most_common counts) -> e.2 = e'.2 -> before e e' counts.
Proof.
  intros Hbefore Hcount.
  apply (sort_by_before (fun m n : Z => (n <? m)%Z) count_ge snd
           (fun _ => True));
    [unfold count_ge; intros *;
     rewrite ?Z.ltb_lt, ?Z.ltb_ge, ?Z.leb_le, ?Z.leb_gt; lia..
    |by apply Forall_true| |done|].
  - rewrite <-most_common_Permutation.
    eapply elem_of_sublist; [|exact Hbefore]. left.
  - unfold same_key, count_ge. rewrite !Z.leb_le. lia.
Qed.

(** The ranking that [most_prescribed] makes of a list of quantities. *)
Lemma most_common_ranked l :
  Forall known l -> ranked l (most_common (Counter l)).*1.
Proof.
  intros Hl.
  assert (∀ q, q ∈ (most_common (Counter l)).*1 -> known q) as Hknown.
  { intros q. rewrite most_common_Permutation, Counter_keys by done.
    intros Hq%first_encounters_subseteq. by eapply Forall_forall in Hl. }
  assert (∀ i j a b,
             i < j -> (most_common (Counter l)).*1 !! i = Some a ->
             (most_common (Counter l)).*1 !! j = Some b ->
             ∃ e e', e.1 = a ∧ e'.1 = b ∧ e.2 = frequency a l ∧
                     e'.2 = frequency b l ∧
                     before e e' (most_common (Counter l))) as Hpos.
  { intros i j a b Hij Hi Hj.
    apply list_lookup_fmap_Some in Hi as ([a' n] & -> & Hi).
    apply list_lookup_fmap_Some in Hj as ([b' n'] & -> & Hj).
    exists (a', n), (b', n'). split_and!; [done..| | |by eapply lookup_before];
      apply Counter_elem_of; [done| |done|];
      rewrite <-most_common_Permutation;
      by eapply list_elem_of_lookup_2. }
  assert (∀ i j a b,
             i < j -> (most_common (Counter l)).*1 !! i = Some a ->
             (most_common (Counter l)).*1 !! j = Some b ->
             frequency a l = frequency b l ->
             ∃ m n, first_seen a l = Some m ∧ first_seen b l = Some n ∧ m < n)
    as Hties.
  { intros i j a b Hij Hi Hj Hfreq.
    destruct (Hpos i j a b) as (e & e' & <- & <- & He & He' & Hbefore);
      [done..|].
    apply first_encounters_order; [done|]. rewrite <-Counter_keys by done.
    apply most_common_before in Hbefore; [|congruence].
    by apply (fmap_sublist fst) in Hbefore. }
  split_and!.
  - intros q. rewrite most_common_Permutation, Counter_keys by done.
    apply first_encounters_subseteq.
  - intros q Hq.
    assert (known q) as Hkq by (by eapply Forall_forall in Hl).
    assert (encountered q (first_encounters l) = true) as Hk.
    { rewrite first_encounters_encountered by done. apply encountered_true.
      exists q. split; [done | by apply known_refl]. }
    apply encountered_true in Hk as (k & Hk & Hkq'). exists k.
    by rewrite most_common_Permutation, Counter_keys.
  - intros i j a b Hij Hi Hj.
    assert (known a ∧ known b) as [Ha Hb]
      by (split; apply Hknown; by eapply list_elem_of_lookup_2).
    split_and!; [| |by eapply Hties].
    + destruct (neqb a b) eqn:Hab; [|done].
      destruct (Hties i j a b) as (m & n & Hm & Hn & Hmn); [done..| |].
      { by apply frequency_congr. }
      rewrite (first_seen_congr a b) in Hm by done. simplify_eq. lia.
    + destruct (Hpos i j a b) as (e & e' & _ & _ & <- & <- & Hbefore);
        [done..|].
      eapply StronglySorted_before in Hbefore; [|apply most_common_sorted].
      unfold key_le, count_ge in Hbefore. lia.
Qed.

End CounterFacts.

(** ** most_prescribed *)

Section MostPrescribedFacts.
Context {num : Type} `{Number num}.
Implicit Types (c : claim num) (rc : gset string)
  (d : list (string * list num)).

Lemma most_prescribed_body_Ok rc d c d' :
  most_prescribed_body rc d c = Ok d' ->
  ∃ npi ndc cid,
    c_npi c = Some npi ∧ c_ndc c = Some ndc ∧ c_id c = Some cid ∧
    d' = if bool_decide (cid ∈ rc) then d
         else dict_update d ndc [] (append (claim_quantity c)).
Proof.
  unfold most_prescribed_body. intros Hrun. ok_steps.
  eexists _, _, _. split_and!; [done..|].
  case_decide; rewrite ?bool_decide_eq_true_2, ?bool_decide_eq_false_2
    by tauto; by ok_steps.
Qed.

Lemma most_prescribed_body_total rc d c :
  has_ranking_fields c -> ∃ d', most_prescribed_body rc d c = Ok d'.
Proof.
  intros ([npi Hnpi] & [ndc Hndc] & [cid Hid]).
  unfold most_prescribed_body. rewrite Hnpi, Hndc, Hid; simpl.
  case_decide; eauto.
Qed.

Lemma quantities_of_cons rc ndc c claims :
  quantities_of rc ndc (c :: claims) =
  (if decide (c_ndc c = Some ndc ∧ claim_reverted rc c = false)
   then [claim_quantity c] else []) ++ quantities_of rc ndc claims.
Proof. unfold quantities_of. rewrite filter_cons. by case_decide. Qed.

Lemma most_prescribed_body_get rc d c d' ndc :
  most_prescribed_body rc d c = Ok d' ->
  dict_get d' ndc =
  extended (dict_get d ndc)
    (if decide (c_ndc c = Some ndc ∧ claim_reverted rc c = false)
     then [claim_quantity c] else []).
Proof.
  intros (npi & ndc' & cid & _ & Hndc & Hid & ->)%most_prescribed_body_Ok.
  unfold claim_reverted. rewrite Hndc, Hid.
  case_bool_decide.
  - by rewrite decide_False by (by intros [_ ?]).
  - destruct (decide (ndc' = ndc)) as [->|Hne].
    + rewrite decide_True by done. by rewrite dict_get_update.
    + rewrite decide_False by (intros [[= ?] _]; done).
      by rewrite dict_get_update_ne.
Qed.

Lemma ndc_quantities_loop_get rc claims d d' ndc :
  for_each (most_prescribed_body rc) d claims = Ok d' ->
  dict_get d' ndc = extended (dict_get d ndc) (quantities_of rc ndc claims).
Proof.
  revert d. induction claims as [|c claims IH]; intros d Hrun; simpl in Hrun.
  - by injection Hrun as <-.
  - apply bind_Ok in Hrun as (d1 & Hc & Hrun).
    rewrite (IH d1 Hrun), quantities_of_cons, <-extended_app.
    by rewrite (most_prescribed_body_get _ _ _ _ _ Hc).
Qed.

(** The first loop: every list is the one the claims determine. *)
Lemma ndc_quantities_elem_of rc claims d ndc quantities :
  ndc_quantities claims rc = Ok d -> (ndc, quantities) ∈ d ->
  quantities = quantities_of rc ndc claims.
Proof.
  unfold ndc_quantities. intros Hrun Hin.
  assert (NoDup d.*1) as Hkeys.
  { revert Hrun. apply (for_each_invariant (fun d => NoDup d.*1)).
    - intros d0 c d1 Hd0 (npi & ndc' & cid & _ & _ & _ & ->)
        %most_prescribed_body_Ok.
      case_bool_decide; [done | by apply dict_update_NoDup].
    - constructor. }
  apply (elem_of_dict_get _ _ _ Hkeys) in Hin.
  rewrite (ndc_quantities_loop_get rc claims [] d ndc Hrun) in Hin.
  by apply extended_None_Some in Hin as [-> _].
Qed.

(** The reverted claims leave the loop's state as it is. *)
Lemma ndc_quantities_unreverted rc claims d d' :
  for_each (most_prescribed_body rc) d claims = Ok d' ->
  for_each (most_prescribed_body rc) d
    (filter (fun c => claim_reverted rc c = false) claims) = Ok d'.
Proof.
  revert d. induction claims as [|c claims IH]; intros d Hrun; [done|].
  simpl in Hrun. apply bind_Ok in Hrun as (d1 & Hc & Hrun).
  rewrite filter_cons. case_decide as Hrev.
  - simpl. rewrite Hc. by apply IH.
  - apply most_prescribed_body_Ok in Hc as (npi & ndc & cid & _ & _ & Hid & ->).
    unfold claim_reverted in Hrev. rewrite Hid in Hrev.
    destruct (bool_decide (cid ∈ rc)); [by apply IH | done].
Qed.

Lemma most_prescribed_Ok claims reverts out :
  most_prescribed claims reverts = Ok out ->
  ∃ d, ndc_quantities claims (list_to_set (omap r_claim_id reverts)) = Ok d ∧
       out = most_prescribed_output <$> d.
Proof.
  unfold most_prescribed. intros Hrun. ok_steps.
  apply reverted_claims_Ok in Ha as ->. eauto.
Qed.

End MostPrescribedFacts.

(** ** Faults and returns *)

Section Faults.
Context {num : Type} `{Number num}.
Implicit Types (c : claim num) (rc : gset string).

Lemma metrics_body_Raise rc m c e :
  metrics_body rc m c = Raise e -> ∃ k, e = KeyError k.
Proof.
  unfold metrics_body.
  destruct (c_npi c), (c_ndc c), (c_price c), (c_id c); simpl;
    try case_decide; intros [=]; eauto.
Qed.

Lemma most_prescribed_body_Raise rc d c e :
  most_prescribed_body rc d c = Raise e -> ∃ k, e = KeyError k.
Proof.
  unfold most_prescribed_body.
  destruct (c_npi c), (c_ndc c), (c_id c); simpl;
    try case_decide; intros [=]; eauto.
Qed.

Lemma metrics_body_missing rc m c :
  c_npi c = None ∨ c_ndc c = None ∨ c_price c = None ->
  ∃ e, metrics_body rc m c = Raise e ∧ ∃ k, e = KeyError k.
Proof.
  unfold metrics_body.
  destruct (c_npi c), (c_ndc c), (c_price c); simpl;
    intros [?|[?|?]]; try done; eauto.
Qed.

Lemma recommendations_body_missing rc dir g c :
  c_npi c = None ∨ c_ndc c = None ∨ c_price c = None ->
  ∃ e, recommendations_body rc dir g c = Raise e ∧ ∃ k, e = KeyError k.
Proof.
  unfold recommendations_body.
  destruct (c_npi c), (c_ndc c), (c_price c); simpl;
    intros [?|[?|?]]; try done; eauto.
Qed.

Lemma most_prescribed_body_missing rc d c :
  c_npi c = None ∨ c_ndc c = None ->
  ∃ e, most_prescribed_body rc d c = Raise e ∧ ∃ k, e = KeyError k.
Proof.
  unfold most_prescribed_body.
  destruct (c_npi c), (c_ndc c); simpl; intros [?|?]; try done; eauto.
Qed.

(** An aggregator whose loop body faults on one of the claims faults. *)
Lemma aggregator_KeyError {S B} (body : gset string -> S -> claim num -> result S)
    (finish : S -> result B) s0 (claims : list (claim num)) reverts c :
  c ∈ claims ->
  (∀ rc s, ∃ e, body rc s c = Raise e ∧ ∃ k, e = KeyError k) ->
  (∀ rc s y e, body rc s y = Raise e -> ∃ k, e = KeyError k) ->
  is_KeyError (rc ← reverted_claims reverts;
               s ← for_each (body rc) s0 claims; finish s).
Proof.
  intros Hc Hbad Hall.
  destruct (reverted_claims_cases reverts) as [[_ ->]|[_ ->]];
    [|by eexists].
  rewrite Ok_bind.
  destruct (for_each_fails (fun e => ∃ k, e = KeyError k)
              (body (list_to_set (omap r_claim_id reverts))) claims c Hc)
    with (s := s0) as (e & -> & k & ->); [auto | eauto |].
  by exists k.
Qed.

Lemma calculate_metrics_total (claims : list (claim num)) reverts :
  Forall has_metrics_fields claims ->
  Forall (fun r => is_Some (r_claim_id r)) reverts ->
  ∃ recs, calculate_metrics claims reverts = Ok recs.
Proof.
  intros Hclaims Hreverts. unfold calculate_metrics.
  destruct (reverted_claims_total reverts Hreverts) as [rc ->].
  rewrite Ok_bind.
  destruct (for_each_total (metrics_body rc) claims) with (s := @nil (string * string * metric num))
    as [m ->]; [|simpl; eauto].
  eapply Forall_impl; [done|]. intros c Hc m. by apply metrics_body_total.
Qed.

Lemma most_prescribed_total (claims : list (claim num)) reverts :
  Forall has_ranking_fields claims ->
  Forall (fun r => is_Some (r_claim_id r)) reverts ->
  ∃ out, most_prescribed claims reverts = Ok out.
Proof.
  intros Hclaims Hreverts. unfold most_prescribed, ndc_quantities.
  destruct (reverted_claims_total reverts Hreverts) as [rc ->].
  rewrite Ok_bind.
  destruct (for_each_total (most_prescribed_body rc) claims)
    with (s := @nil (string * list num)) as [d ->]; [|simpl; eauto].
  eapply Forall_impl; [done|]. intros c Hc d.
  by apply most_prescribed_body_total.
Qed.

Lemma recommendations_total (claims : list (claim num)) reverts dir :
  Forall has_metrics_fields claims ->
  Forall (fun r => is_Some (r_claim_id r)) reverts ->
  ∃ out, recommendations claims reverts dir = Ok out.
Proof.
  intros Hclaims Hreverts. unfold recommendations.
  destruct (reverted_claims_total reverts Hreverts) as [rc ->].
  rewrite Ok_bind.
  destruct (ndc_metrics_total rc dir claims Hclaims) as [g Hg].
  rewrite Hg, Ok_bind. by eapply recommendations_output_total.
Qed.

End Faults.

(** ** Grouping loops *)

Lemma filter_all {A} (P : A -> Prop) `{∀ x, Decision (P x)} (l : list A) :
  Forall P l -> filter P l = l.
Proof.
  induction 1 as [|x l Hx _ IH]; [done|].
  by rewrite filter_cons_True, IH.
Qed.

Lemma elem_of_first_occurrences {K} `{EqDecision K} (l : list K) k :
  k ∈ first_occurrences l ↔ k ∈ l.
Proof.
  induction l as [|k' l IH]; simpl; [done|].
  rewrite !elem_of_cons, list_elem_of_filter, IH.
  destruct (decide (k = k')); tauto.
Qed.

Lemma NoDup_first_occurrences {K} `{EqDecision K} (l : list K) :
  NoDup (first_occurrences l).
Proof.
  induction l as [|k l IH]; simpl; constructor.
  - rewrite list_elem_of_filter. tauto.
  - by apply NoDup_filter.
Qed.

Section TallyFacts.
Context {A K V : Type} `{EqDecision K}.
Context (key : A -> option K) (step : A -> V -> V) (dflt : V).
Context (body : list (K * V) -> A -> result (list (K * V))).
Hypothesis body_Ok :
  ∀ d x d', body d x = Ok d' ->
            d' = match key x with
                 | Some k => dict_update d k dflt (step x)
                 | None => d
                 end.

Lemma tally_cons k entry x l :
  tally key step dflt k entry (x :: l) =
  tally key step dflt k
    (if decide (key x = Some k) then Some (step x (default dflt entry))
     else entry) l.
Proof.
  unfold tally. rewrite filter_cons. case_decide; [|done].
  by destruct (filter _ l).
Qed.

Lemma tally_loop l d d' k :
  for_each body d l = Ok d' ->
  dict_get d' k = tally key step dflt k (dict_get d k) l.
Proof.
  revert d. induction l as [|x l IH]; intros d Hrun; simpl in Hrun.
  - by injection Hrun as <-.
  - apply bind_Ok in Hrun as (d1 & Hx & Hrun).
    rewrite (IH d1 Hrun), tally_cons. f_equal.
    apply body_Ok in Hx as ->. destruct (key x) as [k'|].
    + destruct (decide (k' = k)) as [->|Hne].
      * by rewrite decide_True, dict_get_update.
      * rewrite decide_False by congruence. by rewrite dict_get_update_ne.
    + by rewrite decide_False.
Qed.

Lemma tally_loop_NoDup l d d' :
  NoDup d.*1 -> for_each body d l = Ok d' -> NoDup d'.*1.
Proof.
  apply (for_each_invariant (fun d : list (K * V) => NoDup d.*1)).
  intros d0 x d1 Hd0 ->%body_Ok.
  destruct (key x); [by apply dict_update_NoDup | done].
Qed.

(** The entries of the final dict are the tallies of the keys that occur. *)
Lemma tally_loop_elem_of l d' k v :
  for_each body [] l = Ok d' ->
  (k, v) ∈ d' ↔
  filter (fun x => key x = Some k) l ≠ [] ∧
  v = foldl (fun v x => step x v) dflt (filter (fun x => key x = Some k) l).
Proof.
  intros Hrun.
  assert (NoDup d'.*1) as Hkeys
    by (eapply tally_loop_NoDup; [|done]; constructor).
  pose proof (tally_loop l [] d' k Hrun) as Hget. unfold tally in Hget.
  simpl in Hget. split.
  - intros Hin. rewrite (elem_of_dict_get _ _ _ Hkeys Hin) in Hget.
    destruct (filter _ l); [done|]. by injection Hget as ->.
  - intros [Hne ->]. apply dict_get_elem_of.
    rewrite Hget. by destruct (filter _ l).
Qed.

(** The keys of the final dict, in its order: those it had, then the new
    ones as they are first met. *)
Lemma tally_loop_keys l d d' :
  for_each body d l = Ok d' ->
  d'.*1 = d.*1 ++ filter (fun k => k ∉ d.*1) (first_occurrences (omap key l)).
Proof.
  revert d. induction l as [|x l IH]; intros d Hrun; simpl in Hrun.
  - injection Hrun as <-. by rewrite app_nil_r.
  - apply bind_Ok in Hrun as (d1 & Hx & Hrun).
    rewrite (IH d1 Hrun). apply body_Ok in Hx as ->. csimpl.
    destruct (key x) as [k|]; csimpl; [|done].
    rewrite dict_update_keys, filter_cons, list_filter_filter.
    destruct (decide (k ∈ d.*1)) as [Hin|Hout].
    + rewrite decide_False by tauto. f_equal.
      apply list_filter_iff. intros k'. split; [|tauto].
      intros Hk'. split; [done|]. by intros ->.
    + rewrite decide_True by done. rewrite <-app_assoc. simpl. do 2 f_equal.
      apply list_filter_iff. intros k'.
      rewrite elem_of_app, list_elem_of_singleton. tauto.
Qed.

Lemma tally_loop_first_occurrences l d' :
  for_each body [] l = Ok d' -> d'.*1 = first_occurrences (omap key l).
Proof.
  intros ->%tally_loop_keys. simpl. apply filter_all.
  apply Forall_forall. intros k _. apply not_elem_of_nil.
Qed.

End TallyFacts.

(** Every element of a loop that ran to its end was handled without a
    fault. *)
Lemma for_each_Ok_each {S A} (body : S -> A -> result S) l s s' :
  for_each body s l = Ok s' ->
  Forall (fun x => ∃ s1 s2, body s1 x = Ok s2) l.
Proof.
  revert s. induction l as [|x l IH]; intros s Hrun; simpl in Hrun.
  - constructor.
  - apply bind_Ok in Hrun as (s1 & Hx & Hrun). constructor; eauto.
Qed.

(** ** recommendations, ndc by ndc *)

Section RecommendationsGroups.
Context {num : Type} `{Number num}.
Implicit Types (c : claim num) (rc : gset string) (claims : list (claim num))
  (dir : gmap string string).

Lemma recommendations_body_tally rc dir g c g' :
  recommendations_body rc dir g c = Ok g' ->
  g' = match c_ndc c with
       | Some ndc => dict_update g ndc [] (chain_step rc dir c)
       | None => g
       end.
Proof.
  intros (npi & ndc & price & cid & Hnpi & Hndc & Hprice & Hid & ->)
    %recommendations_body_Ok.
  unfold chain_step, resolved_chain, claim_reverted, append_price.
  rewrite Hnpi, Hndc, Hprice, Hid. simpl.
  destruct (bool_decide (cid ∈ rc)); [by rewrite dict_update_fuse | done].
Qed.

Lemma ndc_metrics_unique_keys claims rc dir g :
  ndc_metrics claims rc dir = Ok g -> unique_keys g.
Proof.
  apply (for_each_invariant unique_keys).
  - intros ???. apply recommendations_body_unique_keys.
  - split; constructor.
Qed.

(** The chains of an entry of [ndc_metrics] are the chains that sell the
    ndc. *)
Lemma ndc_metrics_chains claims rc dir g ndc cm chain :
  ndc_metrics claims rc dir = Ok g -> (ndc, cm) ∈ g ->
  chain ∈ cm.*1 ↔ chain ∈ chains_of dir ndc claims.
Proof.
  intros Hg Hcm. unfold chains_of.
  rewrite elem_of_first_occurrences, list_elem_of_omap.
  pose proof (ndc_metrics_unique_keys _ _ _ _ Hg) as [Houter Hinner].
  split.
  - intros ([chain' prices] & -> & Hprices)%list_elem_of_fmap. simpl.
    destruct (ndc_metrics_price_list _ _ _ _ _ _ _ _ Hg Hcm Hprices)
      as [Heq Hne].
    rewrite Heq in Hne. unfold prices_of in Hne.
    destruct (filter _ claims) as [|c cs] eqn:Hfilter; [done|].
    assert (c ∈ filter (fun c => c_ndc c = Some ndc ∧
                                 resolved_chain dir c = Some chain') claims)
      as [[Hndc Hchain] Hc]%list_elem_of_filter by (rewrite Hfilter; left).
    exists c. split; [|done]. by apply list_elem_of_filter.
  - intros (c & [Hndc Hc]%list_elem_of_filter & Hchain).
    assert (is_Some (c_price c)) as [price Hprice].
    { unfold ndc_metrics in Hg. apply for_each_Ok_each in Hg.
      eapply Forall_forall in Hg as (g1 & g2 & Hbody); [|done].
      apply recommendations_body_Ok in Hbody
        as (? & ? & ? & ? & _ & _ & -> & _). eauto. }
    pose proof (ndc_metrics_loop_price_list rc dir claims [] g ndc chain Hg)
      as Hlist.
    assert (prices_of rc dir ndc chain claims ≠ []) as Hne.
    { unfold prices_of. intros Hnil.
      assert (price ∈ concat (price_samples rc <$>
                filter (fun c => c_ndc c = Some ndc ∧
                                 resolved_chain dir c = Some chain) claims))
        as Hin; [|rewrite Hnil in Hin; by inv Hin].
      apply list_elem_of_In, in_concat. exists (price_samples rc c). split.
      - apply list_elem_of_In, list_elem_of_fmap_2. by apply list_elem_of_filter.
      - apply list_elem_of_In. unfold price_samples. rewrite Hprice.
        destruct (claim_reverted rc c); left. }
    unfold extended in Hlist. simpl in Hlist.
    destruct (prices_of rc dir ndc chain claims) as [|p ps]; [done|].
    unfold price_list in Hlist.
    rewrite (elem_of_dict_get g ndc cm Houter Hcm) in Hlist. simpl in Hlist.
    apply dict_get_elem_of in Hlist.
    apply list_elem_of_fmap. by eexists (chain, _).
Qed.

Lemma for_each_pure {S A} (f : A -> S -> S) s (l : list A) :
  for_each (fun s x => Ok (f x s)) s l = Ok (foldl (fun s x => f x s) s l).
Proof. revert s. induction l as [|x l IH]; intros s; simpl; [done | apply IH]. Qed.

Lemma chain_step_tally rc dir cm c cm' :
  Ok (chain_step rc dir c cm) = Ok cm' ->
  cm' = match priced_chain dir c with
        | Some chain => dict_update cm chain [] (price_step rc c)
        | None => cm
        end.
Proof.
  intros [= <-]. unfold chain_step, priced_chain, price_step.
  destruct (resolved_chain dir c) as [chain|]; [|done].
  destruct (c_price c) as [price|]; [|done].
  destruct (claim_reverted rc c); [by rewrite dict_update_fuse | done].
Qed.

(** The chains of an entry of [ndc_metrics], in their order. *)
Lemma ndc_metrics_chain_order claims rc dir g ndc cm :
  ndc_metrics claims rc dir = Ok g -> (ndc, cm) ∈ g ->
  cm.*1 = chains_of dir ndc claims.
Proof.
  intros Hg Hcm. unfold chains_of.
  apply (tally_loop_elem_of _ _ _ _ (recommendations_body_tally rc dir)
           claims g ndc cm Hg) in Hcm as [_ ->].
  set (cs := filter (fun c => c_ndc c = Some ndc) claims).
  rewrite (tally_loop_first_occurrences _ _ _ _ (chain_step_tally rc dir)
             cs _ (for_each_pure (chain_step rc dir) [] cs)).
  f_equal. unfold ndc_metrics in Hg. apply for_each_Ok_each in Hg.
  assert (Forall (fun c => is_Some (c_price c)) cs) as Hprices.
  { apply Forall_forall. intros c [_ Hc]%list_elem_of_filter.
    eapply Forall_forall in Hg as (g1 & g2 & Hbody); [|done].
    apply recommendations_body_Ok in Hbody
      as (? & ? & ? & ? & _ & _ & -> & _). eauto. }
  clear -Hprices. induction Hprices as [|c cs [price Hc] _ IH]; [done|].
  csimpl. rewrite IH. unfold priced_chain. rewrite Hc.
  by destruct (resolved_chain dir c).
Qed.

(** What [ndc_output] makes of an entry of [ndc_metrics]. *)
Lemma ndc_output_chains claims rc dir g ndc cm o :
  ndc_metrics claims rc dir = Ok g -> (ndc, cm) ∈ g ->
  ndc_output (ndc, cm) = Ok o ->
  ∃ sorted,
    rec_ndc o = ndc ∧ rec_chain o = take 2 sorted ∧
    cr_name <$> sorted ≡ₚ chains_of dir ndc claims ∧
    Forall (fun cr => cr_avg_price cr = average_of rc dir ndc (cr_name cr) claims
                      ∧ cr_avg_price cr ∈ averages g) sorted ∧
    (Forall (fun cr => cr_avg_price cr ∈ averages g) sorted ->
     total_preorder_on (averages g) = true ->
     StronglySorted (key_le nleb cr_avg_price) sorted).
Proof.
  intros Hg Hcm (avgs & Havgs & Hndc & Hchain)%ndc_output_Ok. simpl in *.
  exists (sort_by nltb cr_avg_price avgs). split_and!; [done..| | |].
  - rewrite sort_by_Permutation.
    assert (cr_name <$> avgs = cm.*1) as ->.
    { clear -Havgs. induction Havgs as [|e cr cm avgs (_ & Hname & _) _ IH];
        [done|]. csimpl. by rewrite Hname, IH. }
    pose proof (ndc_metrics_unique_keys _ _ _ _ Hg) as [_ Hinner].
    apply NoDup_Permutation.
    + by eapply Forall_forall in Hinner; [|done].
    + apply NoDup_first_occurrences.
    + intros chain. by eapply ndc_metrics_chains.
  - apply Forall_forall. intros cr Hcr. rewrite sort_by_Permutation in Hcr.
    destruct (Forall2_elem_of_r _ _ _ _ Havgs Hcr)
      as ([chain prices] & Hcp & _ & Hname & Havg). simpl in *.
    destruct (ndc_metrics_price_list _ _ _ _ _ _ _ _ Hg Hcm Hcp) as [Heq _].
    split.
    + unfold average_of. by rewrite Hname, <-Heq.
    + rewrite Havg. unfold averages. apply list_elem_of_bind.
      exists (ndc, cm). split; [|done].
      by apply list_elem_of_fmap_2' with (x := (chain, prices)).
  - intros Hkeys (Hlt & Htotal & Htrans)%total_preorder_on_spec.
    assert (Forall (fun cr => cr_avg_price cr ∈ averages g) avgs) as Hkeys'.
    { apply Forall_forall. intros cr Hcr. eapply Forall_forall in Hkeys; [done|].
      by rewrite sort_by_Permutation. }
    by apply (sort_by_sorted nltb nleb cr_avg_price (fun a => a ∈ averages g)).
Qed.

Lemma Forall2_fmap_elem_of {A B} (R : A -> B -> Prop) (f : A -> B) l k :
  Forall2 R l k -> (∀ x y, x ∈ l -> R x y -> y = f x) -> k = f <$> l.
Proof.
  induction 1 as [|x y l k Hxy _ IH]; intros Hf; [done|]. csimpl.
  rewrite (Hf x y) by (done || left). f_equal. apply IH.
  intros x' y' Hx'. apply Hf. by right.
Qed.

Lemma Forall2_elem_of_l {A B} (R : A -> B -> Prop) l k x :
  Forall2 R l k -> x ∈ l -> ∃ y, y ∈ k ∧ R x y.
Proof.
  induction 1 as [|x' y l k Hxy _ IH]; intros Hx; [by inv Hx|].
  apply elem_of_cons in Hx as [->|Hx].
  - exists y. split; [left | done].
  - destruct (IH Hx) as (y' & ? & ?). exists y'. split; [by right | done].
Qed.

(** In a sorted list, what the cut keeps comes before what it leaves out. *)
Lemma take_before_rest {A} (R : relation A) (l : list A) n a b :
  StronglySorted R l -> a ∈ take n l -> b ∈ l -> b ∉ take n l -> R a b.
Proof.
  intros Hl (i & Hi & Hin)%elem_of_take [j Hj]%list_elem_of_lookup_1 Hb.
  apply (StronglySorted_before R l); [done|].
  apply (lookup_before l i j); [|done..].
  destruct (decide (j < n)) as [Hjn|]; [|lia].
  exfalso. apply Hb, elem_of_take. eauto.
Qed.

(** The entry of an ndc, from its candidates. *)
Lemma ndc_output_group claims rc dir g ndc cm o :
  ndc_metrics claims rc dir = Ok g -> (ndc, cm) ∈ g ->
  ndc_output (ndc, cm) = Ok o ->
  rec_ndc o = ndc ∧
  rec_chain o =
    take 2 (sort_by nltb cr_avg_price
              (chain_of_group rc dir ndc claims <$> chains_of dir ndc claims)).
Proof.
  intros Hg Hcm (avgs & Havgs & Hndc & Hchain)%ndc_output_Ok.
  simpl in *. split; [done|]. rewrite Hchain. do 2 f_equal.
  rewrite <-(ndc_metrics_chain_order _ _ _ _ _ _ Hg Hcm).
  rewrite <-list_fmap_compose.
  apply (Forall2_fmap_elem_of _ _ _ _ Havgs).
  intros [chain prices] [name avg] Hprices (_ & Hname & Havg). simpl in *.
  destruct (ndc_metrics_price_list _ _ _ _ _ _ _ _ Hg Hcm Hprices) as [-> _].
  unfold chain_of_group, average_of. by rewrite Hname, Havg.
Qed.

(** The entry of an ndc that some claim has. *)
Lemma recommendations_entry claims reverts dir out c ndc :
  recommendations claims reverts dir = Ok out ->
  c ∈ claims -> c_ndc c = Some ndc ->
  let rc : gset string := list_to_set (omap r_claim_id reverts) in
  ∃ o, o ∈ out ∧ rec_ndc o = ndc ∧
       rec_chain o =
         take 2 (sort_by nltb cr_avg_price
                   (chain_of_group rc dir ndc claims <$>
                    chains_of dir ndc claims)).
Proof.
  intros (g & _ & Hg & Hout)%recommendations_Ok Hc Hndc rc. fold rc in Hg.
  assert (ndc ∈ g.*1) as ([ndc' cm] & -> & Hcm)%list_elem_of_fmap.
  { rewrite (tally_loop_first_occurrences _ _ _ _
               (recommendations_body_tally rc dir) claims g Hg).
    apply elem_of_first_occurrences, list_elem_of_omap. eauto. }
  destruct (Forall2_elem_of_l _ _ _ _ Hout Hcm) as (o & Ho & Hoe).
  destruct (ndc_output_group _ _ _ _ _ _ _ Hg Hcm Hoe) as [? ?].
  exists o. by split_and!.
Qed.

(** Any entry is the entry of its ndc. *)
Lemma recommendations_entry_of claims reverts dir out o :
  recommendations claims reverts dir = Ok out -> o ∈ out ->
  let rc : gset string := list_to_set (omap r_claim_id reverts) in
  rec_chain o =
    take 2 (sort_by nltb cr_avg_price
              (chain_of_group rc dir (rec_ndc o) claims <$>
               chains_of dir (rec_ndc o) claims)).
Proof.
  intros (g & _ & Hg & Hout)%recommendations_Ok Ho rc. fold rc in Hg.
  destruct (Forall2_elem_of_r _ _ _ _ Hout Ho) as ([ndc cm] & Hcm & Hoe).
  by destruct (ndc_output_group _ _ _ _ _ _ _ Hg Hcm Hoe) as [-> ->].
Qed.

Lemma group_averages rc dir ndc claims :
  cr_avg_price <$> (chain_of_group rc dir ndc claims <$> chains_of dir ndc claims)
  = ndc_averages rc dir ndc claims.
Proof. unfold ndc_averages. by rewrite <-list_fmap_compose. Qed.

Lemma strict_on_spec (S : list num) :
  strict_on S = true ->
  ∀ a b, a ∈ S -> b ∈ S -> nltb a b = true -> nleb b a = false.
Proof.
  intros HS a b Ha%list_elem_of_In Hb%list_elem_of_In Hab.
  unfold strict_on in HS. rewrite forallb_forall in HS.
  specialize (HS a Ha). rewrite forallb_forall in HS.
  specialize (HS b Hb). rewrite Hab in HS. by apply negb_true_iff.
Qed.

(** The candidates of an ndc are sorted when their averages are ordered. *)
Lemma group_sorted rc dir ndc claims :
  total_preorder_on (ndc_averages rc dir ndc claims) = true ->
  StronglySorted (key_le nleb cr_avg_price)
    (sort_by nltb cr_avg_price
       (chain_of_group rc dir ndc claims <$> chains_of dir ndc claims)).
Proof.
  intros (Hlt & Htotal & Htrans)%total_preorder_on_spec.
  apply (sort_by_sorted nltb nleb cr_avg_price
           (fun a => a ∈ ndc_averages rc dir ndc claims)); [done..|].
  apply Forall_forall. intros cr Hcr. rewrite <-group_averages.
  by apply list_elem_of_fmap_2.
Qed.

End RecommendationsGroups.

(** * The claims *)

(** C1. In [recommendations] a claim whose id is in the reversal set
    appends its price and then the negated price to the price list of its
    (ndc, chain); the average of a chain in the output is the sum of its
    price list, which holds one sample per claim and a second, negated one
    per reverted claim, over the length of that list.  For the single claim
    c1 of price 10.0 at p1, directory p1 -> ChainA, and a revert of c1, the
    recommendation for d1 is ChainA at (10.0 + (-10.0))/2 = 0.0. *)
Theorem recommendations_netting :
  (∀ num (N : Number num) rc dir g (c : claim num) npi ndc price cid,
      c_npi c = Some npi -> c_ndc c = Some ndc -> c_price c = Some price ->
      c_id c = Some cid -> cid ∈ rc ->
      let chain := default "Unknown" (dir !! npi) in
      ∃ g', recommendations_body rc dir g c = Ok g' ∧
            price_list g' ndc chain =
            Some (default [] (price_list g ndc chain) ++ [price; nneg price])) ∧
  (∀ num (N : Number num) (claims : list (claim num)) reverts dir out o cr,
      recommendations claims reverts dir = Ok out ->
      o ∈ out -> cr ∈ rec_chain o ->
      let prices := prices_of (list_to_set (omap r_claim_id reverts)) dir
                      (rec_ndc o) (cr_name cr) claims in
      prices ≠ [] ∧
      cr_avg_price cr = ndiv (sum prices) (of_int (Z.of_nat (length prices)))) ∧
  recommendations [claim_c1] [revert_r1] directory_p1 =
  Ok [ {| rec_ndc := "d1";
          rec_chain := [ {| cr_name := "ChainA"; cr_avg_price := 0%float |} ] |} ].
Proof.
  split_and!; [| |by vm_compute].
  - intros num N rc dir g c npi ndc price cid Hnpi Hndc Hprice Hid Hrc chain.
    destruct (recommendations_body_total rc dir g c) as [g' Hg'].
    { unfold has_metrics_fields. rewrite Hnpi, Hndc, Hprice, Hid. eauto. }
    exists g'. split; [done|].
    rewrite (recommendations_body_price_list _ _ _ _ _ ndc chain Hg').
    unfold claim_samples, resolved_chain, price_samples, claim_reverted.
    rewrite Hnpi, Hndc, Hprice, Hid. simpl.
    by rewrite decide_True, bool_decide_eq_true_2.
  - intros num N claims reverts dir out o cr.
    apply recommendations_chain.
Qed.

(** C2. The fills of the records of [calculate_metrics] add up to the
    number of claims; when the claim ids are unique, the reverted counts add
    up to the number of distinct reverted claim ids that are the id of some
    claim. *)
Theorem metrics_sums {num} `{Number num} (claims : list (claim num))
    reverts recs :
  calculate_metrics claims reverts = Ok recs ->
  sumZ (mr_fills <$> recs) = Z.of_nat (length claims) ∧
  (NoDup (c_id <$> claims) ->
   sumZ (mr_reverted <$> recs) =
   Z.of_nat (size (list_to_set (omap r_claim_id reverts) ∩
                   list_to_set (omap c_id claims) : gset string))).
Proof.
  intros (rc & m & Hrc & Hloop & ->)%calculate_metrics_Ok.
  apply reverted_claims_Ok in Hrc as <-.
  apply metrics_loop_sums in Hloop as [Hfills Hreverted]. simpl in *.
  rewrite <-!list_fmap_compose. split.
  - etrans; [|exact Hfills]. f_equal. apply list_fmap_ext.
    by intros _ [[npi ndc] v] _.
  - intros Hids. rewrite <-reverted_count by done.
    etrans; [|exact Hreverted]. f_equal. apply list_fmap_ext.
    by intros _ [[npi ndc] v] _.
Qed.

Lemma metrics_sums_witness :
  sumZ (mr_fills <$> [record_c1 1]) = 1%Z ∧
  (NoDup [Some "c1"] -> sumZ (mr_reverted <$> [record_c1 1]) = 1%Z).
Proof.
  exact (metrics_sums [claim_c1] [revert_r1] [record_c1 1] eq_refl).
Defined.

(** C3. For every ndc in the output of [most_prescribed], the listed
    quantities are the distinct quantities of the claims of that ndc that are
    not reverted, by descending frequency among those claims, the ones of
    equal frequency in the order in which they are first encountered; the
    claims whose id is in the reversal set add nothing: without them the
    output is the same.  Distinct is meant up to [==], an equivalence among
    the quantities, which it is for binary64 unless one is a NaN. *)
Theorem most_prescribed_ranking {num} `{Number num}
    (claims : list (claim num)) reverts out :
  most_prescribed claims reverts = Ok out ->
  let rc : gset string := list_to_set (omap r_claim_id reverts) in
  (equivalence_on (claim_quantity <$> claims) = true ->
   Forall (fun o => ranked (quantities_of rc (mp_ndc o) claims)
                      (mp_most_prescribed_quantity o)) out) ∧
  most_prescribed (filter (fun c => claim_reverted rc c = false) claims)
    reverts = Ok out.
Proof.
  intros Hrun rc. subst rc. split.
  - intros (Hrefl & Hsym & Htrans)%equivalence_on_spec.
    apply most_prescribed_Ok in Hrun as (d & Hd & ->).
    apply Forall_fmap, Forall_forall. intros [ndc quantities] Hin. simpl.
    rewrite <-(ndc_quantities_elem_of _ _ _ _ _ Hd Hin).
    apply (most_common_ranked (fun q => q ∈ claim_quantity <$> claims));
      [done..|].
    rewrite (ndc_quantities_elem_of _ _ _ _ _ Hd Hin).
    apply Forall_forall. intros q (c & -> & Hc)%list_elem_of_fmap.
    apply list_elem_of_filter in Hc as [_ Hc].
    by apply list_elem_of_fmap_2.
  - revert Hrun. unfold most_prescribed.
    destruct (reverted_claims reverts) as [rc'|e] eqn:Hrc; [|done].
    apply reverted_claims_Ok in Hrc as ->. rewrite !Ok_bind.
    intros (d & Hd & Hout)%bind_Ok. unfold ndc_quantities in *.
    by rewrite (ndc_quantities_unreverted _ _ _ _ Hd).
Qed.

Lemma most_prescribed_ranking_witness :
  ∃ out,
    most_prescribed claims_quantities reverts_quantities = Ok out ∧
    mp_most_prescribed_quantity <$> out = [[3; 5; 7]%float] ∧
    Forall (fun o => ranked (quantities_of
                               (list_to_set (omap r_claim_id reverts_quantities))
                               (mp_ndc o) claims_quantities)
                       (mp_most_prescribed_quantity o)) out ∧
    most_prescribed
      (filter (fun c => claim_reverted
                          (list_to_set (omap r_claim_id reverts_quantities)) c
                        = false) claims_quantities)
      reverts_quantities = Ok out.
Proof.
  eexists. split; [by vm_compute|]. split; [done|].
  destruct (most_prescribed_ranking claims_quantities reverts_quantities
              _ eq_refl) as [Hranked Hsame].
  split; [apply Hranked; by vm_compute | exact Hsame].
Defined.

(** C4, as stated, fails: a claim without quantity is no fault for any of
    the three aggregators, [most_prescribed] reading the quantity as 0.0;
    and a claim without price is no fault for [most_prescribed]. *)
Lemma missing_quantity_is_no_fault :
  c_quantity claim_without_quantity = None ∧
  calculate_metrics [claim_without_quantity] [] = Ok [record_c1 0] ∧
  most_prescribed [claim_without_quantity] [] =
    Ok [ {| mp_ndc := "d1"; mp_most_prescribed_quantity := [0%float] |} ] ∧
  recommendations [claim_without_quantity] [] directory_p1 =
    Ok [ {| rec_ndc := "d1";
            rec_chain := [ {| cr_name := "ChainA";
                              cr_avg_price := 10%float |} ] |} ] ∧
  c_price claim_without_price = None ∧
  most_prescribed [claim_without_price] [] =
    Ok [ {| mp_ndc := "d1"; mp_most_prescribed_quantity := [30%float] |} ] ∧
  ¬ (is_KeyError (calculate_metrics [claim_without_quantity] []) ∧
     is_KeyError (most_prescribed [claim_without_quantity] []) ∧
     is_KeyError (recommendations [claim_without_quantity] [] directory_p1)).
Proof.
  split_and!; [done|by vm_compute..|].
  intros ([k Hk] & _). vm_compute in Hk. discriminate.
Qed.

(** C4, amended. A claim without npi or without ndc makes each of the three
    aggregators fail with a missing-key fault; a claim without price makes
    [calculate_metrics] and [recommendations] fail with a missing-key fault.
    [most_prescribed] returns whenever the claims have npi, ndc and id and
    the reverts their claim id, with or without price and quantity; the
    other two return whenever the claims have npi, ndc, price and id, with
    or without quantity. *)
Theorem missing_fields_faults {num} `{Number num} :
  (∀ (claims : list (claim num)) reverts dir c,
      c ∈ claims -> c_npi c = None ∨ c_ndc c = None ->
      is_KeyError (calculate_metrics claims reverts) ∧
      is_KeyError (most_prescribed claims reverts) ∧
      is_KeyError (recommendations claims reverts dir)) ∧
  (∀ (claims : list (claim num)) reverts dir c,
      c ∈ claims -> c_price c = None ->
      is_KeyError (calculate_metrics claims reverts) ∧
      is_KeyError (recommendations claims reverts dir)) ∧
  (∀ (claims : list (claim num)) reverts,
      Forall has_ranking_fields claims ->
      Forall (fun r => is_Some (r_claim_id r)) reverts ->
      ∃ out, most_prescribed claims reverts = Ok out) ∧
  (∀ (claims : list (claim num)) reverts dir,
      Forall has_metrics_fields claims ->
      Forall (fun r => is_Some (r_claim_id r)) reverts ->
      (∃ recs, calculate_metrics claims reverts = Ok recs) ∧
      (∃ out, recommendations claims reverts dir = Ok out)).
Proof.
  split_and!.
  - intros claims reverts dir c Hc Hmissing. split_and!.
    + apply (aggregator_KeyError metrics_body
               (fun m => Ok (map metric_output m)) [] claims reverts c Hc).
      * intros rc m. apply metrics_body_missing. tauto.
      * intros rc m y e. apply metrics_body_Raise.
    + apply (aggregator_KeyError most_prescribed_body
               (fun d => Ok (map most_prescribed_output d)) [] claims reverts
               c Hc).
      * intros rc d. by apply most_prescribed_body_missing.
      * intros rc d y e. apply most_prescribed_body_Raise.
    + apply (aggregator_KeyError (fun rc => recommendations_body rc dir)
               (comprehension ndc_output) [] claims reverts c Hc).
      * intros rc g. apply recommendations_body_missing. tauto.
      * intros rc g y e. apply recommendations_body_Raise.
  - intros claims reverts dir c Hc Hmissing. split.
    + apply (aggregator_KeyError metrics_body
               (fun m => Ok (map metric_output m)) [] claims reverts c Hc).
      * intros rc m. apply metrics_body_missing. tauto.
      * intros rc m y e. apply metrics_body_Raise.
    + apply (aggregator_KeyError (fun rc => recommendations_body rc dir)
               (comprehension ndc_output) [] claims reverts c Hc).
      * intros rc g. apply recommendations_body_missing. tauto.
      * intros rc g y e. apply recommendations_body_Raise.
  - intros claims reverts. apply most_prescribed_total.
  - intros claims reverts dir Hclaims Hreverts.
    split; [by apply calculate_metrics_total | by apply recommendations_total].
Qed.

(** C5. The reverts change nothing but the reverted field: the records of
    [calculate_metrics] agree with those computed without any revert on npi,
    ndc, fills, total_price and avg_price, record by record.  One claim of
    price 10.0 with its revert gives reverted 1, total_price 10.0 and
    avg_price 10.0. *)
Theorem metrics_reverts_frame :
  (∀ num (N : Number num) (claims : list (claim num)) reverts recs,
      calculate_metrics claims reverts = Ok recs ->
      ∃ recs0, calculate_metrics claims [] = Ok recs0 ∧
               without_reverted <$> recs = without_reverted <$> recs0) ∧
  calculate_metrics [claim_c1] [] = Ok [record_c1 0] ∧
  calculate_metrics [claim_c1] [revert_r1] = Ok [record_c1 1].
Proof.
  split; [|by vm_compute].
  intros num N claims reverts recs
    (rc & m & Hrc & Hloop & ->)%calculate_metrics_Ok.
  eapply (metrics_loop_any_reverts rc ∅ claims [] [])
    in Hloop as (m0 & Hloop0 & Hm); [|done].
  exists (metric_output <$> m0). split.
  - unfold calculate_metrics. simpl. by rewrite Hloop0.
  - by rewrite !without_reverted_outputs, Hm.
Qed.

(** C6, as stated, fails on binary64: a reverted claim of infinite price
    leaves the price list [inf; -inf], whose average is a NaN; no number is
    less than a NaN, so the sort leaves ChainA first, and the listed
    averages NaN, 1.0 are not in ascending order. *)
Lemma infinite_price_unordered :
  recommendations claims_infinite_price reverts_infinite_price two_chains =
    Ok [ {| rec_ndc := "d1";
            rec_chain := [ {| cr_name := "ChainA"; cr_avg_price := nan |};
                           {| cr_name := "ChainB"; cr_avg_price := 1%float |} ] |} ]
  ∧ ¬ ascending [nan; 1%float].
Proof.
  split; [by vm_compute|].
  intros Hasc.
  specialize (Hasc 0 1 nan 1%float ltac:(lia) eq_refl eq_refl).
  vm_compute in Hasc. discriminate.
Qed.

(** C6, amended. Every entry of [recommendations] lists at most two chains;
    their avg_price values are in ascending order whenever [<] and [<=]
    order the averages of the chains of that ndc totally, which they do on
    binary64 unless one of these averages is a NaN; the averages of the
    other ndcs do not matter. *)
Theorem recommendations_two_ascending {num} `{Number num}
    (claims : list (claim num)) reverts pharmacy_chains out :
  recommendations claims reverts pharmacy_chains = Ok out ->
  let rc : gset string := list_to_set (omap r_claim_id reverts) in
  Forall (fun o => (length (rec_chain o) ≤ 2)%nat) out ∧
  Forall (fun o =>
            total_preorder_on
              (ndc_averages rc pharmacy_chains (rec_ndc o) claims) = true ->
            ascending (cr_avg_price <$> rec_chain o))
         out.
Proof.
  intros Hrun rc. split; apply Forall_forall; intros o Ho;
    rewrite (recommendations_entry_of _ _ _ _ _ Hrun Ho); fold rc.
  - rewrite length_take. lia.
  - intros Horder i j a b Hij Hi Hj.
    apply list_lookup_fmap_Some in Hi as (x & -> & Hi).
    apply list_lookup_fmap_Some in Hj as (y & -> & Hj).
    eapply (StronglySorted_before (key_le nleb cr_avg_price));
      [by apply group_sorted|].
    unfold before. etrans; [|apply (sublist_take _ 2)].
    by eapply lookup_before.
Qed.

Lemma recommendations_two_ascending_witness :
  ∃ out,
    recommendations claims_two_drugs reverts_two_drugs two_chains = Ok out ∧
    (fun o => cr_name <$> rec_chain o) <$> out
      = [["ChainB"; "ChainA"]; ["ChainA"]] ∧
    (fun o => total_preorder_on
                (ndc_averages (list_to_set (omap r_claim_id reverts_two_drugs))
                   two_chains (rec_ndc o) claims_two_drugs)) <$> out
      = [true; false] ∧
    Forall (fun o => (length (rec_chain o) ≤ 2)%nat) out ∧
    Forall (fun o =>
              total_preorder_on
                (ndc_averages (list_to_set (omap r_claim_id reverts_two_drugs))
                   two_chains (rec_ndc o) claims_two_drugs) = true ->
              ascending (cr_avg_price <$> rec_chain o))
           out.
Proof.
  eexists. split; [by vm_compute|]. split; [by vm_compute|].
  split; [by vm_compute|].
  exact (recommendations_two_ascending claims_two_drugs reverts_two_drugs
           two_chains _ eq_refl).
Defined.

(** C7. Each aggregator depends on the reverts only through the set of
    their claim ids: a second copy of a revert, another order of the
    reverts, or a revert whose claim id is the id of no claim, leave the
    output of [calculate_metrics], [most_prescribed] and [recommendations]
    as it is. *)
Theorem aggregators_reverts_as_set {num} `{Number num}
    (claims : list (claim num)) (pharmacy_chains : gmap string string) :
  reverts_as_set claims (calculate_metrics claims) ∧
  reverts_as_set claims (most_prescribed claims) ∧
  reverts_as_set claims
    (fun reverts => recommendations claims reverts pharmacy_chains).
Proof.
  split_and!.
  - apply (reverts_as_set_intro claims
             (fun rc => metrics ← for_each (metrics_body rc) [] claims;
                        Ok (map metric_output metrics))).
    intros rc rc' Hagree.
    rewrite (for_each_ext (metrics_body rc) (metrics_body rc')); [done|].
    intros; by eapply metrics_body_agree.
  - apply (reverts_as_set_intro claims
             (fun rc => d ← ndc_quantities claims rc;
                        Ok (map most_prescribed_output d))).
    intros rc rc' Hagree. unfold ndc_quantities.
    rewrite (for_each_ext (most_prescribed_body rc)
               (most_prescribed_body rc')); [done|].
    intros; by eapply most_prescribed_body_agree.
  - apply (reverts_as_set_intro claims
             (fun rc => g ← ndc_metrics claims rc pharmacy_chains;
                        comprehension ndc_output g)).
    intros rc rc' Hagree. unfold ndc_metrics.
    rewrite (for_each_ext (recommendations_body rc pharmacy_chains)
               (recommendations_body rc' pharmacy_chains)); [done|].
    intros; by eapply recommendations_body_agree.
Qed.

(** C8. Every record of [calculate_metrics] has fills at least 1 and a
    reverted count between 0 and fills; its avg_price is total_price/fills,
    the branch of the guard for fills = 0 is never taken. *)
Theorem metrics_records_counted {num} `{Number num} (claims : list (claim num))
    reverts recs :
  calculate_metrics claims reverts = Ok recs ->
  Forall (fun r =>
            (1 ≤ mr_fills r)%Z ∧ (0 ≤ mr_reverted r ≤ mr_fills r)%Z ∧
            mr_avg_price r = ndiv (mr_total_price r) (of_int (mr_fills r)))
         recs.
Proof.
  intros (rc & m & Hrc & Hloop & ->)%calculate_metrics_Ok.
  apply metrics_loop_counted in Hloop; [|constructor].
  apply Forall_fmap. eapply Forall_impl; [done|].
  intros [[npi ndc] v] [Hfills Hreverted]; simpl in *.
  split; [done|]. split; [done|]. by rewrite decide_False by lia.
Qed.

Lemma metrics_records_counted_witness :
  Forall (fun r =>
            (1 ≤ mr_fills r)%Z ∧ (0 ≤ mr_reverted r ≤ mr_fills r)%Z ∧
            mr_avg_price r = ndiv (mr_total_price r) (of_int (mr_fills r)))
         [record_c1 1].
Proof.
  exact (metrics_records_counted [claim_c1] [revert_r1] [record_c1 1] eq_refl).
Defined.

(** C9. In [recommendations] a claim whose npi has no entry in the
    directory is never left out: its price is in the price list of its ndc
    under the chain "Unknown", and the output is the one of a directory that
    maps the npi to a chain of that name.  In the entry of its ndc "Unknown"
    is a candidate like any other: when it is listed, it is with the average
    of that price list; it is listed when the ndc has no more than two
    chains; and, whenever [<] and [<=] order the averages of the ndc totally,
    it is left out only if no listed chain has a higher average, and listed
    only if no chain left out has a lower one. *)
Theorem recommendations_unknown_chain {num} `{Number num}
    (claims : list (claim num)) reverts dir out c npi ndc :
  recommendations claims reverts dir = Ok out ->
  c ∈ claims -> c_npi c = Some npi -> dir !! npi = None ->
  c_ndc c = Some ndc ->
  let rc : gset string := list_to_set (omap r_claim_id reverts) in
  let unknown := average_of rc dir ndc "Unknown" claims in
  (∃ price, c_price c = Some price ∧
            price ∈ prices_of rc dir ndc "Unknown" claims) ∧
  recommendations claims reverts (<[npi := "Unknown"]> dir) = Ok out ∧
  ∃ o, o ∈ out ∧ rec_ndc o = ndc ∧
       "Unknown" ∈ chains_of dir ndc claims ∧
       (∀ cr, cr ∈ rec_chain o -> cr_name cr = "Unknown" ->
              cr_avg_price cr = unknown) ∧
       ((length (chains_of dir ndc claims) ≤ 2)%nat ->
        "Unknown" ∈ cr_name <$> rec_chain o) ∧
       (total_preorder_on (ndc_averages rc dir ndc claims) = true ->
        ("Unknown" ∉ cr_name <$> rec_chain o ->
         ∀ cr, cr ∈ rec_chain o -> nleb (cr_avg_price cr) unknown = true) ∧
        ("Unknown" ∈ cr_name <$> rec_chain o ->
         ∀ chain, chain ∈ chains_of dir ndc claims ->
                  chain ∉ cr_name <$> rec_chain o ->
                  nleb unknown (average_of rc dir ndc chain claims) = true)).
Proof.
  intros Hrun Hc Hnpi Hdir Hndc rc unknown.
  assert (resolved_chain dir c = Some "Unknown") as Hchain
    by (unfold resolved_chain; rewrite Hnpi; simpl; by rewrite Hdir).
  split_and!.
  - pose proof Hrun as (g & _ & Hg & _)%recommendations_Ok.
    unfold ndc_metrics in Hg. apply for_each_Ok_each in Hg.
    eapply Forall_forall in Hg as (g1 & g2 & Hbody); [|done].
    apply recommendations_body_Ok in Hbody
      as (? & ? & price & ? & _ & _ & Hprice & _).
    exists price. split; [done|].
    unfold prices_of. apply list_elem_of_In, in_concat.
    exists (price_samples rc c). split; apply list_elem_of_In.
    + by apply list_elem_of_fmap_2, list_elem_of_filter.
    + unfold price_samples. rewrite Hprice. case_match; left.
  - rewrite <-Hrun. unfold recommendations, ndc_metrics.
    destruct (reverted_claims reverts) as [rc'|e]; [|done].
    rewrite !Ok_bind.
    rewrite (for_each_ext (recommendations_body rc' (<[npi:="Unknown"]> dir))
               (recommendations_body rc' dir)); [done|].
    intros g c' _. unfold recommendations_body.
    destruct (c_npi c') as [npi'|]; simpl; [|done].
    destruct (decide (npi = npi')) as [<-|Hne].
    + by rewrite lookup_insert_eq, Hdir.
    + by rewrite lookup_insert_ne.
  - destruct (recommendations_entry _ _ _ _ _ _ Hrun Hc Hndc)
      as (o & Ho & Hondc & Hlist).
    fold rc in Hlist. exists o. split; [done|]. split; [done|].
    set (group := chain_of_group rc dir ndc claims) in *.
    set (chains := chains_of dir ndc claims) in *.
    set (sorted := sort_by nltb cr_avg_price (group <$> chains)) in *.
    assert ("Unknown" ∈ chains) as Hunknown.
    { apply elem_of_first_occurrences, list_elem_of_omap. exists c.
      split; [|done]. by apply list_elem_of_filter. }
    assert (∀ cr, cr ∈ sorted ↔ ∃ chain, chain ∈ chains ∧ cr = group chain)
      as Hsorted.
    { intros cr. unfold sorted. rewrite sort_by_Permutation, list_elem_of_fmap.
      split; intros (chain & ? & ?); eauto. }
    assert (∀ chain, chain ∈ cr_name <$> take 2 sorted ->
                     group chain ∈ take 2 sorted) as Hlisted.
    { intros chain (cr & -> & Hcr)%list_elem_of_fmap.
      assert (cr ∈ sorted) as (chain' & _ & ->)%Hsorted; [|done].
      apply elem_of_take in Hcr as (i & Hi & _).
      by eapply list_elem_of_lookup_2. }
    assert (∀ chain, chain ∉ cr_name <$> take 2 sorted ->
                     group chain ∉ take 2 sorted) as Hunlisted.
    { intros chain Hout' Hin. apply Hout'.
      by apply (list_elem_of_fmap_2 cr_name) in Hin. }
    rewrite Hlist. split_and!; [done|..].
    + intros cr (i & Hi & _)%elem_of_take Hname.
      assert (cr ∈ sorted) as (chain & _ & ->)%Hsorted
        by by eapply list_elem_of_lookup_2.
      simpl in Hname. by subst chain.
    + intros Hlen. rewrite take_ge.
      * apply (list_elem_of_fmap_2' cr_name _ (group "Unknown")); [|done].
        apply Hsorted. eauto.
      * unfold sorted.
        rewrite (Permutation_length (sort_by_Permutation _ _ _)).
        by rewrite length_fmap.
    + intros Horder. apply group_sorted in Horder. fold group chains sorted in Horder.
      split.
      * intros Hout' cr Hcr.
        apply (take_before_rest (key_le nleb cr_avg_price) sorted 2 cr
                 (group "Unknown")); [done..| |by apply Hunlisted].
        apply Hsorted. eauto.
      * intros Hin chain Hin' Hout'.
        apply (take_before_rest (key_le nleb cr_avg_price) sorted 2
                 (group "Unknown") (group chain));
          [done | by apply Hlisted | | by apply Hunlisted].
        apply Hsorted. eauto.
Qed.

Lemma recommendations_unknown_chain_witness :
  ∃ out c,
    recommendations claims_three_chains reverts_three_chains three_chains
      = Ok out ∧
    c ∈ claims_three_chains ∧ c_npi c = Some "p9" ∧
    three_chains !! "p9" = None ∧ c_ndc c = Some "d1" ∧
    chains_of three_chains "d1" claims_three_chains
      = ["ChainA"; "ChainB"; "ChainC"; "Unknown"] ∧
    (fun o => cr_name <$> rec_chain o) <$> out = [["ChainB"; "ChainC"]] ∧
    let rc : gset string := list_to_set (omap r_claim_id reverts_three_chains) in
    let unknown :=
      average_of rc three_chains "d1" "Unknown" claims_three_chains in
    (∃ price, c_price c = Some price ∧
              price ∈ prices_of rc three_chains "d1" "Unknown"
                        claims_three_chains) ∧
    recommendations claims_three_chains reverts_three_chains
      (<["p9" := "Unknown"]> three_chains) = Ok out ∧
    ∃ o, o ∈ out ∧ rec_ndc o = "d1" ∧
         "Unknown" ∈ chains_of three_chains "d1" claims_three_chains ∧
         (∀ cr, cr ∈ rec_chain o -> cr_name cr = "Unknown" ->
                cr_avg_price cr = unknown) ∧
         ((length (chains_of three_chains "d1" claims_three_chains) ≤ 2)%nat ->
          "Unknown" ∈ cr_name <$> rec_chain o) ∧
         (total_preorder_on
            (ndc_averages rc three_chains "d1" claims_three_chains) = true ->
          ("Unknown" ∉ cr_name <$> rec_chain o ->
           ∀ cr, cr ∈ rec_chain o -> nleb (cr_avg_price cr) unknown = true) ∧
          ("Unknown" ∈ cr_name <$> rec_chain o ->
           ∀ chain, chain ∈ chains_of three_chains "d1" claims_three_chains ->
                    chain ∉ cr_name <$> rec_chain o ->
                    nleb unknown
                      (average_of rc three_chains "d1" chain
                         claims_three_chains) = true)).
Proof.
  eexists _, (claim_of "c4" "p9" "d1" 5%float 30%float).
  split; [by vm_compute|].
  assert (claim_of "c4" "p9" "d1" 5%float 30%float ∈ claims_three_chains)
    as Hc by (do 3 right; left).
  split; [exact Hc|]. split; [done|]. split; [by vm_compute|].
  split; [done|]. split; [by vm_compute|]. split; [by vm_compute|].
  exact (recommendations_unknown_chain claims_three_chains
           reverts_three_chains three_chains _ _ "p9" "d1"
           eq_refl Hc eq_refl eq_refl eq_refl).
Defined.

(** C10. The price lists that the averaging loop of [recommendations]
    reaches are not empty, so the loop never divides by zero: the call never
    ends in [ZeroDivisionError], and it returns when the claims have their
    npi, ndc, price and id and the reverts their claim id. *)
Theorem recommendations_no_division_by_zero {num} `{Number num} :
  (∀ (claims : list (claim num)) rc dir g ndc chain_metrics chain prices,
      ndc_metrics claims rc dir = Ok g ->
      (ndc, chain_metrics) ∈ g -> (chain, prices) ∈ chain_metrics ->
      prices ≠ []) ∧
  (∀ (claims : list (claim num)) reverts dir,
      recommendations claims reverts dir ≠ Raise ZeroDivisionError) ∧
  (∀ (claims : list (claim num)) reverts dir,
      Forall has_metrics_fields claims ->
      Forall (fun r => is_Some (r_claim_id r)) reverts ->
      ∃ out, recommendations claims reverts dir = Ok out).
Proof.
  split_and!.
  - intros claims rc dir g ndc cm chain prices Hg Hcm Hprices.
    by eapply ndc_metrics_price_list.
  - intros claims reverts dir. unfold recommendations.
    destruct (reverted_claims_cases reverts) as [[_ ->]|[_ ->]]; [|done].
    rewrite Ok_bind.
    destruct (ndc_metrics claims _ dir) as [g|e] eqn:Hg.
    + rewrite Ok_bind.
      by destruct (recommendations_output_total _ _ _ _ Hg) as [out ->].
    + rewrite Raise_bind. intros [= ->].
      apply for_each_Raise in Hg as (g & c & _ & Hc).
      by apply recommendations_body_Raise in Hc as [k ?].
  - intros claims reverts dir. apply recommendations_total.
Qed.

(** * Further properties *)

(** ** process_data *)

Section ProcessDataFacts.
Context {num : Type} `{Number num}.
Implicit Types (c : claim num) (rc : gset string) (dir : gmap string string)
  (d : list (string * num)).

Lemma process_data_body_Ok rc dir d c d' :
  process_data_body rc dir d c = Ok d' ->
  d' = match revenue_chain rc dir c with
       | Some chain => dict_update d chain (of_int 0) (add_claim_price c)
       | None => d
       end.
Proof.
  unfold process_data_body, revenue_chain, add_claim_price, add_revenue.
  destruct (c_npi c) as [npi|]; simpl; [|done].
  destruct (dir !! npi) as [chain|]; simpl; [|by intros [= <-]].
  destruct (c_id c) as [cid|]; simpl; [|done].
  destruct (decide (cid ∈ rc)).
  - rewrite decide_False by tauto. by intros [= <-].
  - rewrite decide_True by done.
    destruct (c_price c) as [price|]; simpl; [|done]. by intros [= <-].
Qed.

Lemma process_data_body_fields rc dir d c :
  (∃ d', process_data_body rc dir d c = Ok d') ↔ has_revenue_fields rc dir c.
Proof.
  unfold process_data_body, has_revenue_fields. split.
  - intros [d' Hrun]. destruct (c_npi c) as [npi|]; simpl in *; [|done].
    exists npi. split; [done|]. intros [chain Hchain]. rewrite Hchain in Hrun.
    destruct (c_id c) as [cid|]; simpl in *; [|done].
    exists cid. split; [done|]. intros Hrc.
    rewrite decide_True in Hrun by done.
    destruct (c_price c); [eauto | done].
  - intros (npi & -> & Hknown). simpl.
    destruct (dir !! npi) as [chain|]; [|eauto].
    destruct Hknown as (cid & -> & Hprice); [eauto|]. simpl.
    case_decide; [|eauto]. destruct Hprice as [price ->]; [done|].
    simpl. eauto.
Qed.

Lemma process_data_body_price rc dir d c d' chain :
  process_data_body rc dir d c = Ok d' -> revenue_chain rc dir c = Some chain ->
  is_Some (c_price c).
Proof.
  unfold process_data_body, revenue_chain.
  destruct (c_npi c) as [npi|]; simpl; [|done].
  destruct (dir !! npi) as [chain'|]; simpl; [|done].
  destruct (c_id c) as [cid|]; simpl; [|done].
  destruct (decide (cid ∈ rc)); [done|]. rewrite decide_True by done.
  destruct (c_price c); [eauto | done].
Qed.

Lemma process_data_body_Raise rc dir d c e :
  process_data_body rc dir d c = Raise e -> ∃ k, e = KeyError k.
Proof.
  unfold process_data_body.
  destruct (c_npi c) as [npi|]; simpl; [|intros [= <-]; eauto].
  destruct (dir !! npi) as [chain|]; simpl; [|done].
  destruct (c_id c) as [cid|]; simpl; [|intros [= <-]; eauto].
  case_decide; [|done].
  destruct (c_price c); simpl; [done | intros [= <-]; eauto].
Qed.

Lemma process_data_body_passed_over rc dir d c :
  passed_over rc dir c = true -> process_data_body rc dir d c = Ok d.
Proof.
  unfold passed_over, process_data_body, claim_reverted.
  destruct (c_npi c) as [npi|]; simpl; [|done].
  destruct (dir !! npi) as [chain|]; simpl; [|done].
  destruct (c_id c) as [cid|]; simpl; [|done].
  intros Hrc%bool_decide_eq_true. by rewrite decide_False by tauto.
Qed.

Lemma process_data_body_agree (claims : list (claim num)) rc rc' dir d c :
  agree_on_claims claims rc rc' -> c ∈ claims ->
  process_data_body rc dir d c = process_data_body rc' dir d c.
Proof.
  intros Hagree Hc. unfold process_data_body.
  destruct (c_npi c) as [npi|]; simpl; [|done].
  destruct (dir !! npi) as [chain|]; simpl; [|done].
  destruct (c_id c) as [cid|] eqn:Hid; simpl; [|done].
  pose proof (claim_id_agree _ _ _ _ _ Hagree Hc Hid).
  repeat case_decide; tauto.
Qed.

Lemma process_data_Ok dir (claims : list (claim num)) reverts out :
  process_data dir claims reverts = Ok out ->
  ∃ d, reverted_claims reverts = Ok (list_to_set (omap r_claim_id reverts)) ∧
       for_each (process_data_body (list_to_set (omap r_claim_id reverts)) dir)
         [] claims = Ok d ∧
       out = sort_by (fun a b => nltb b a) snd d.
Proof.
  unfold process_data. intros Hrun. ok_steps.
  apply reverted_claims_Ok in Ha as Hrc. subst a. eauto.
Qed.

Lemma process_data_total dir (claims : list (claim num)) reverts :
  Forall (fun r => is_Some (r_claim_id r)) reverts ->
  Forall (has_revenue_fields (list_to_set (omap r_claim_id reverts)) dir)
    claims ->
  ∃ out, process_data dir claims reverts = Ok out.
Proof.
  intros Hreverts Hclaims. unfold process_data.
  destruct (reverted_claims_cases reverts) as [[_ ->]|[Hnot _]]; [|done].
  rewrite Ok_bind.
  destruct (for_each_total
              (process_data_body (list_to_set (omap r_claim_id reverts)) dir)
              claims) with (s := @nil (string * num)) as [d ->].
  - eapply Forall_impl; [done|]. intros c Hc d.
    by apply process_data_body_fields.
  - rewrite Ok_bind. eauto.
Qed.

(** The revenue of a chain is the sum of its prices. *)
Lemma revenue_sum rc dir chain (claims : list (claim num)) :
  Forall (fun c => revenue_chain rc dir c = Some chain -> is_Some (c_price c))
    claims ->
  foldl (fun v c => add_claim_price c v) (of_int 0)
    (filter (fun c => revenue_chain rc dir c = Some chain) claims) =
  sum (revenue_prices rc dir chain claims) ∧
  (filter (fun c => revenue_chain rc dir c = Some chain) claims ≠ [] ↔
   revenue_prices rc dir chain claims ≠ []).
Proof.
  unfold sum, revenue_prices. intros Hall. generalize (of_int 0).
  induction Hall as [|c claims Hc _ IH]; intros v0; [done|].
  rewrite filter_cons. case_decide as Hchain; [|apply IH].
  destruct (Hc Hchain) as [price Hprice]. csimpl.
  rewrite Hprice. simpl. unfold add_claim_price at 2. rewrite Hprice. simpl.
  split; [apply IH | done].
Qed.

End ProcessDataFacts.

Section ProcessDataProperties.
Context {num : Type} `{Number num}.
Implicit Types (claims : list (claim num)) (dir : gmap string string).

(** X1. [process_data] lists every chain once, and a chain is listed exactly
    when some claim of a pharmacy of that chain is not reverted; its revenue
    is the sum, in the order of the claims, of the prices of those claims. *)
Theorem process_data_revenues dir claims reverts out :
  process_data dir claims reverts = Ok out ->
  let rc : gset string := list_to_set (omap r_claim_id reverts) in
  NoDup out.*1 ∧
  ∀ chain revenue,
    (chain, revenue) ∈ out ↔
    revenue_prices rc dir chain claims ≠ [] ∧
    revenue = sum (revenue_prices rc dir chain claims).
Proof.
  intros (d & _ & Hloop & ->)%process_data_Ok rc. fold rc in Hloop.
  pose proof (process_data_body_Ok rc dir) as Hbody.
  split.
  - rewrite sort_by_Permutation.
    eapply (tally_loop_NoDup _ _ _ _ Hbody); [|done]. constructor.
  - intros chain revenue. rewrite sort_by_Permutation.
    rewrite (tally_loop_elem_of _ _ _ _ Hbody claims d chain revenue Hloop).
    destruct (revenue_sum rc dir chain claims) as [-> ->]; [|done].
    eapply Forall_impl; [by eapply for_each_Ok_each|].
    intros c (d1 & d2 & Hc) Hchain. by eapply process_data_body_price.
Qed.

(** X2. The revenues in the output of [process_data] are in descending order
    whenever [<] and [<=] order them totally, which they do on binary64
    unless a revenue is a NaN. *)
Theorem process_data_descending dir claims reverts out :
  process_data dir claims reverts = Ok out ->
  total_preorder_on out.*2 = true ->
  descending out.*2.
Proof.
  intros (d & _ & _ & Hout)%process_data_Ok
    (Hlt & Htotal & Htrans)%total_preorder_on_spec.
  intros i j a b Hij Hi Hj.
  apply list_lookup_fmap_Some in Hi as (x & -> & Hi).
  apply list_lookup_fmap_Some in Hj as (y & -> & Hj).
  apply (StronglySorted_before (key_le (fun a b => nleb b a) snd) out);
    [|by eapply lookup_before].
  rewrite Hout at 1.
  apply (sort_by_sorted (fun a b => nltb b a) (fun a b => nleb b a) snd
           (fun a => a ∈ out.*2)); [by auto..| |].
  - intros a b c Ha Hb Hc Hba Hcb. by apply (Htrans c b a).
  - apply Forall_forall. intros e He. apply list_elem_of_fmap_2.
    by rewrite Hout, sort_by_Permutation.
Qed.

(** X3. Chains of equal revenue are listed by [process_data] in the order
    in which their first counted claims come, whenever [<] and [<=] order
    the revenues totally and strictly. *)
Theorem process_data_ties dir claims reverts out :
  process_data dir claims reverts = Ok out ->
  total_preorder_on out.*2 = true -> strict_on out.*2 = true ->
  let rc : gset string := list_to_set (omap r_claim_id reverts) in
  ∀ i j a b,
    i < j -> out !! i = Some a -> out !! j = Some b ->
    nleb a.2 b.2 = true ->
    before a.1 b.1 (first_occurrences (omap (revenue_chain rc dir) claims)).
Proof.
  intros (d & _ & Hloop & Hout)%process_data_Ok
    (Hlt & Htotal & Htrans)%total_preorder_on_spec Hstrict rc
    i j a b Hij Hi Hj Htie.
  fold rc in Hloop.
  rewrite <-(tally_loop_first_occurrences _ _ _ _ (process_data_body_Ok rc dir)
               claims d Hloop).
  assert (before a b out) as Hab by by eapply lookup_before.
  assert (∀ x y, x ∈ out.*2 -> y ∈ out.*2 ->
                 nltb y x = true -> nleb x y = false) as Hstrict'.
  { intros x y Hx%list_elem_of_In Hy%list_elem_of_In Hyx.
    unfold strict_on in Hstrict. rewrite forallb_forall in Hstrict.
    specialize (Hstrict y Hy). rewrite forallb_forall in Hstrict.
    specialize (Hstrict x Hx). rewrite Hyx in Hstrict. simpl in Hstrict.
    by apply negb_true_iff. }
  assert (Forall (fun e => e.2 ∈ out.*2) d) as Hkeys.
  { apply Forall_forall. intros e He. apply list_elem_of_fmap_2.
    by rewrite Hout, sort_by_Permutation. }
  assert (StronglySorted (key_le (fun a b => nleb b a) snd) out) as Hsorted.
  { rewrite Hout at 1.
    apply (sort_by_sorted (fun a b => nltb b a) (fun a b => nleb b a) snd
             (fun a => a ∈ out.*2)); [by auto..| |done].
    intros x y z Hx Hy Hz Hyx Hzy. by apply (Htrans z y x). }
  apply (fmap_sublist fst [a; b] d).
  apply (sort_by_before (fun a b => nltb b a) (fun a b => nleb b a) snd
           (fun a => a ∈ out.*2)); [by auto..| | |done| | |].
  - intros x y z Hx Hy Hz Hyx Hzy. by apply (Htrans z y x).
  - by auto.
  - apply list_elem_of_lookup_2 in Hi.
    by rewrite Hout, sort_by_Permutation in Hi.
  - by rewrite <-Hout.
  - split; [done|].
    by apply (StronglySorted_before (key_le (fun a b => nleb b a) snd) out).
Qed.

(** X4. The claims of pharmacies that are not in the directory and the
    reverted claims of the others add nothing: without them [process_data]
    gives the same result, fault or not. *)
Theorem process_data_passed_over dir claims reverts :
  let rc : gset string := list_to_set (omap r_claim_id reverts) in
  process_data dir (filter (fun c => passed_over rc dir c = false) claims)
    reverts = process_data dir claims reverts.
Proof.
  intros rc. unfold process_data.
  destruct (reverted_claims_cases reverts) as [[_ ->]|[_ ->]];
    rewrite ?Ok_bind, ?Raise_bind; [|done].
  fold rc. f_equal. generalize (@nil (string * num)).
  induction claims as [|c claims IH]; intros d; [done|].
  rewrite filter_cons. destruct (passed_over rc dir c) eqn:Hc.
  - rewrite decide_False by done. simpl.
    by rewrite process_data_body_passed_over, Ok_bind.
  - rewrite decide_True by done. simpl.
    destruct (process_data_body rc dir d c); simpl; [apply IH | done].
Qed.

(** X5. [process_data] returns a list exactly when every revert has a
    claim_id, every claim an npi, every claim of a pharmacy of the directory
    an id and every such claim that is not reverted a price; otherwise it
    raises a KeyError. *)
Theorem process_data_succeeds dir claims reverts :
  let rc : gset string := list_to_set (omap r_claim_id reverts) in
  ((∃ out, process_data dir claims reverts = Ok out) ↔
   Forall (fun r => is_Some (r_claim_id r)) reverts ∧
   Forall (has_revenue_fields rc dir) claims) ∧
  (∀ e, process_data dir claims reverts = Raise e -> ∃ k, e = KeyError k).
Proof.
  intros rc. unfold process_data.
  destruct (reverted_claims_cases reverts) as [[Hall ->]|[Hnot ->]];
    rewrite ?Ok_bind, ?Raise_bind; fold rc.
  - split; [split|].
    + intros [out Hrun]. split; [done|]. ok_steps.
      eapply Forall_impl; [by eapply for_each_Ok_each|].
      intros c (d1 & d2 & Hc). apply (process_data_body_fields rc dir d1). eauto.
    + intros [_ Hclaims].
      destruct (for_each_total (process_data_body rc dir) claims)
        with (s := @nil (string * num)) as [d ->].
      * eapply Forall_impl; [done|]. intros c Hc d.
        by apply process_data_body_fields.
      * rewrite Ok_bind. eauto.
    + intros e Hrun.
      destruct (for_each (process_data_body rc dir) [] claims) as [d|e']
        eqn:Hloop; simpl in Hrun; [done|]. injection Hrun as <-.
      apply for_each_Raise in Hloop as (d & c & _ & Hc).
      by eapply process_data_body_Raise.
  - split; [split|].
    + by intros [out ?].
    + by intros [? _].
    + intros e [= <-]. eauto.
Qed.

(** X6. [process_data] depends on the reverts only through the set of
    their claim ids. *)
Theorem process_data_reverts_as_set dir claims :
  reverts_as_set claims (process_data dir claims).
Proof.
  apply (reverts_as_set_intro claims (fun rc =>
    pharmacy_revenues ← for_each (process_data_body rc dir) [] claims;
    Ok (sort_by (fun a b => nltb b a) snd pharmacy_revenues))).
  intros rc rc' Hagree.
  rewrite (for_each_ext (process_data_body rc dir) (process_data_body rc' dir));
    [done|].
  intros d c Hc. by eapply process_data_body_agree.
Qed.

End ProcessDataProperties.

Lemma process_data_ties_witness :
  process_data three_chains claims_tie [] = Ok revenues_tie ∧
  total_preorder_on revenues_tie.*2 = true ∧
  strict_on revenues_tie.*2 = true ∧
  ∀ i j a b,
    i < j -> revenues_tie !! i = Some a -> revenues_tie !! j = Some b ->
    nleb a.2 b.2 = true ->
    before a.1 b.1
      (first_occurrences
         (omap (revenue_chain (list_to_set (omap r_claim_id [])) three_chains)
               claims_tie)).
Proof.
  split; [by vm_compute|]. split; [by vm_compute|]. split; [by vm_compute|].
  exact (process_data_ties three_chains claims_tie [] revenues_tie
           eq_refl eq_refl eq_refl).
Defined.

Lemma process_data_revenues_witness :
  process_data three_chains claims_three_chains reverts_three_chains
    = Ok revenues_three_chains ∧
  NoDup revenues_three_chains.*1 ∧
  ∀ chain revenue,
    (chain, revenue) ∈ revenues_three_chains ↔
    revenue_prices (list_to_set (omap r_claim_id reverts_three_chains))
      three_chains chain claims_three_chains ≠ [] ∧
    revenue = sum (revenue_prices
                     (list_to_set (omap r_claim_id reverts_three_chains))
                     three_chains chain claims_three_chains).
Proof.
  split; [by vm_compute|].
  exact (process_data_revenues three_chains claims_three_chains
           reverts_three_chains revenues_three_chains eq_refl).
Defined.

Lemma process_data_descending_witness :
  process_data three_chains claims_three_chains reverts_three_chains
    = Ok revenues_three_chains ∧
  total_preorder_on revenues_three_chains.*2 = true ∧
  descending revenues_three_chains.*2.
Proof.
  split; [by vm_compute|]. split; [by vm_compute|].
  exact (process_data_descending three_chains claims_three_chains
           reverts_three_chains revenues_three_chains eq_refl eq_refl).
Defined.

(** ** calculate_metrics, key by key *)

Section MetricsByKey.
Context {num : Type} `{Number num}.
Implicit Types (c : claim num) (rc : gset string) (claims : list (claim num)).

Lemma metrics_body_tally rc m c m' :
  metrics_body rc m c = Ok m' ->
  m' = match metrics_key c with
       | Some key => dict_update m key metric_default (count_of_claim rc c)
       | None => m
       end.
Proof.
  intros (npi & ndc & price & cid & Hnpi & Hndc & Hprice & Hid & ->)
    %metrics_body_Ok.
  unfold metrics_key, count_of_claim, claim_reverted.
  by rewrite Hnpi, Hndc, Hprice, Hid.
Qed.

Lemma metrics_body_price rc m c m' :
  metrics_body rc m c = Ok m' -> is_Some (metrics_key c) ∧ is_Some (c_price c).
Proof.
  intros (npi & ndc & price & cid & Hnpi & Hndc & Hprice & Hid & ->)
    %metrics_body_Ok.
  unfold metrics_key. rewrite Hnpi, Hndc, Hprice. eauto.
Qed.

(** The entry of a key after its claims were counted one by one. *)
Lemma count_of_claims rc (cs : list (claim num)) (v : metric num) :
  Forall (fun c => is_Some (c_price c)) cs ->
  let v' := foldl (fun v c => count_of_claim rc c v) v cs in
  fills v' = (fills v + Z.of_nat (length cs))%Z ∧
  reverted v' =
    (reverted v +
     Z.of_nat (length (filter (fun c => claim_reverted rc c = true) cs)))%Z ∧
  total_price v' = foldl nadd (total_price v) (omap c_price cs).
Proof.
  intros Hcs. revert v. induction Hcs as [|c cs [price Hc] _ IH]; intros v.
  - simpl. split_and!; [lia | lia | done].
  - simpl. destruct (IH (count_of_claim rc c v)) as (-> & -> & ->).
    unfold count_of_claim. simpl. rewrite Hc. simpl.
    rewrite filter_cons. split_and!; [lia | | done].
    destruct (claim_reverted rc c).
    + rewrite decide_True by done. simpl. lia.
    + rewrite decide_False by done. lia.
Qed.

(** X7. [calculate_metrics] returns one record for every (npi, ndc) pair of
    the claims, in the order in which the pairs are first met. *)
Theorem metrics_record_order claims reverts recs :
  calculate_metrics claims reverts = Ok recs ->
  record_key <$> recs = first_occurrences (omap metrics_key claims).
Proof.
  intros (rc & m & _ & Hloop & ->)%calculate_metrics_Ok.
  rewrite <-(tally_loop_first_occurrences _ _ _ _ (metrics_body_tally rc)
               claims m Hloop).
  rewrite <-list_fmap_compose. apply list_fmap_ext.
  by intros _ [[npi ndc] v] _.
Qed.

(** X8. In a record of [calculate_metrics], fills is the number of claims
    of its (npi, ndc) pair, reverted the number of those whose id is in the
    reversal set, and total_price the sum of their prices in the order of
    the claims, reverted or not. *)
Theorem metrics_record_aggregates claims reverts recs :
  calculate_metrics claims reverts = Ok recs ->
  let rc : gset string := list_to_set (omap r_claim_id reverts) in
  Forall (fun r =>
            let cs := claims_of_key (record_key r) claims in
            mr_fills r = Z.of_nat (length cs) ∧
            mr_reverted r =
              Z.of_nat (length (filter (fun c => claim_reverted rc c = true) cs)) ∧
            mr_total_price r = sum (omap c_price cs))
         recs.
Proof.
  intros (rc' & m & Hrc & Hloop & ->)%calculate_metrics_Ok rc.
  apply reverted_claims_Ok in Hrc. subst rc'.
  apply Forall_fmap, Forall_forall. intros [[npi ndc] v] Hv.
  apply (tally_loop_elem_of _ _ _ _ (metrics_body_tally rc) claims m
           (npi, ndc) v Hloop) in Hv as [_ ->].
  unfold record_key, claims_of_key. simpl.
  destruct (count_of_claims rc
              (filter (fun c => metrics_key c = Some (npi, ndc)) claims)
              metric_default) as (-> & -> & ->); [|by split_and!].
  apply Forall_forall. intros c [_ Hc]%list_elem_of_filter.
  revert c Hc. apply Forall_forall. clear -Hloop.
  eapply Forall_impl; [by eapply for_each_Ok_each|].
  intros c (m1 & m2 & Hc). by eapply metrics_body_price.
Qed.

End MetricsByKey.

Lemma metrics_record_order_witness :
  ∃ recs,
    calculate_metrics claims_three_chains reverts_three_chains = Ok recs ∧
    record_key <$> recs = keys_three_chains ∧
    record_key <$> recs =
      first_occurrences (omap metrics_key claims_three_chains).
Proof.
  eexists. split; [by vm_compute|]. split; [by vm_compute|].
  exact (metrics_record_order claims_three_chains reverts_three_chains _
           eq_refl).
Defined.

Lemma metrics_record_aggregates_witness :
  ∃ recs,
    calculate_metrics claims_three_chains reverts_three_chains = Ok recs ∧
    mr_reverted <$> recs = [0; 1; 0; 0]%Z ∧
    Forall (fun r =>
              let cs := claims_of_key (record_key r) claims_three_chains in
              mr_fills r = Z.of_nat (length cs) ∧
              mr_reverted r =
                Z.of_nat (length (filter
                  (fun c => claim_reverted
                     (list_to_set (omap r_claim_id reverts_three_chains)) c
                     = true) cs)) ∧
              mr_total_price r = sum (omap c_price cs))
           recs.
Proof.
  eexists. split; [by vm_compute|]. split; [by vm_compute|].
  exact (metrics_record_aggregates claims_three_chains reverts_three_chains _
           eq_refl).
Defined.

(** ** The exception of a run *)

Lemma for_each_first_fault {S A} (body : S -> A -> result S)
    (fault : A -> option exn) l :
  (∀ s x, outcome (body s x) (fault x)) ->
  ∀ s, outcome (for_each body s l) (head (omap fault l)).
Proof.
  intros Hbody. induction l as [|x l IH]; intros s; csimpl.
  - eauto.
  - specialize (Hbody s x). destruct (fault x) as [e|]; simpl in *.
    + by rewrite Hbody.
    + destruct Hbody as [s1 ->]. simpl. apply IH.
Qed.

Section FirstFault.
Context {num : Type} `{Number num}.
Implicit Types (c : claim num) (rc : gset string) (claims : list (claim num)).

Lemma metrics_body_fault rc m c :
  outcome (metrics_body rc m c) (KeyError <$> missing_field (metrics_reads c)).
Proof.
  unfold metrics_body, missing_field, metrics_reads.
  destruct (c_npi c), (c_ndc c), (c_price c), (c_id c); simpl; try done.
  case_decide; eauto.
Qed.

Lemma recommendations_body_fault rc dir g c :
  outcome (recommendations_body rc dir g c)
    (KeyError <$> missing_field (metrics_reads c)).
Proof.
  unfold recommendations_body, missing_field, metrics_reads.
  destruct (c_npi c), (c_ndc c), (c_price c), (c_id c); simpl; try done.
  case_decide; eauto.
Qed.

Lemma most_prescribed_body_fault rc d c :
  outcome (most_prescribed_body rc d c)
    (KeyError <$> missing_field (ranking_reads c)).
Proof.
  unfold most_prescribed_body, missing_field, ranking_reads.
  destruct (c_npi c), (c_ndc c), (c_id c); simpl; try done.
  case_decide; eauto.
Qed.

(** An aggregator raises what its first loop raises, after the reversal
    set. *)
Lemma aggregator_first_fault {S B} (body : gset string -> S -> claim num -> result S)
    (finish : S -> result B) (reads : claim num -> list (string * bool))
    s0 claims reverts :
  (∀ rc s c, outcome (body rc s c) (KeyError <$> missing_field (reads c))) ->
  (∀ rc s, for_each (body rc) s0 claims = Ok s -> ∃ out, finish s = Ok out) ->
  outcome (rc ← reverted_claims reverts;
           s ← for_each (body rc) s0 claims; finish s)
    (first_fault reads claims reverts).
Proof.
  intros Hbody Hfinish. unfold first_fault.
  destruct (reverted_claims_cases reverts) as [[Hall ->]|[Hnot ->]].
  - rewrite decide_True, Ok_bind by done.
    pose proof (for_each_first_fault
                  (body (list_to_set (omap r_claim_id reverts)))
                  (fun c => KeyError <$> missing_field (reads c)) claims
                  (Hbody _) s0) as Hloop.
    destruct (head _) as [e|]; simpl in *.
    + by rewrite Hloop.
    + destruct Hloop as [s Hs]. rewrite Hs, Ok_bind. by eapply Hfinish.
  - by rewrite decide_False by done.
Qed.

(** X9. What an aggregator raises: the KeyError of claim_id when a revert
    has none, whatever the claims; otherwise the KeyError of the first
    field, in the order npi, ndc, price, id ([most_prescribed]: npi, ndc,
    id), that the first incomplete claim lacks; and it returns when there is
    neither. *)
Theorem aggregators_first_fault claims reverts dir :
  outcome (calculate_metrics claims reverts)
    (first_fault metrics_reads claims reverts) ∧
  outcome (recommendations claims reverts dir)
    (first_fault metrics_reads claims reverts) ∧
  outcome (most_prescribed claims reverts)
    (first_fault ranking_reads claims reverts).
Proof.
  split_and!.
  - apply (aggregator_first_fault metrics_body
             (fun m => Ok (map metric_output m))).
    + intros. apply metrics_body_fault.
    + eauto.
  - apply (aggregator_first_fault
             (fun rc => recommendations_body rc dir)
             (fun g => comprehension ndc_output g)).
    + intros. apply recommendations_body_fault.
    + intros rc g Hg. by eapply recommendations_output_total.
  - apply (aggregator_first_fault most_prescribed_body
             (fun d => Ok (map most_prescribed_output d))).
    + intros. apply most_prescribed_body_fault.
    + eauto.
Qed.

End FirstFault.

(** ** recommendations: the chain lists *)

Section RecommendationsByNdc.
Context {num : Type} `{Number num}.
Implicit Types (c : claim num) (rc : gset string) (claims : list (claim num))
  (dir : gmap string string).

(** X10. The output of [recommendations], from the claims alone: one entry
    for every ndc of the claims, in the order in which the ndcs are first
    met; and, whenever [<] and [<=] order the averages of the ndc totally
    and strictly, its chain list is the first two of the ranking of the
    chains that sell it, each with the average of its price list, by
    ascending average, chains of equal average in the order in which they
    are first met: that order decides which of them are listed. *)
Theorem recommendations_by_group claims reverts dir out :
  recommendations claims reverts dir = Ok out ->
  let rc : gset string := list_to_set (omap r_claim_id reverts) in
  rec_ndc <$> out = first_occurrences (omap c_ndc claims) ∧
  Forall (fun o =>
            let candidates :=
              chain_of_group rc dir (rec_ndc o) claims <$>
              chains_of dir (rec_ndc o) claims in
            let averages := ndc_averages rc dir (rec_ndc o) claims in
            total_preorder_on averages = true -> strict_on averages = true ->
            ∃ ranking, rec_chain o = take 2 ranking ∧
                       stable_ranking candidates ranking)
         out.
Proof.
  intros Hrun rc. split.
  - pose proof Hrun as (g & _ & Hg & Hout)%recommendations_Ok.
    rewrite <-(tally_loop_first_occurrences _ _ _ _
                 (recommendations_body_tally _ dir) claims g Hg).
    clear -Hout. induction Hout as [|e o g out Heo _ IH]; [done|]. csimpl.
    apply ndc_output_Ok in Heo as (avgs & _ & Hndc & _). by rewrite Hndc, IH.
  - apply Forall_forall. intros o Ho. cbv zeta. intros Horder Hstrict.
    pose proof (recommendations_entry_of _ _ _ _ _ Hrun Ho) as Hlist.
    fold rc in Hlist.
    pose proof (group_sorted _ _ _ _ Horder) as Hsorted.
    pose proof (strict_on_spec _ Hstrict) as Hlt_strict.
    apply total_preorder_on_spec in Horder as (Hlt & Htotal & Htrans).
    set (candidates := chain_of_group rc dir (rec_ndc o) claims <$>
                       chains_of dir (rec_ndc o) claims) in *.
    exists (sort_by nltb cr_avg_price candidates). split; [done|]. split.
    + apply sort_by_Permutation.
    + intros i j a b Hij Hi Hj.
      assert (before a b (sort_by nltb cr_avg_price candidates)) as Hab
        by by eapply lookup_before.
      assert (nleb (cr_avg_price a) (cr_avg_price b) = true) as Hle
        by by apply (StronglySorted_before (key_le nleb cr_avg_price)
                       (sort_by nltb cr_avg_price candidates)).
      split; [done|]. intros Hge.
      apply (sort_by_before nltb nleb cr_avg_price
               (fun x => x ∈ ndc_averages rc dir (rec_ndc o) claims));
        [done..| | |done|done].
      * apply Forall_forall. intros cr Hcr. rewrite <-group_averages.
        by apply list_elem_of_fmap_2.
      * apply list_elem_of_lookup_2 in Hi.
        by rewrite sort_by_Permutation in Hi.
Qed.

(** X11. The chain list of an entry of [recommendations] has two chains when
    two or more chains sell the ndc and one otherwise, "Unknown" counted as a
    chain; the names are distinct and are names of chains that sell it. *)
Theorem recommendations_chain_count claims reverts dir out :
  recommendations claims reverts dir = Ok out ->
  Forall (fun o =>
            let chains := chains_of dir (rec_ndc o) claims in
            chains ≠ [] ∧
            length (rec_chain o) = min 2 (length chains) ∧
            NoDup (cr_name <$> rec_chain o) ∧
            (∀ cr, cr ∈ rec_chain o -> cr_name cr ∈ chains))
         out.
Proof.
  intros (g & _ & Hg & Hout)%recommendations_Ok.
  apply Forall_forall. intros o Ho.
  destruct (Forall2_elem_of_r _ _ _ _ Hout Ho) as ([ndc cm] & Hcm & Hoe).
  destruct (ndc_output_chains _ _ _ _ _ _ _ Hg Hcm Hoe)
    as (sorted & -> & -> & Hnames & _). cbv zeta.
  assert (chains_of dir ndc claims ≠ []) as Hne.
  { apply (tally_loop_elem_of _ _ _ _ (recommendations_body_tally _ dir)
             claims g ndc cm Hg) in Hcm as [Hne _].
    destruct (filter _ claims) as [|c cs] eqn:Hfilter; [done|].
    assert (c ∈ filter (fun c => c_ndc c = Some ndc) claims)
      as Hc by (rewrite Hfilter; left).
    assert (is_Some (c_npi c)) as [npi Hnpi].
    { apply list_elem_of_filter in Hc as [_ Hc].
      unfold ndc_metrics in Hg. apply for_each_Ok_each in Hg.
      eapply Forall_forall in Hg as (g1 & g2 & Hbody); [|done].
      apply recommendations_body_Ok in Hbody
        as (? & ? & ? & ? & -> & _). eauto. }
    intros Hnil.
    assert (default "Unknown" (dir !! npi) ∈ chains_of dir ndc claims)
      as Hin; [|rewrite Hnil in Hin; by inv Hin].
    apply elem_of_first_occurrences, list_elem_of_omap. exists c.
    split; [done|]. unfold resolved_chain. by rewrite Hnpi. }
  split_and!; [done|..].
  - rewrite length_take, <-Hnames, length_fmap. lia.
  - rewrite fmap_take. eapply sublist_NoDup; [|apply sublist_take].
    rewrite Hnames. apply NoDup_first_occurrences.
  - intros cr (i & Hi & _)%elem_of_take. rewrite <-Hnames.
    apply list_elem_of_fmap_2. by eapply list_elem_of_lookup_2.
Qed.

(** X12. The chains listed for an ndc are the cheapest: the average of a
    chain that sells the ndc and is not listed is not below the average of
    a listed one, whenever [<] and [<=] order the averages of the run
    totally. *)
Theorem recommendations_cheapest claims reverts dir out :
  recommendations claims reverts dir = Ok out ->
  total_preorder_on (all_averages claims reverts dir) = true ->
  let rc : gset string := list_to_set (omap r_claim_id reverts) in
  Forall (fun o =>
            ∀ cr chain,
              cr ∈ rec_chain o ->
              chain ∈ chains_of dir (rec_ndc o) claims ->
              chain ∉ cr_name <$> rec_chain o ->
              nleb (cr_avg_price cr)
                   (average_of rc dir (rec_ndc o) chain claims) = true)
         out.
Proof.
  intros (g & Hrc & Hg & Hout)%recommendations_Ok Horder rc.
  assert (all_averages claims reverts dir = averages g) as Hall.
  { unfold all_averages. by rewrite Hrc, Ok_bind, Hg. }
  rewrite Hall in Horder.
  apply Forall_forall. intros o Ho cr chain Hcr Hchain Hout'.
  destruct (Forall2_elem_of_r _ _ _ _ Hout Ho) as ([ndc cm] & Hcm & Hoe).
  destruct (ndc_output_chains _ _ _ _ _ _ _ Hg Hcm Hoe)
    as (sorted & Hndc & Hlist & Hnames & Hsorted & Hsort).
  rewrite Hndc in *. rewrite Hlist in *.
  apply elem_of_take in Hcr as (i & Hi & Hi2).
  rewrite <-Hnames in Hchain.
  apply list_elem_of_fmap in Hchain as (cr' & -> & Hcr').
  apply list_elem_of_lookup_1 in Hcr' as [j Hj].
  assert (2 ≤ j)%nat as Hj2.
  { destruct (decide (2 ≤ j)%nat) as [|Hlt]; [done|]. exfalso. apply Hout'.
    apply list_elem_of_fmap_2, elem_of_take. exists j. split; [done | lia]. }
  pose proof Hsorted as Hsorted'.
  eapply Forall_forall in Hsorted' as [<- _];
    [|by eapply list_elem_of_lookup_2].
  apply (StronglySorted_before (key_le nleb cr_avg_price) sorted).
  - apply Hsort; [|done]. eapply Forall_impl; [done|]. by intros ? [_ ?].
  - eapply lookup_before; [|done..]. lia.
Qed.

End RecommendationsByNdc.

Lemma recommendations_chain_count_witness :
  ∃ out,
    recommendations claims_three_chains reverts_three_chains three_chains
      = Ok out ∧
    (fun o => chains_of three_chains (rec_ndc o) claims_three_chains) <$> out
      = [["ChainA"; "ChainB"; "ChainC"; "Unknown"]] ∧
    Forall (fun o =>
              let chains :=
                chains_of three_chains (rec_ndc o) claims_three_chains in
              chains ≠ [] ∧
              length (rec_chain o) = min 2 (length chains) ∧
              NoDup (cr_name <$> rec_chain o) ∧
              (∀ cr, cr ∈ rec_chain o -> cr_name cr ∈ chains))
           out.
Proof.
  eexists. split; [by vm_compute|]. split; [by vm_compute|].
  exact (recommendations_chain_count claims_three_chains reverts_three_chains
           three_chains _ eq_refl).
Defined.

Lemma recommendations_cheapest_witness :
  ∃ out,
    recommendations claims_three_chains reverts_three_chains three_chains
      = Ok out ∧
    total_preorder_on
      (all_averages claims_three_chains reverts_three_chains three_chains)
      = true ∧
    Forall (fun o =>
              ∀ cr chain,
                cr ∈ rec_chain o ->
                chain ∈ chains_of three_chains (rec_ndc o) claims_three_chains ->
                chain ∉ cr_name <$> rec_chain o ->
                nleb (cr_avg_price cr)
                     (average_of
                        (list_to_set (omap r_claim_id reverts_three_chains))
                        three_chains (rec_ndc o) chain claims_three_chains)
                  = true)
           out.
Proof.
  eexists. split; [by vm_compute|]. split; [by vm_compute|].
  exact (recommendations_cheapest claims_three_chains reverts_three_chains
           three_chains _ eq_refl eq_refl).
Defined.

(** ** most_prescribed, ndc by ndc *)

Section MostPrescribedByNdc.
Context {num : Type} `{Number num}.
Implicit Types (c : claim num) (rc : gset string) (claims : list (claim num)).

Lemma most_prescribed_body_tally rc d c d' :
  most_prescribed_body rc d c = Ok d' ->
  d' = match ranking_key rc c with
       | Some ndc => dict_update d ndc [] (append (claim_quantity c))
       | None => d
       end.
Proof.
  intros (npi & ndc & cid & _ & Hndc & Hid & ->)%most_prescribed_body_Ok.
  unfold ranking_key, claim_reverted. rewrite Hndc, Hid.
  by destruct (bool_decide (cid ∈ rc)).
Qed.

Lemma ranking_keys rc claims :
  omap (ranking_key rc) claims =
  omap c_ndc (filter (fun c => claim_reverted rc c = false) claims).
Proof.
  induction claims as [|c claims IH]; [done|].
  rewrite filter_cons. csimpl. unfold ranking_key at 1.
  destruct (claim_reverted rc c).
  - by rewrite decide_False by done.
  - rewrite decide_True by done. csimpl. by rewrite IH.
Qed.

Lemma count_elem_nonempty (q : num) counts : count_elem q counts ≠ [].
Proof. destruct counts as [|[k n] counts]; simpl; [done|]. by destruct (neqb k q). Qed.

Lemma most_prescribed_output_nonempty ndc (quantities : list num) :
  quantities ≠ [] ->
  mp_most_prescribed_quantity (most_prescribed_output (ndc, quantities)) ≠ [].
Proof.
  intros Hne. simpl. intros Hnil%fmap_nil_inv.
  pose proof (most_common_Permutation (Counter quantities)) as Hperm.
  rewrite Hnil in Hperm. symmetry in Hperm.
  apply Permutation_nil_r in Hperm as Hcount. clear Hperm Hnil.
  rename Hcount into Hnil.
  destruct quantities as [|q qs _] using rev_ind; [done|].
  rewrite Counter_snoc in Hnil. by apply count_elem_nonempty in Hnil.
Qed.

Lemma foldl_append_length {A} (f : A -> num) (xs : list A) (l : list num) :
  length (foldl (fun v x => append (f x) v) l xs) = (length l + length xs)%nat.
Proof.
  revert l. induction xs as [|x xs IH]; intros l; simpl; [lia|].
  rewrite IH. unfold append. rewrite length_app. simpl. lia.
Qed.

(** X13. [most_prescribed] returns one entry for every ndc that has a claim
    that is not reverted, in the order in which those claims first show the
    ndcs, and none of the entries has an empty list; an ndc whose claims are
    all reverted has no entry. *)
Theorem most_prescribed_ndc_order claims reverts out :
  most_prescribed claims reverts = Ok out ->
  let rc : gset string := list_to_set (omap r_claim_id reverts) in
  mp_ndc <$> out =
    first_occurrences
      (omap c_ndc (filter (fun c => claim_reverted rc c = false) claims)) ∧
  Forall (fun o => mp_most_prescribed_quantity o ≠ []) out.
Proof.
  intros (d & Hd & ->)%most_prescribed_Ok rc. fold rc in Hd.
  unfold ndc_quantities in Hd. split.
  - rewrite <-ranking_keys.
    rewrite <-(tally_loop_first_occurrences _ _ _ _
                 (most_prescribed_body_tally rc) claims d Hd).
    rewrite <-list_fmap_compose. apply list_fmap_ext. by intros _ [ndc qs] _.
  - apply Forall_fmap, Forall_forall. intros [ndc qs] Hin.
    apply most_prescribed_output_nonempty.
    apply (tally_loop_elem_of _ _ _ _ (most_prescribed_body_tally rc)
             claims d ndc qs Hd) in Hin as [Hne ->].
    intros Hnil%(f_equal length). rewrite foldl_append_length in Hnil.
    destruct (filter _ claims); [done | simpl in Hnil; lia].
Qed.

End MostPrescribedByNdc.

Lemma most_prescribed_ndc_order_witness :
  ∃ out,
    most_prescribed claims_quantities reverts_quantities = Ok out ∧
    mp_ndc <$> out = ["d1"] ∧
    mp_ndc <$> out =
      first_occurrences
        (omap c_ndc
           (filter (fun c => claim_reverted
                      (list_to_set (omap r_claim_id reverts_quantities)) c
                      = false) claims_quantities)) ∧
    Forall (fun o => mp_most_prescribed_quantity o ≠ []) out.
Proof.
  eexists. split; [by vm_compute|]. split; [by vm_compute|].
  exact (most_prescribed_ndc_order claims_quantities reverts_quantities _
           eq_refl).
Defined.

(** ** The readers *)

Lemma read_each_app {S A} (body : S -> A -> reading S) s l1 l2 :
  read_each body s (l1 ++ l2) = s' ← read_each body s l1; read_each body s' l2.
Proof.
  revert s. induction l1 as [|x l1 IH]; intros s; simpl; [done|].
  destruct (body s x); simpl; [apply IH | done].
Qed.

Lemma read_each_cons {S A} (body : S -> A -> reading S) s x l :
  read_each body s (x :: l) = s' ← body s x; read_each body s' l.
Proof. done. Qed.

Lemma returned_new_object {obj} (st : reader obj) o :
  reader_valid st ->
  let st' := {| objects := objects st ++ [o];
                current := Some (length (objects st));
                appended := appended st ++ [length (objects st)] |} in
  reader_valid st' ∧ returned st' = returned st ++ [o].
Proof.
  intros [Happ Hcur]. split; [split|]; simpl.
  - rewrite length_app. simpl. apply Forall_app. split.
    + eapply Forall_impl; [done|]. simpl. lia.
    + constructor; [lia | constructor].
  - intros i [= <-]. rewrite length_app. simpl. lia.
  - unfold returned. simpl. rewrite omap_app. simpl.
    rewrite lookup_app_r, Nat.sub_diag by done. simpl. f_equal.
    induction Happ as [|i ap Hi _ IH]; [done|]. csimpl.
    by rewrite lookup_app_l, IH by done.
Qed.

Section ReaderFacts.
Context {obj number : Type}.
Context (step : reader obj -> string * event number -> reading (reader obj)).
Context (empty : obj) (name : string).
Context (effect : string * event number -> member_effect obj).

(** What a reader does on the events of an array of objects. *)
Hypothesis step_start :
  ∀ st, step st ("item", ev_start_map) = Done (new_object empty st).
Hypothesis step_end :
  ∀ st, step st ("item", ev_end_map) = append_current name st.
Hypothesis step_key : ∀ st key, step st ("item", ev_map_key key) = Done st.
Hypothesis step_start_array : ∀ st, step st ("", ev_start_array) = Done st.
Hypothesis step_end_array : ∀ st, step st ("", ev_end_array) = Done st.
Hypothesis step_member :
  ∀ st member,
    step st (String.append "item." member.1, member.2) =
    match effect member with
    | no_effect _ => Done st
    | assigns _ set => assign name set st
    | overflows _ => Fail OverflowError
    end.

#[local] Abbreviation converts members :=
  (Forall (fun member => effect member ≠ overflows _) members).

Lemma members_run members os o ap :
  converts members ->
  read_each step
    {| objects := os ++ [o]; current := Some (length os); appended := ap |}
    (members ≫= fun member =>
       [("item", ev_map_key member.1);
        (String.append "item." member.1, member.2)]) =
  Done {| objects :=
            os ++ [foldl (fun o member =>
                            match effect member with
                            | assigns _ set => set o
                            | _ => o
                            end) o members];
          current := Some (length os); appended := ap |}.
Proof.
  intros Hall. revert o. induction Hall as [|member members Hm _ IH];
    intros o; [done|].
  csimpl. rewrite step_key. simpl. rewrite step_member.
  destruct (effect member) as [|set|]; simpl; [apply IH | | done].
  unfold assign. simpl.
  rewrite alter_app_r_alt, Nat.sub_diag by done. apply IH.
Qed.

Lemma object_run st members :
  reader_valid st -> converts members ->
  ∃ st', read_each step st (object_events members) = Done st' ∧
         reader_valid st' ∧
         returned st' = returned st ++ [object_of effect empty members].
Proof.
  intros Hst Hall. unfold object_events. simpl. rewrite step_start. simpl.
  rewrite read_each_app. unfold new_object at 1.
  rewrite (members_run members (objects st) empty (appended st) Hall). simpl.
  rewrite step_end. unfold append_current. simpl.
  eexists. split; [done|]. by apply returned_new_object.
Qed.

Lemma objects_run st objs :
  reader_valid st -> Forall (fun members => converts members) objs ->
  ∃ st', read_each step st (objs ≫= object_events) = Done st' ∧
         reader_valid st' ∧
         returned st' = returned st ++ (object_of effect empty <$> objs).
Proof.
  intros Hst Hall. revert st Hst.
  induction Hall as [|members objs Hm _ IH]; intros st Hst.
  - exists st. by rewrite app_nil_r.
  - rewrite bind_cons, read_each_app.
    destruct (object_run st members Hst Hm) as (st1 & -> & Hst1 & Hret1).
    destruct (IH st1 Hst1) as (st' & Hrun & Hst' & Hret').
    exists st'. split_and!; [done..|].
    by rewrite Hret', Hret1, fmap_cons, <-app_assoc.
Qed.

Lemma array_run st objs :
  reader_valid st -> Forall (fun members => converts members) objs ->
  ∃ st', read_each step st (array_events objs) = Done st' ∧
         reader_valid st' ∧
         returned st' = returned st ++ (object_of effect empty <$> objs).
Proof.
  intros Hst Hall. unfold array_events. simpl. rewrite step_start_array. simpl.
  rewrite read_each_app.
  destruct (objects_run st objs Hst Hall) as (st' & -> & Hst' & Hret').
  simpl. rewrite step_end_array. simpl. eauto.
Qed.

Lemma read_file_array st file :
  read_file step st (array_file file) = read_each step st (array_events file.2).
Proof.
  unfold read_file. cbn [array_file file_events file_incomplete].
  by destruct (read_each step st (array_events file.2)).
Qed.

(** The files of arrays of objects: the objects of the files that are
    read, in the order of the listing. *)
Lemma read_files_arrays
    (files : list (string * list (list (string * event number)))) :
  Forall (fun members => converts members) (objects_read files) ->
  read_files step (array_file <$> files) =
  Done (object_of effect empty <$> objects_read files).
Proof.
  intros Hall. unfold read_files.
  assert (∀ st, reader_valid st ->
            ∃ st', read_each
                     (fun st file =>
                        if endswith (file_name file) ".json"
                        then read_file step st file
                        else Done st) st (array_file <$> files) = Done st' ∧
                   returned st' =
                     returned st ++
                     (object_of effect empty <$> objects_read files))
    as Hrun.
  { unfold objects_read in *.
    induction files as [|[fname objs] files IH]; intros st Hst.
    - exists st. by rewrite app_nil_r.
    - rewrite filter_cons in Hall. rewrite filter_cons, fmap_cons.
      rewrite read_each_cons. cbn beta. rewrite read_file_array.
      cbn [array_file file_name fst snd]. cbn [fst] in Hall.
      destruct (endswith fname ".json") eqn:Hname.
      + rewrite decide_True in Hall by done. rewrite decide_True by done.
        rewrite bind_cons in Hall. rewrite bind_cons. cbn [snd] in *.
        apply Forall_app in Hall as [Hobjs Hall].
        destruct (array_run st objs Hst Hobjs) as (st1 & -> & Hst1 & Hret1).
        simpl. destruct (IH Hall st1 Hst1) as (st' & Hrun & Hret').
        exists st'. split; [done|].
        by rewrite Hret', Hret1, fmap_app, <-app_assoc.
      + rewrite decide_False in Hall by done. rewrite decide_False by done.
        by apply IH. }
  destruct (Hrun reader_init) as (st' & -> & Hret).
  - split; [constructor | done].
  - simpl. by rewrite Hret.
Qed.

End ReaderFacts.

Lemma item_member_prefix (key key' : string) :
  String.append "item." key = String.append "item." key' ↔ key = key'.
Proof. split; [|by intros ->]. simpl. intros Heq. by injection Heq. Qed.

(** The key of a member whose prefix is known. *)
Ltac item_keys :=
  repeat match goal with
         | H : String.append "item." ?key = _ |- _ =>
             apply (item_member_prefix key) in H
         end;
  simplify_eq.

Section MemberFacts.
Context {number : Type}.
Implicit Types (members : list (string * event number)).

Lemma string_member_snoc key members member :
  string_member key (members ++ [member]) =
  match member.2 with
  | ev_string value =>
      if decide (member.1 = key) then Some value
      else string_member key members
  | _ => string_member key members
  end.
Proof.
  unfold string_member. rewrite omap_app. csimpl.
  destruct member.2; rewrite ?app_nil_r; try done.
  case_decide; [by rewrite last_snoc | by rewrite app_nil_r].
Qed.

Lemma number_member_snoc key members member :
  number_member key (members ++ [member]) =
  match member.2 with
  | ev_number value =>
      if decide (member.1 = key) then Some value
      else number_member key members
  | _ => number_member key members
  end.
Proof.
  unfold number_member. rewrite omap_app. csimpl.
  destruct member.2; rewrite ?app_nil_r; try done.
  case_decide; [by rewrite last_snoc | by rewrite app_nil_r].
Qed.

Lemma object_of_snoc {obj} (effect : string * event number -> member_effect obj)
    empty members member :
  object_of effect empty (members ++ [member]) =
  match effect member with
  | assigns _ set => set (object_of effect empty members)
  | _ => object_of effect empty members
  end.
Proof. unfold object_of. by rewrite foldl_snoc. Qed.

Lemma revert_of_object members :
  object_of revert_effect empty_revert members = revert_of_members members.
Proof.
  induction members as [|member members IH] using rev_ind; [done|].
  rewrite object_of_snoc, IH. unfold revert_of_members.
  rewrite !string_member_snoc. unfold revert_effect.
  destruct member as [key []]; simpl; try done.
  repeat case_decide; simplify_eq; done.
Qed.

Context {num : Type} `{Number num} (to_float : number -> option num).

Lemma claim_of_object members :
  convertible to_float members ->
  object_of (claim_effect to_float) empty_claim members =
  claim_of_members to_float members.
Proof.
  induction members as [|member members IH] using rev_ind; [done|].
  intros [Hall Hm]%Forall_app. apply Forall_inv in Hm.
  rewrite object_of_snoc, IH by done. unfold claim_of_members.
  rewrite !string_member_snoc, !number_member_snoc. unfold claim_effect.
  destruct member as [key []]; simpl in *; try done.
  - repeat case_decide; simplify_eq; try done.
    + destruct Hm as [x Hx]; [by left|]. unfold set_price. simpl.
      by rewrite Hx.
    + destruct Hm as [x Hx]; [by right|]. unfold set_quantity. simpl.
      by rewrite Hx.
  - repeat case_decide; simplify_eq; done.
Qed.

Lemma convertible_effect members :
  convertible to_float members ->
  Forall (fun member => claim_effect to_float member ≠ overflows _) members.
Proof.
  intros Hall. eapply Forall_impl; [done|].
  intros [key ev] Hm. unfold claim_effect.
  destruct ev; simpl in *; try done.
  - repeat case_decide; try done.
    + by destruct Hm as [x ->]; [left|].
    + by destruct Hm as [x ->]; [right|].
  - by repeat case_decide.
Qed.

End MemberFacts.

Section ReadArrays.
Context {number : Type}.

Lemma read_reverts_member (st : reader revert)
    (member : string * event number) :
  read_reverts_event st (String.append "item." member.1, member.2) =
  match revert_effect member with
  | no_effect _ => Done st
  | assigns _ set => assign "revert" set st
  | overflows _ => Fail OverflowError
  end.
Proof.
  destruct member as [key ev]. unfold revert_effect.
  destruct ev; simpl; try done; repeat case_decide; item_keys; done.
Qed.

Lemma revert_effect_converts (members : list (string * event number)) :
  Forall (fun member => revert_effect member ≠ overflows _) members.
Proof.
  apply Forall_forall. intros [key ev] _. unfold revert_effect.
  destruct ev; simpl; try done. by repeat case_decide.
Qed.

(** X14. [read_reverts] on files that hold an array of objects returns the
    objects of the files whose name ends in .json, in the order of the
    listing and of the arrays, each as the revert with the last string that
    the object has at each of the keys id, claim_id and timestamp; what
    else the objects hold is left out, and so are the other files. *)
Theorem read_reverts_arrays
    (files : list (string * list (list (string * event number)))) :
  read_reverts (array_file <$> files) =
  Done (revert_of_members <$> objects_read files).
Proof.
  unfold read_reverts.
  rewrite (read_files_arrays read_reverts_event empty_revert "revert"
             revert_effect); try done.
  - f_equal. apply list_fmap_ext. intros _ members _.
    apply revert_of_object.
  - apply read_reverts_member.
  - apply Forall_forall. intros members _. apply revert_effect_converts.
Qed.

Context {num : Type} `{Number num} (to_float : number -> option num).

Lemma read_claims_member (st : reader (claim num))
    (member : string * event number) :
  read_claims_event to_float st (String.append "item." member.1, member.2) =
  match claim_effect to_float member with
  | no_effect _ => Done st
  | assigns _ set => assign "claim" set st
  | overflows _ => Fail OverflowError
  end.
Proof.
  destruct member as [key ev]. unfold claim_effect.
  destruct ev; simpl; try done; repeat case_decide; item_keys; try done;
    unfold float_value; by destruct (to_float value).
Qed.

(** X15. [read_claims] on files that hold an array of objects returns the
    objects of the files whose name ends in .json, in the order of the
    listing and of the arrays, each as the claim with the last string that
    the object has at each of the keys id, npi, ndc and timestamp and the
    float of the last number it has at price and at quantity, when [float]
    converts the numbers at these two keys; a key without such a member is
    missing in the claim. *)
Theorem read_claims_arrays
    (files : list (string * list (list (string * event number)))) :
  Forall (convertible to_float) (objects_read files) ->
  read_claims to_float (array_file <$> files) =
  Done (claim_of_members to_float <$> objects_read files).
Proof.
  intros Hall. unfold read_claims.
  rewrite (read_files_arrays (read_claims_event to_float) empty_claim "claim"
             (claim_effect to_float)); try done.
  - f_equal. apply list_fmap_ext. intros i members Hi.
    apply claim_of_object.
    eapply Forall_forall in Hall; [done|]. by eapply list_elem_of_lookup_2.
  - apply read_claims_member.
  - eapply Forall_impl; [done|]. apply convertible_effect.
Qed.

End ReadArrays.

Lemma read_claims_arrays_witness :
  Forall (convertible int_to_float) (objects_read files_c1) ∧
  read_claims int_to_float (array_file <$> files_c1) = Done [claim_c1] ∧
  read_claims int_to_float (array_file <$> files_c1) =
  Done (claim_of_members int_to_float <$> objects_read files_c1).
Proof.
  assert (Forall (convertible int_to_float) (objects_read files_c1)) as Hall.
  { repeat constructor; simpl; eauto. }
  split; [exact Hall|]. split; [by vm_compute|].
  exact (read_claims_arrays int_to_float files_c1 Hall).
Defined.

(** ** The readers without the heap *)

Lemma omap_replicate {A B} (f : A -> option B) n x y :
  f x = Some y -> omap f (replicate n x) = replicate n y.
Proof. intros Hx. induction n as [|n IH]; csimpl; [done|]. by rewrite Hx, IH. Qed.

Lemma omap_lookup_app {A} (os os' : list A) ap :
  Forall (fun i => i < length os) ap ->
  omap (fun i => (os ++ os') !! i) ap = omap (fun i => os !! i) ap.
Proof.
  induction 1 as [|i ap Hi _ IH]; [done|]. csimpl.
  by rewrite lookup_app_l, IH by done.
Qed.

Lemma holds_returned {obj} (st : reader obj) done cur :
  holds st done cur ->
  Forall (fun i => i < length (objects st)) (appended st) ∧
  returned st = done ++ held cur.
Proof.
  unfold returned. destruct cur as [[o n]|]; simpl.
  - intros (os & ap & -> & _ & -> & Hap & <-). split.
    + rewrite length_app. simpl. apply Forall_app. split.
      * eapply Forall_impl; [done|]. simpl. lia.
      * apply Forall_replicate. lia.
    + rewrite omap_app, omap_lookup_app by done. f_equal.
      apply omap_replicate. by rewrite lookup_app_r, Nat.sub_diag.
  - by intros (-> & _ & -> & ->).
Qed.

Section ByValue.
Context {obj number : Type}.
Context (step : reader obj -> string * event number -> reading (reader obj)).
Context (empty : obj) (name : string).
Context (action_of : string * event number -> action obj).
Hypothesis step_action :
  ∀ st pev, step st pev = run_action empty name (action_of pev) st.

Lemma by_value_run pevs st done cur :
  holds st done cur ->
  (st' ← read_each step st pevs; Done (returned st')) =
  (rest ← by_value empty name cur (action_of <$> pevs); Done (done ++ rest)).
Proof.
  revert st done cur. induction pevs as [|pev pevs IH]; intros st done cur Hst.
  - simpl. by destruct (holds_returned st done cur Hst) as [_ ->].
  - rewrite read_each_cons, fmap_cons, step_action.
    destruct (action_of pev) as [| |set| |]; simpl.
    + by apply IH.
    + destruct (holds_returned st done cur Hst) as [Hap Hret].
      rewrite (IH (new_object empty st) (done ++ held cur) (Some (empty, 0))).
      * destruct (by_value empty name (Some (empty, 0)) (action_of <$> pevs));
          simpl; [by rewrite app_assoc | done].
      * exists (objects st), (appended st). simpl.
        rewrite app_nil_r. split_and!; [done..|]. by rewrite <-Hret.
    + destruct cur as [[o n]|]; simpl in Hst.
      * destruct Hst as (os & ap & Hos & Hcur & Happ & Hap & Hdone).
        unfold assign. rewrite Hcur. simpl. apply IH.
        exists os, ap. simpl.
        rewrite Hos, alter_app_r_alt, Nat.sub_diag by done. done.
      * destruct Hst as (_ & Hcur & _). unfold assign. by rewrite Hcur.
    + destruct cur as [[o n]|]; simpl in Hst.
      * destruct Hst as (os & ap & Hos & Hcur & Happ & Hap & Hdone).
        unfold append_current. rewrite Hcur. simpl. apply IH.
        exists os, ap. simpl. split_and!; [done..| |done|done].
        by rewrite Happ, <-app_assoc, <-replicate_S_end.
      * destruct Hst as (_ & Hcur & _). unfold append_current. by rewrite Hcur.
    + done.
Qed.

Lemma read_files_events (listing : list (json_file number)) st :
  read_each
    (fun st file =>
       if endswith (file_name file) ".json"
       then read_file step st file
       else Done st) st listing =
  at_end_of listing (read_each step st (events_read listing)).
Proof.
  unfold at_end_of, parse_fails. revert st.
  induction listing as [|file listing IH]; intros st; [done|].
  rewrite read_each_cons. cbn [events_read existsb].
  destruct (endswith (file_name file) ".json"); [|apply IH].
  unfold read_file. rewrite read_each_app.
  destruct (read_each step st (file_events file)) as [st1|e]; [|done].
  destruct (file_incomplete file); simpl; [done | apply IH].
Qed.

Lemma read_files_by_value (listing : list (json_file number)) :
  read_files step listing =
  at_end_of listing
    (by_value empty name None (action_of <$> events_read listing)).
Proof.
  unfold read_files. rewrite read_files_events. unfold at_end_of.
  pose proof (by_value_run (events_read listing) reader_init [] None) as Hrun.
  destruct (read_each step reader_init (events_read listing)) as [st|e],
    (by_value empty name None (action_of <$> events_read listing)) as [r|e'];
    simpl in *; specialize (Hrun ltac:(done)); simplify_eq; [|done].
  by destruct (parse_fails listing).
Qed.

End ByValue.

(** A bound variable stays bound. *)
Lemma by_value_bound {obj} (empty : obj) name cur acts name' :
  is_Some cur -> by_value empty name cur acts ≠ Fail (UnboundLocalError name').
Proof.
  revert cur. induction acts as [|a acts IH]; intros cur [[o n] ->]; [done|].
  destruct a; simpl; try done; try (by apply IH).
  destruct (by_value empty name (Some (empty, 0)) acts) eqn:Hrest; [done|].
  simpl. intros [= ->]. by eapply IH.
Qed.

Lemma by_value_no_overflow {obj} (empty : obj) name cur acts :
  Forall (fun a => match a with act_overflow => False | _ => True end) acts ->
  by_value empty name cur acts ≠ Fail OverflowError.
Proof.
  intros Hall. revert cur.
  induction Hall as [|a acts Ha _ IH]; intros cur; [done|].
  destruct a, cur as [[o n]|]; simpl; try done; try (by apply IH).
  - destruct (by_value empty name (Some (empty, 0)) acts) eqn:Hrest; [done|].
    simpl. intros [= ->]. by eapply IH.
  - destruct (by_value empty name (Some (empty, 0)) acts) eqn:Hrest; [done|].
    simpl. intros [= ->]. by eapply IH.
Qed.

(** The exception of the parser is none of the events'. *)
Lemma by_value_no_JSONError {obj} (empty : obj) name cur acts :
  by_value empty name cur acts ≠ Fail JSONError.
Proof.
  revert cur. induction acts as [|a acts IH]; intros cur; [done|].
  destruct a, cur as [[o n]|]; simpl; try done; try (by apply IH).
  - destruct (by_value empty name (Some (empty, 0)) acts) eqn:Hrest; [done|].
    simpl. intros [= ->]. by eapply IH.
  - destruct (by_value empty name (Some (empty, 0)) acts) eqn:Hrest; [done|].
    simpl. intros [= ->]. by eapply IH.
Qed.

(** The first event that is not skipped decides whether the variable is
    bound. *)
Lemma by_value_unbound {obj} (empty : obj) name acts :
  match head (filter (fun a => is_skip a = false) acts) with
  | None => by_value empty name None acts = Done []
  | Some act_new =>
      ∀ name', by_value empty name None acts ≠ Fail (UnboundLocalError name')
  | Some act_overflow => by_value empty name None acts = Fail OverflowError
  | Some _ => by_value empty name None acts = Fail (UnboundLocalError name)
  end.
Proof.
  induction acts as [|a acts IH]; [done|].
  rewrite filter_cons. destruct a; simpl; try done.
  intros name'.
  destruct (by_value empty name (Some (empty, 0)) acts) eqn:Hrest; [done|].
  simpl. intros [= ->]. by eapply by_value_bound.
Qed.

Section ReadersByValue.
Context {number : Type} {num : Type} `{Number num}.
Context (to_float : number -> option num).

Lemma read_reverts_action (st : reader revert) (pev : string * event number) :
  read_reverts_event st pev =
  run_action empty_revert "revert" (reverts_action pev) st.
Proof.
  destruct pev as [prefix ev].
  destruct ev; simpl; try done; by repeat case_decide.
Qed.

Lemma read_claims_action (st : reader (claim num))
    (pev : string * event number) :
  read_claims_event to_float st pev =
  run_action empty_claim "claim" (claims_action to_float pev) st.
Proof.
  destruct pev as [prefix ev].
  destruct ev; simpl; try done; repeat case_decide; try done;
    unfold float_value; by destruct (to_float value).
Qed.

(** X16. The lists that [read_claims] and [read_reverts] return, for any
    events: every start of an item makes a dict, which gets the fields
    that come before the next start of an item, in whatever file of the
    listing, those that come after the end of the item as well; the dict is
    listed once for every end of an item that comes before the next start.
    A field or an end of an item before the first start raises
    UnboundLocalError, a price or quantity that [float] does not convert
    OverflowError; and when the parser of a file raises, no file after it
    is read, and the reader raises that exception unless one of the events
    before has raised its own. *)
Theorem readers_by_value (claims_dir reverts_dir : list (json_file number)) :
  read_claims to_float claims_dir =
    at_end_of claims_dir
      (by_value empty_claim "claim" None
         (claims_action to_float <$> events_read claims_dir)) ∧
  read_reverts reverts_dir =
    at_end_of reverts_dir
      (by_value empty_revert "revert" None
         (reverts_action <$> events_read reverts_dir)).
Proof.
  split.
  - apply read_files_by_value, read_claims_action.
  - apply read_files_by_value, read_reverts_action.
Qed.

(** X17. Where no parser raises, [read_reverts] raises nothing but
    UnboundLocalError, and raises it exactly when, in the files that are
    read, a field or the end of an item comes before the first start of an
    item; when there is none of these events it returns the empty list.
    [read_claims] does the same, but for the OverflowError of a price or
    quantity.  Where the parser of a file raises, after the events it has
    yielded, a reader that would have returned raises the exception of the
    parser instead. *)
Theorem readers_unbound (claims_dir reverts_dir : list (json_file number)) :
  match head (filter (fun a => is_skip a = false)
                     (reverts_action <$> events_read reverts_dir)) with
  | None => read_reverts reverts_dir = at_end_of reverts_dir (Done [])
  | Some act_new =>
      ∃ reverts, read_reverts reverts_dir = at_end_of reverts_dir (Done reverts)
  | Some _ => read_reverts reverts_dir = Fail (UnboundLocalError "revert")
  end ∧
  match head (filter (fun a => is_skip a = false)
                     (claims_action to_float <$> events_read claims_dir)) with
  | None => read_claims to_float claims_dir = at_end_of claims_dir (Done [])
  | Some act_new =>
      ∀ name, read_claims to_float claims_dir ≠ Fail (UnboundLocalError name)
  | Some act_overflow => read_claims to_float claims_dir = Fail OverflowError
  | Some _ => read_claims to_float claims_dir = Fail (UnboundLocalError "claim")
  end.
Proof.
  unfold read_claims, read_reverts.
  rewrite (read_files_by_value _ _ _ _ (read_claims_action)).
  rewrite (read_files_by_value _ _ _ _ (read_reverts_action)).
  split.
  - pose proof (by_value_unbound empty_revert "revert"
                  (reverts_action <$> events_read reverts_dir)) as Hfirst.
    destruct (head _) as [[]|] eqn:Hhead; try (by rewrite Hfirst).
    + destruct (by_value _ _ _ _) as [reverts|e] eqn:Hrun; [eauto|].
      exfalso. destruct e as [name| |]; [by eapply Hfirst| |].
      * eapply by_value_no_overflow; [|done].
        apply Forall_fmap, Forall_forall. intros [prefix ev] _.
        destruct ev; simpl; try done; by repeat case_decide.
      * by eapply by_value_no_JSONError.
    + exfalso. apply head_Some_elem_of, list_elem_of_filter in Hhead as [_ Hin].
      apply list_elem_of_fmap in Hin as ([prefix ev] & Hact & _).
      destruct ev; simpl in Hact; try done; by repeat case_decide.
  - pose proof (by_value_unbound empty_claim "claim"
                  (claims_action to_float <$> events_read claims_dir))
      as Hfirst.
    destruct (head _) as [[]|]; try (by rewrite Hfirst).
    intros name'. unfold at_end_of.
    destruct (by_value _ _ _ _) as [claims|e] eqn:Hrun; simpl.
    + by destruct (parse_fails claims_dir).
    + intros [= ->]. by eapply Hfirst.
Qed.

End ReadersByValue.

(** ** read_pharmacies *)

Lemma for_each_app {S A} (body : S -> A -> result S) s l1 l2 :
  for_each body s (l1 ++ l2) = s' ← for_each body s l1; for_each body s' l2.
Proof.
  revert s. induction l1 as [|x l1 IH]; intros s; simpl; [done|].
  destruct (body s x); simpl; [apply IH | done].
Qed.

Lemma read_pharmacies_rows listing :
  read_pharmacies listing = for_each read_pharmacies_row ∅ (rows_read listing).
Proof.
  unfold read_pharmacies, rows_read.
  generalize (∅ : gmap (option string) (option string)).
  induction listing as [|file listing IH]; intros dir; [done|].
  rewrite filter_cons. simpl.
  destruct (endswith (csv_name file) ".csv").
  - rewrite decide_True, bind_cons, for_each_app by done.
    destruct (for_each read_pharmacies_row dir (csv_rows file)); simpl;
      [apply IH | done].
  - rewrite decide_False by done. apply IH.
Qed.

Lemma read_pharmacies_row_Ok dir row dir' :
  read_pharmacies_row dir row = Ok dir' ->
  ∃ npi chain, row !! "npi" = Some npi ∧ row !! "chain" = Some chain ∧
               dir' = <[npi := chain]> dir.
Proof.
  unfold read_pharmacies_row.
  destruct (row !! "chain") as [chain|]; simpl; [|done].
  destruct (row !! "npi") as [npi|]; simpl; [|done].
  intros [= <-]. eauto.
Qed.

(** X18. In the dict that [read_pharmacies] returns, an npi has the chain
    of the last row with that npi, over the files whose name ends in .csv
    in the order of the listing, and it is a key only if there is such a
    row; the other files are not read. *)
Theorem read_pharmacies_last_row listing pharmacy_chains :
  read_pharmacies listing = Ok pharmacy_chains ->
  ∀ npi, pharmacy_chains !! npi = last (omap (row_chain npi) (rows_read listing)).
Proof.
  rewrite read_pharmacies_rows. intros Hrun npi.
  assert (∀ rows dir dir',
            for_each read_pharmacies_row dir rows = Ok dir' ->
            dir' !! npi =
            match last (omap (row_chain npi) rows) with
            | Some chain => Some chain
            | None => dir !! npi
            end) as Hloop.
  { clear. induction rows as [|row rows IH] using rev_ind; intros dir dir'.
    - by intros [= <-].
    - rewrite for_each_app. intros (dir1 & Hrows & Hrow)%bind_Ok.
      simpl in Hrow. apply bind_Ok in Hrow as (dir2 & Hrow & [= <-]).
      apply read_pharmacies_row_Ok in Hrow as (npi' & chain & Hnpi & Hchain & ->).
      assert (row_chain npi row =
              if decide (npi' = npi) then Some chain else None) as Hrc.
      { unfold row_chain. rewrite Hnpi, Hchain.
        destruct (decide (npi' = npi)) as [->|Hne].
        - by rewrite decide_True.
        - rewrite decide_False; [done | congruence]. }
      rewrite omap_app. csimpl. rewrite Hrc.
      destruct (decide (npi' = npi)) as [->|Hne].
      + by rewrite last_snoc, lookup_insert_eq.
      + rewrite app_nil_r, lookup_insert_ne by done. by apply IH. }
  rewrite (Hloop _ _ _ Hrun), lookup_empty. by destruct (last _).
Qed.


Lemma read_pharmacies_last_row_witness :
  ∃ pharmacy_chains,
    read_pharmacies pharmacies_listing = Ok pharmacy_chains ∧
    pharmacy_chains !! Some "p1" = Some (Some "ChainC") ∧
    pharmacy_chains !! Some "p2" = Some (Some "ChainB") ∧
    ∀ npi, pharmacy_chains !! npi =
           last (omap (row_chain npi) (rows_read pharmacies_listing)).
Proof.
  eexists. split; [by vm_compute|]. split; [by vm_compute|].
  split; [by vm_compute|].
  exact (read_pharmacies_last_row pharmacies_listing _ eq_refl).
Defined.

(** ** From the files to the reports *)

Section Pipeline.
Context {number : Type} {num : Type} `{Number num}.
Context (to_float : number -> option num).
Implicit Types (members : list (string * event number)).

Lemma number_member_elem_of key members value :
  number_member key members = Some value ->
  (key, ev_number value) ∈ members.
Proof.
  unfold number_member.
  intros ([k ev] & Hin & Hm)%last_Some_elem_of%list_elem_of_omap.
  simpl in Hm. destruct ev; try done.
  case_decide; [|done]. by simplify_eq.
Qed.

Lemma complete_claim_fields members :
  convertible to_float members -> complete_claim members ->
  has_metrics_fields (claim_of_members to_float members).
Proof.
  intros Hall (Hid & Hnpi & Hndc & [value Hprice]).
  split_and!; simpl; [done..| |done].
  rewrite Hprice. simpl.
  apply number_member_elem_of in Hprice.
  eapply Forall_forall in Hall; [|done]. simpl in Hall. apply Hall. by left.
Qed.

(** X20. Files of arrays of objects that have strings at id, npi and ndc
    and a number that [float] converts at price, and reverts that have a
    string at claim_id, are read without exception, and each of the four
    aggregators returns on what was read; quantity and timestamp may be
    lacking. *)
Theorem complete_objects_return
    (claims_files reverts_files
       : list (string * list (list (string * event number)))) :
  Forall (fun members => convertible to_float members ∧ complete_claim members)
    (objects_read claims_files) ->
  Forall complete_revert (objects_read reverts_files) ->
  ∃ claims reverts,
    read_claims to_float (array_file <$> claims_files) = Done claims ∧
    read_reverts (array_file <$> reverts_files) = Done reverts ∧
    (∃ recs, calculate_metrics claims reverts = Ok recs) ∧
    (∃ out, most_prescribed claims reverts = Ok out) ∧
    (∀ dir, ∃ out, recommendations claims reverts dir = Ok out) ∧
    (∀ dir, ∃ out, process_data dir claims reverts = Ok out).
Proof.
  intros Hclaims Hreverts.
  exists (claim_of_members to_float <$> objects_read claims_files),
         (revert_of_members <$> objects_read reverts_files).
  assert (Forall has_metrics_fields
            (claim_of_members to_float <$> objects_read claims_files))
    as Hfields.
  { apply Forall_fmap. eapply Forall_impl; [done|].
    intros members [? ?]. by apply complete_claim_fields. }
  assert (Forall (fun r => is_Some (r_claim_id r))
            (revert_of_members (number := number) <$>
             objects_read reverts_files)) as Hids.
  { apply Forall_fmap. eapply Forall_impl; [done|]. by intros members ?. }
  split_and!.
  - unfold read_claims.
    rewrite (read_files_arrays (read_claims_event to_float) empty_claim
               "claim" (claim_effect to_float)); try done.
    + f_equal. apply list_fmap_ext. intros i members Hi.
      apply claim_of_object.
      eapply Forall_forall in Hclaims as [? _]; [done|].
      by eapply list_elem_of_lookup_2.
    + apply read_claims_member.
    + eapply Forall_impl; [done|]. intros members [? _].
      by apply convertible_effect.
  - unfold read_reverts.
    rewrite (read_files_arrays read_reverts_event empty_revert "revert"
               revert_effect); try done.
    + f_equal. apply list_fmap_ext. intros _ members _.
      apply revert_of_object.
    + apply read_reverts_member.
    + apply Forall_forall. intros members _. apply revert_effect_converts.
  - by apply calculate_metrics_total.
  - apply most_prescribed_total; [|done]. eapply Forall_impl; [done|].
    intros c (? & ? & _ & ?). by split_and!.
  - intros dir. by apply recommendations_total.
  - intros dir. apply process_data_total; [done|].
    eapply Forall_impl; [done|].
    intros c ([npi Hnpi] & _ & Hprice & [cid Hid]).
    exists npi. split; [done|]. intros _. exists cid. by split.
Qed.

(** X21. An object of a claims file that has no number at price, be it
    that it has no price or one that is a string, is read as a claim without
    price, and [calculate_metrics] and [recommendations] then raise a
    KeyError whatever the reverts and the directory. *)
Theorem price_not_a_number_faults
    (claims_files : list (string * list (list (string * event number))))
    members :
  Forall (convertible to_float) (objects_read claims_files) ->
  members ∈ objects_read claims_files ->
  number_member "price" members = None ->
  ∃ claims,
    read_claims to_float (array_file <$> claims_files) = Done claims ∧
    ∀ reverts dir,
      is_KeyError (calculate_metrics claims reverts) ∧
      is_KeyError (recommendations claims reverts dir).
Proof.
  intros Hall Hin Hprice.
  exists (claim_of_members to_float <$> objects_read claims_files). split.
  - unfold read_claims.
    rewrite (read_files_arrays (read_claims_event to_float) empty_claim
               "claim" (claim_effect to_float)); try done.
    + f_equal. apply list_fmap_ext. intros i ms Hi. apply claim_of_object.
      eapply Forall_forall in Hall; [done|]. by eapply list_elem_of_lookup_2.
    + apply read_claims_member.
    + eapply Forall_impl; [done|]. apply convertible_effect.
  - intros reverts dir.
    assert (claim_of_members to_float members ∈
            claim_of_members to_float <$> objects_read claims_files) as Hc
      by by apply list_elem_of_fmap_2.
    assert (c_price (claim_of_members to_float members) = None) as Hnone
      by (simpl; by rewrite Hprice).
    split.
    + apply (aggregator_KeyError metrics_body
               (fun m => Ok (map metric_output m)) [] _ reverts _ Hc).
      * intros rc m. apply metrics_body_missing. tauto.
      * intros rc m y e. apply metrics_body_Raise.
    + apply (aggregator_KeyError (fun rc => recommendations_body rc dir)
               (comprehension ndc_output) [] _ reverts _ Hc).
      * intros rc g. apply recommendations_body_missing. tauto.
      * intros rc g y e. apply recommendations_body_Raise.
Qed.

End Pipeline.

Lemma complete_objects_return_witness :
  Forall (fun members => convertible int_to_float members ∧
                         complete_claim members)
    (objects_read files_c1) ∧
  Forall complete_revert (objects_read files_r1) ∧
  ∃ claims reverts,
    read_claims int_to_float (array_file <$> files_c1) = Done claims ∧
    read_reverts (array_file <$> files_r1) = Done reverts ∧
    (∃ recs, calculate_metrics claims reverts = Ok recs) ∧
    (∃ out, most_prescribed claims reverts = Ok out) ∧
    (∀ dir, ∃ out, recommendations claims reverts dir = Ok out) ∧
    (∀ dir, ∃ out, process_data dir claims reverts = Ok out).
Proof.
  assert (Forall (fun members => convertible int_to_float members ∧
                                 complete_claim members)
            (objects_read files_c1)) as Hclaims.
  { repeat constructor; simpl; eauto; eexists; by vm_compute. }
  assert (Forall complete_revert (objects_read files_r1)) as Hreverts.
  { repeat constructor. eexists. by vm_compute. }
  split; [exact Hclaims|]. split; [exact Hreverts|].
  exact (complete_objects_return int_to_float files_c1 files_r1
           Hclaims Hreverts).
Defined.

Lemma price_not_a_number_faults_witness :
  ∃ members,
    Forall (convertible int_to_float) (objects_read files_price_string) ∧
    members ∈ objects_read files_price_string ∧
    string_member "price" members = Some "10.0" ∧
    number_member "price" members = None ∧
    ∃ claims,
      read_claims int_to_float (array_file <$> files_price_string)
        = Done claims ∧
      ∀ reverts dir,
        is_KeyError (calculate_metrics claims reverts) ∧
        is_KeyError (recommendations claims reverts dir).
Proof.
  eexists.
  assert (Forall (convertible int_to_float) (objects_read files_price_string))
    as Hall.
  { repeat constructor; simpl; eauto. }
  split; [exact Hall|]. split; [left|]. split; [by vm_compute|].
  split; [by vm_compute|].
  exact (price_not_a_number_faults int_to_float files_price_string _ Hall
           (list_elem_of_here _ _) eq_refl).
Defined.

Lemma recommendations_by_group_witness :
  ∃ out,
    recommendations claims_tie [] three_chains = Ok out ∧
    (fun o => cr_name <$> rec_chain o) <$> out = [["ChainB"; "ChainA"]] ∧
    (fun o => chains_of three_chains (rec_ndc o) claims_tie) <$> out
      = [["ChainB"; "ChainA"; "ChainC"]] ∧
    Forall (fun o =>
              let averages :=
                ndc_averages (list_to_set (omap r_claim_id []))
                  three_chains (rec_ndc o) claims_tie in
              total_preorder_on averages = true ∧ strict_on averages = true)
           out ∧
    let rc : gset string := list_to_set (omap r_claim_id []) in
    rec_ndc <$> out = first_occurrences (omap c_ndc claims_tie) ∧
    Forall (fun o =>
              let candidates :=
                chain_of_group rc three_chains (rec_ndc o) claims_tie <$>
                chains_of three_chains (rec_ndc o) claims_tie in
              let averages :=
                ndc_averages rc three_chains (rec_ndc o) claims_tie in
              total_preorder_on averages = true -> strict_on averages = true ->
              ∃ ranking, rec_chain o = take 2 ranking ∧
                         stable_ranking candidates ranking)
           out.
Proof.
  eexists. split; [by vm_compute|]. split; [by vm_compute|].
  split; [by vm_compute|]. split; [repeat constructor; by vm_compute|].
  exact (recommendations_by_group claims_tie [] three_chains _ eq_refl).
Defined.
